(** * pet: the SCoP data model and its combinators (scop.c)

    A shallow embedding of the combinators of [scop.c]: composition
    ([pet_scop_add], [pet_scop_add_seq], [pet_scop_add_par]), skip handling
    ([combine_skips], [pet_scop_restrict], [pet_scop_filter]), loop embedding
    ([pet_scop_embed]) and gist ([pet_scop_gist]).

    The integer set library isl is an external collaborator of [scop.c].
    Every [isl_*] call of the source is an operation of the class [IslOps]
    below, under its C name; what the proofs use of isl's documented
    behaviour is stated once, in the class [IslSem].  The pet functions are
    transliterated against that interface, so that each definition can be
    read next to the C function of the same name.

    Conventions of the embedding.
    - isl operations are total: resource exhaustion (a NULL result of an isl
      call or of an allocation) is not modelled, and the branches of the
      source that only react to it are left out.
    - isl objects are reference counted values: [isl_*_copy] is the identity
      and [isl_*_free] is not recorded.
    - A [struct pet_scop] lives in a heap, since [combine_skips] and
      [pet_scop_add] are called with aliased pointers and release their
      arguments.  A function that takes ownership of one scop, updates it in
      place and returns it is a function on the value of the scop; [in_place]
      runs it on the heap. *)

From stdpp Require Import gmap strings list.

Local Open Scope Z_scope.

(** ** Enumerations of isl and pet *)

(** [enum isl_dim_type]; [isl_dim_set] is another name for [isl_dim_out]. *)
Inductive isl_dim_type :=
| isl_dim_cst | isl_dim_param | isl_dim_in | isl_dim_out | isl_dim_div | isl_dim_all.

Definition isl_dim_set : isl_dim_type := isl_dim_out.

(** [enum isl_error], the kinds a diagnostic of [isl_die] carries. *)
Inductive isl_error :=
| isl_error_none | isl_error_abort | isl_error_alloc | isl_error_unknown
| isl_error_internal | isl_error_invalid | isl_error_quota | isl_error_unsupported.

(** [enum pet_skip]: the two skip conditions of a [pet_scop_ext]. *)
Inductive pet_skip := pet_skip_now | pet_skip_later.

#[global] Instance isl_dim_type_eq_dec : EqDecision isl_dim_type.
Proof. solve_decision. Defined.
#[global] Instance isl_error_eq_dec : EqDecision isl_error.
Proof. solve_decision. Defined.
#[global] Instance pet_skip_eq_dec : EqDecision pet_skip.
Proof. solve_decision. Defined.

(** ** The algebra provider: isl

    One field per isl function that the embedded part of [scop.c] calls,
    with the argument order of the C prototype.  An [isl_bool] or [int]
    answer that is only tested is a [bool]; a dimension count or position is
    a [Z] (-1 is "not found" for [find_dim_by_id]). *)
Class IslOps := {
  isl_id : Type;
  isl_space : Type;
  isl_local_space : Type;
  isl_set : Type;
  isl_map : Type;
  isl_union_map : Type;
  isl_aff : Type;
  isl_pw_aff : Type;
  isl_multi_aff : Type;
  isl_pw_multi_aff : Type;
  isl_multi_pw_aff : Type;
  isl_val : Type;

  (* identifiers: compared as pointers in the source *)
  isl_id_eq_dec :: EqDecision isl_id;
  (* the user pointer of an identifier; [None] is NULL *)
  isl_id_get_user : isl_id → option positive;

  (* spaces *)
  isl_space_params_alloc : Z → isl_space;
  isl_space_is_wrapping : isl_space → bool;
  isl_space_unwrap : isl_space → isl_space;
  isl_space_domain : isl_space → isl_space;
  isl_space_range : isl_space → isl_space;
  isl_space_from_domain : isl_space → isl_space;
  isl_space_add_dims : isl_space → isl_dim_type → Z → isl_space;
  isl_space_drop_dims : isl_space → isl_dim_type → Z → Z → isl_space;
  isl_space_map_from_set : isl_space → isl_space;
  isl_local_space_from_space : isl_space → isl_local_space;

  (* sets *)
  isl_set_universe : isl_space → isl_set;
  isl_set_get_space : isl_set → isl_space;
  isl_set_intersect : isl_set → isl_set → isl_set;
  isl_set_union : isl_set → isl_set → isl_set;
  isl_set_subtract : isl_set → isl_set → isl_set;
  isl_set_complement : isl_set → isl_set;
  isl_set_coalesce : isl_set → isl_set;
  isl_set_params : isl_set → isl_set;
  isl_set_from_params : isl_set → isl_set;
  isl_set_intersect_params : isl_set → isl_set → isl_set;
  isl_set_gist : isl_set → isl_set → isl_set;
  isl_set_gist_params : isl_set → isl_set → isl_set;
  isl_set_has_tuple_id : isl_set → bool;
  isl_set_get_tuple_id : isl_set → isl_id;
  isl_set_set_tuple_id : isl_set → isl_id → isl_set;
  isl_set_is_wrapping : isl_set → bool;
  isl_set_unwrap : isl_set → isl_map;
  isl_set_flat_product : isl_set → isl_set → isl_set;
  isl_set_identity : isl_set → isl_map;
  isl_set_find_dim_by_id : isl_set → isl_dim_type → isl_id → Z;
  isl_set_add_dims : isl_set → isl_dim_type → Z → isl_set;
  isl_set_equate : isl_set → isl_dim_type → Z → isl_dim_type → Z → isl_set;
  isl_set_project_out : isl_set → isl_dim_type → Z → Z → isl_set;
  isl_set_preimage_multi_aff : isl_set → isl_multi_aff → isl_set;
  isl_set_preimage_pw_multi_aff : isl_set → isl_pw_multi_aff → isl_set;
  isl_set_plain_is_universe : isl_set → bool;
  isl_set_indicator_function : isl_set → isl_pw_aff;

  (* maps *)
  isl_map_get_space : isl_map → isl_space;
  isl_map_is_equal : isl_map → isl_map → bool;
  isl_map_is_subset : isl_map → isl_map → bool;
  isl_map_has_tuple_id : isl_map → isl_dim_type → bool;
  isl_map_get_tuple_id : isl_map → isl_dim_type → isl_id;
  isl_map_set_tuple_id : isl_map → isl_dim_type → isl_id → isl_map;
  isl_map_set_dim_id : isl_map → isl_dim_type → Z → isl_id → isl_map;
  isl_map_find_dim_by_id : isl_map → isl_dim_type → isl_id → Z;
  isl_map_range_is_wrapping : isl_map → bool;
  isl_map_wrap : isl_map → isl_set;
  isl_map_domain : isl_map → isl_set;
  isl_map_from_domain : isl_set → isl_map;
  isl_map_from_domain_and_range : isl_set → isl_set → isl_map;
  isl_map_from_aff : isl_aff → isl_map;
  isl_map_from_multi_pw_aff : isl_multi_pw_aff → isl_map;
  isl_map_apply_range : isl_map → isl_map → isl_map;
  isl_map_flat_product : isl_map → isl_map → isl_map;
  isl_map_flat_domain_product : isl_map → isl_map → isl_map;
  isl_map_add_dims : isl_map → isl_dim_type → Z → isl_map;
  isl_map_insert_dims : isl_map → isl_dim_type → Z → Z → isl_map;
  isl_map_equate : isl_map → isl_dim_type → Z → isl_dim_type → Z → isl_map;
  isl_map_project_out : isl_map → isl_dim_type → Z → Z → isl_map;
  isl_map_align_params : isl_map → isl_space → isl_map;
  isl_map_plain_get_val_if_fixed : isl_map → isl_dim_type → Z → isl_val;

  (* values *)
  isl_val_is_int : isl_val → bool;
  isl_val_get_num_si : isl_val → Z;

  (* affine expressions *)
  isl_aff_get_space : isl_aff → isl_space;
  isl_aff_align_params : isl_aff → isl_space → isl_aff;
  isl_aff_pullback_aff : isl_aff → isl_aff → isl_aff;
  isl_aff_var_on_domain : isl_local_space → isl_dim_type → Z → isl_aff;
  isl_pw_aff_from_aff : isl_aff → isl_pw_aff;
  isl_pw_aff_domain : isl_pw_aff → isl_set;
  isl_pw_aff_zero_set : isl_pw_aff → isl_set;
  isl_pw_aff_non_zero_set : isl_pw_aff → isl_set;
  isl_pw_aff_intersect_domain : isl_pw_aff → isl_set → isl_pw_aff;
  isl_multi_aff_zero : isl_space → isl_multi_aff;
  isl_multi_aff_identity : isl_space → isl_multi_aff;
  isl_multi_aff_from_aff : isl_aff → isl_multi_aff;
  isl_multi_aff_get_aff : isl_multi_aff → Z → isl_aff;
  isl_multi_aff_set_aff : isl_multi_aff → Z → isl_aff → isl_multi_aff;
  isl_multi_aff_flat_range_product : isl_multi_aff → isl_multi_aff → isl_multi_aff;

  (* tuples of piecewise affine expressions: index expressions and tests *)
  isl_multi_pw_aff_has_tuple_id : isl_multi_pw_aff → isl_dim_type → bool;
  isl_multi_pw_aff_get_tuple_id : isl_multi_pw_aff → isl_dim_type → isl_id;
  isl_multi_pw_aff_set_tuple_id : isl_multi_pw_aff → isl_dim_type → isl_id → isl_multi_pw_aff;
  isl_multi_pw_aff_set_dim_id : isl_multi_pw_aff → isl_dim_type → Z → isl_id → isl_multi_pw_aff;
  isl_multi_pw_aff_find_dim_by_id : isl_multi_pw_aff → isl_dim_type → isl_id → Z;
  isl_multi_pw_aff_range_is_wrapping : isl_multi_pw_aff → bool;
  isl_multi_pw_aff_dim : isl_multi_pw_aff → isl_dim_type → Z;
  isl_multi_pw_aff_get_domain_space : isl_multi_pw_aff → isl_space;
  isl_multi_pw_aff_get_pw_aff : isl_multi_pw_aff → Z → isl_pw_aff;
  isl_multi_pw_aff_from_pw_aff : isl_pw_aff → isl_multi_pw_aff;
  isl_multi_pw_aff_identity : isl_space → isl_multi_pw_aff;
  isl_multi_pw_aff_drop_dims : isl_multi_pw_aff → isl_dim_type → Z → Z → isl_multi_pw_aff;
  isl_multi_pw_aff_move_dims :
    isl_multi_pw_aff → isl_dim_type → Z → isl_dim_type → Z → Z → isl_multi_pw_aff;
  isl_multi_pw_aff_flat_range_product :
    isl_multi_pw_aff → isl_multi_pw_aff → isl_multi_pw_aff;
  isl_multi_pw_aff_pullback_multi_aff :
    isl_multi_pw_aff → isl_multi_aff → isl_multi_pw_aff;
}.

(** ** The expression tree and the source location (expr.c, loc.c) *)

Section DataModel.
Context `{IslOps}.

(** The operator kinds that [scop.c] tells apart. *)
Inductive pet_op_type :=
| pet_op_assign | pet_op_kill | pet_op_cond | pet_op_assume | pet_op_other (code : Z).

(** The [acc] member of an access expression. *)
Record pet_expr_acc := PetAcc {
  acc_access : isl_map;
  acc_index : isl_multi_pw_aff;
  acc_read : bool;
  acc_write : bool;
}.

(** Modelled from the spec: [struct pet_expr] is declared in expr.h, which
    is not part of the sources at hand.  The spec (section 2 and design
    notes) gives it as a closed sum of access nodes (read/write flags,
    access relation, index expression, argument list) and operator nodes
    (kind, operands); [scop.c] reads [expr->type], [expr->acc.access],
    [expr->acc.index], [expr->op], [expr->n_arg] and [expr->args].  The
    constructors carry the names of the values of [expr->type]. *)
#[warnings="-register-all"]
Inductive pet_expr :=
| pet_expr_access (acc : pet_expr_acc) (args : list pet_expr)
| pet_expr_op (op : pet_op_type) (args : list pet_expr).

Definition pet_expr_args (expr : pet_expr) : list pet_expr :=
  match expr with
  | pet_expr_access _ args => args
  | pet_expr_op _ args => args
  end.

(** Modelled from the spec: [pet_expr_from_index] (expr.c) builds "a new
    synthetic read argument (of the test)": a read access without
    arguments whose index expression is the given one and whose access
    relation is that of the index expression. *)
Definition pet_expr_from_index (index : isl_multi_pw_aff) : pet_expr :=
  pet_expr_access
    {| acc_access := isl_map_from_multi_pw_aff index;
       acc_index := index;
       acc_read := true;
       acc_write := false |} [].

(** Modelled from the spec: [pet_expr_access_get_id] (expr.c) names the
    accessed (virtual) variable, the output tuple identifier of the index
    expression; it is only called on access expressions. *)
Definition pet_expr_access_get_id (expr : pet_expr) : option isl_id :=
  match expr with
  | pet_expr_access acc _ =>
      Some (isl_multi_pw_aff_get_tuple_id (acc_index acc) isl_dim_out)
  | pet_expr_op _ _ => None
  end.

(** Modelled from the spec: [pet_expr_map_access] (expr.c) rewrites "every
    access expression in the body and arguments": the arguments first, then
    the node itself when it is an access. *)
Fixpoint pet_expr_map_access (fn : pet_expr → pet_expr) (expr : pet_expr) : pet_expr :=
  match expr with
  | pet_expr_access acc args =>
      fn (pet_expr_access acc (map (pet_expr_map_access fn) args))
  | pet_expr_op op args =>
      pet_expr_op op (map (pet_expr_map_access fn) args)
  end.

(** Modelled from the spec: a source location (loc.c) is a "byte-range
    source span with update/copy/dummy semantics"; [pet_loc_dummy] is the
    one object that stands for "no location yet" and is recognised by its
    address. *)
Inductive pet_loc :=
| pet_loc_dummy
| PetLoc (start end_ : N) (line : Z).

Definition pet_loc_alloc (start end_ : N) (line : Z) : pet_loc :=
  PetLoc start end_ line.

Definition pet_loc_get_start (loc : pet_loc) : N :=
  match loc with pet_loc_dummy => 0%N | PetLoc s _ _ => s end.

Definition pet_loc_get_end (loc : pet_loc) : N :=
  match loc with pet_loc_dummy => 0%N | PetLoc _ e _ => e end.

(** Modelled from the spec: "aggregate source spans by extending the
    min/max offsets". *)
Definition pet_loc_update_start_end (loc : pet_loc) (start end_ : N) : pet_loc :=
  match loc with
  | pet_loc_dummy => pet_loc_dummy
  | PetLoc s e l => PetLoc (N.min start s) (N.max end_ e) l
  end.

#[global] Instance pet_loc_eq_dec : EqDecision pet_loc.
Proof. solve_decision. Defined.

End DataModel.

(** ** The rest of pet that [scop.c] calls (nest.c, filter.c, value_bounds.c,
    expr.c)

    These helpers are taken as operations, like those of isl. *)
Class PetOps `{IslOps} := {
  (* nest.c: project the parameters that stand for nested accesses out of a set *)
  pet_nested_remove_from_set : isl_set → isl_set;
  (* filter.c: the function that inserts a filter fixed to "satisfied" in
     front of the arguments of a (possibly wrapped) statement domain space *)
  pet_filter_insert_pma : isl_space → isl_id → Z → isl_pw_multi_aff;
  (* value_bounds.c: add the value bounds of the arguments to a domain *)
  pet_value_bounds_apply : isl_set → Z → list pet_expr → isl_union_map → isl_set;
  (* expr.c: plug a domain transformation into an access expression *)
  pet_expr_access_update_domain : pet_expr → isl_multi_pw_aff → pet_expr;
  (* expr.c: gist of the access relations and index expressions of an
     expression with respect to a context and value bounds *)
  pet_expr_gist : pet_expr → isl_set → isl_union_map → pet_expr;
}.

(** ** The entity model (scop.h) *)

Section Entities.
Context `{PetOps}.

(** [struct pet_type]. *)
Record pet_type := PetType {
  type_name : string;
  type_definition : string;
}.

(** [struct pet_array]. *)
Record pet_array := PetArray {
  array_context : isl_set;
  extent : isl_set;
  value_bounds : option isl_set;
  element_type : string;
  element_is_record : bool;
  element_size : Z;
  live_out : bool;
  uniquely_defined : bool;
  declared : bool;
  exposed : bool;
}.

(** [struct pet_stmt]; [n_arg] is the length of [args]. *)
Record pet_stmt := PetStmt {
  stmt_loc : pet_loc;
  domain : isl_set;
  schedule : isl_map;
  body : pet_expr;
  args : list pet_expr;
}.

(** [struct pet_implication]. *)
Record pet_implication := PetImplication {
  extension : isl_map;
  satisfied : Z;
}.

(** [struct pet_scop_ext]: a [struct pet_scop] followed by the two skip
    conditions and the input file.  The counters [n_type], [n_array],
    [n_stmt] and [n_implication] are the lengths of the lists; a NULL skip
    condition or file is [None]. *)
Record pet_scop_ext := PetScop {
  loc : pet_loc;
  context : isl_set;
  context_value : isl_set;
  types : list pet_type;
  arrays : list pet_array;
  stmts : list pet_stmt;
  implications : list pet_implication;
  skip_now : option isl_multi_pw_aff;
  skip_later : option isl_multi_pw_aff;
  input : option positive;
}.

Definition n_type (scop : pet_scop_ext) : nat := length (types scop).
Definition n_array (scop : pet_scop_ext) : nat := length (arrays scop).
Definition n_stmt (scop : pet_scop_ext) : nat := length (stmts scop).
Definition n_implication (scop : pet_scop_ext) : nat := length (implications scop).
Definition n_arg (stmt : pet_stmt) : nat := length (args stmt).

(** [ext->skip[type]] and the assignment to it. *)
Definition skip (ext : pet_scop_ext) (type : pet_skip) : option isl_multi_pw_aff :=
  match type with
  | pet_skip_now => skip_now ext
  | pet_skip_later => skip_later ext
  end.

Definition set_skip (type : pet_skip) (v : option isl_multi_pw_aff)
    (ext : pet_scop_ext) : pet_scop_ext :=
  match type with
  | pet_skip_now =>
      PetScop (loc ext) (context ext) (context_value ext) (types ext) (arrays ext)
        (stmts ext) (implications ext) v (skip_later ext) (input ext)
  | pet_skip_later =>
      PetScop (loc ext) (context ext) (context_value ext) (types ext) (arrays ext)
        (stmts ext) (implications ext) (skip_now ext) v (input ext)
  end.

(** Assignments to the other members of a scop. *)
Definition set_loc (v : pet_loc) (scop : pet_scop_ext) : pet_scop_ext :=
  PetScop v (context scop) (context_value scop) (types scop) (arrays scop)
    (stmts scop) (implications scop) (skip_now scop) (skip_later scop) (input scop).

Definition set_context (v : isl_set) (scop : pet_scop_ext) : pet_scop_ext :=
  PetScop (loc scop) v (context_value scop) (types scop) (arrays scop)
    (stmts scop) (implications scop) (skip_now scop) (skip_later scop) (input scop).

Definition set_arrays (v : list pet_array) (scop : pet_scop_ext) : pet_scop_ext :=
  PetScop (loc scop) (context scop) (context_value scop) (types scop) v
    (stmts scop) (implications scop) (skip_now scop) (skip_later scop) (input scop).

Definition set_stmts (v : list pet_stmt) (scop : pet_scop_ext) : pet_scop_ext :=
  PetScop (loc scop) (context scop) (context_value scop) (types scop) (arrays scop)
    v (implications scop) (skip_now scop) (skip_later scop) (input scop).

Definition set_implications (v : list pet_implication) (scop : pet_scop_ext) : pet_scop_ext :=
  PetScop (loc scop) (context scop) (context_value scop) (types scop) (arrays scop)
    (stmts scop) v (skip_now scop) (skip_later scop) (input scop).

Definition set_domain (v : isl_set) (stmt : pet_stmt) : pet_stmt :=
  PetStmt (stmt_loc stmt) v (schedule stmt) (body stmt) (args stmt).

Definition set_extent (v : isl_set) (array : pet_array) : pet_array :=
  PetArray (array_context array) v (value_bounds array) (element_type array)
    (element_is_record array) (element_size array) (live_out array)
    (uniquely_defined array) (declared array) (exposed array).

(** ** Memory: the heap of scops, what was released, what was reported *)

(** An object that one of the [*_free] functions of [scop.c] releases. *)
Inductive pet_object :=
| ObjType (t : pet_type)
| ObjArray (a : pet_array)
| ObjStmt (s : pet_stmt)
| ObjImplication (i : pet_implication).

(** A diagnostic of [isl_die]: the error kind and the message. *)
Definition diagnostic : Type := isl_error * string.

(** The state [scop.c] runs in: the scops that are allocated, by address;
    the objects released so far (latest last) and the diagnostics reported
    through isl so far (latest last). *)
Record world := World {
  heap : gmap positive pet_scop_ext;
  released : list pet_object;
  diagnostics : list diagnostic;
}.

(** A computation on the state.  [None] is undefined behaviour of the C
    program: a read, a write or a release through a pointer to a scop that
    is not allocated. *)
Definition M (A : Type) : Type := world → option (A * world).

#[global] Instance M_ret : MRet M := λ A a w, Some (a, w).
#[global] Instance M_bind : MBind M := λ A B f m w,
  match m w with
  | Some (a, w') => f a w'
  | None => None
  end.

(** [*l] *)
Definition load (l : positive) : M pet_scop_ext := λ w,
  match heap w !! l with
  | Some s => Some (s, w)
  | None => None
  end.

(** [*l = f ( *l )] *)
Definition modify (l : positive) (f : pet_scop_ext → pet_scop_ext) : M unit := λ w,
  match heap w !! l with
  | Some s => Some (tt, World (<[l := f s]> (heap w)) (released w) (diagnostics w))
  | None => None
  end.

(** [isl_calloc_type]: a new object at an address not in use. *)
Definition alloc (s : pet_scop_ext) : M positive := λ w,
  let l := fresh (dom (heap w)) in
  Some (l, World (<[l := s]> (heap w)) (released w) (diagnostics w)).

(** [free(l)] *)
Definition dealloc (l : positive) : M unit := λ w,
  match heap w !! l with
  | Some _ => Some (tt, World (delete l (heap w)) (released w) (diagnostics w))
  | None => None
  end.

(** Record that the objects [objs] were released. *)
Definition release (objs : list pet_object) : M unit := λ w,
  Some (tt, World (heap w) (released w ++ objs) (diagnostics w)).

(** [isl_die(ctx, error, msg, ...)]: report through isl's error handling;
    the caller then runs the recovery code given to the macro. *)
Definition isl_die (error : isl_error) (msg : string) : M unit := λ w,
  Some (tt, World (heap w) (released w) (diagnostics w ++ [(error, msg)])).

(** The result of a function that owns its scop, updates it in place and
    returns it, or gives up through [isl_die] (the scop is then released
    and NULL returned, see [in_place]). *)
Inductive isl_result (A : Type) :=
| Ok (a : A)
| Die (error : isl_error) (msg : string).
Global Arguments Ok {A} a.
Global Arguments Die {A} error msg.

Definition isl_result_bind {A B} (r : isl_result A) (f : A → isl_result B) : isl_result B :=
  match r with
  | Ok a => f a
  | Die e m => Die e m
  end.

(** The objects that [pet_scop_free] releases with a scop, in the order of
    its loops. *)
Definition scop_objects (scop : pet_scop_ext) : list pet_object :=
  (ObjType <$> types scop) ++ (ObjArray <$> arrays scop) ++ (ObjStmt <$> stmts scop)
  ++ (ObjImplication <$> implications scop).

(** [pet_scop_free]: release the types, arrays, statements and implications
    that the scop still holds ([pet_type_free], [pet_array_free],
    [pet_stmt_free], [pet_implication_free]), then the scop itself.  An
    entry that was moved out of the scop (set to NULL) is no longer in its
    lists.  Always returns NULL. *)
Definition pet_scop_free (scop : option positive) : M (option positive) :=
  match scop with
  | None => mret None
  | Some l =>
      s ← load l;
      release (scop_objects s);;
      dealloc l;;
      mret None
  end.

(** Run a function that updates the scop it owns on the scop at [scop].
    A NULL argument gives NULL; when the function gives up, its diagnostic
    is reported, the scop is released and NULL is returned. *)
Definition in_place (f : pet_scop_ext → isl_result pet_scop_ext)
    (scop : option positive) : M (option positive) :=
  match scop with
  | None => mret None
  | Some l =>
      s ← load l;
      match f s with
      | Ok s' => modify l (λ _, s');; mret (Some l)
      | Die e m => isl_die e m;; pet_scop_free (Some l)
      end
  end.

End Entities.

(** ** Skips, restriction and filtering *)

Section Transformations.
Context `{PetOps}.

#[global] Instance isl_result_ret : MRet isl_result := λ A a, Ok a.
#[global] Instance isl_result_mbind : MBind isl_result := λ A B f r, isl_result_bind r f.

(** Does [mpa] represent an access to an element of an unnamed space, i.e.,
    does it represent an affine expression? *)
Definition multi_pw_aff_is_affine (mpa : isl_multi_pw_aff) : bool :=
  let has_id := isl_multi_pw_aff_has_tuple_id mpa isl_dim_out in
  negb has_id.

(** The piecewise affine expression "set ? 1 : 0" defined on [dom]. *)
Definition indicator_function (set dom : isl_set) : isl_pw_aff :=
  let pa := isl_set_indicator_function set in
  isl_pw_aff_intersect_domain pa dom.

(** "lhs || rhs", defined on the shared definition domain. *)
Definition pw_aff_or (lhs rhs : isl_pw_aff) : isl_pw_aff :=
  let dom := isl_set_intersect (isl_pw_aff_domain lhs) (isl_pw_aff_domain rhs) in
  let cond := isl_set_union (isl_pw_aff_non_zero_set lhs) (isl_pw_aff_non_zero_set rhs) in
  let cond := isl_set_coalesce cond in
  indicator_function cond dom.

(** [pet_scop_update_start_end]: include the region from [start] to [end_]
    in the location of the scop. *)
Definition pet_scop_update_start_end (scop : pet_scop_ext) (start end_ : N) : pet_scop_ext :=
  if decide (loc scop = pet_loc_dummy)
  then set_loc (pet_loc_alloc start end_ (-1)) scop
  else set_loc (pet_loc_update_start_end (loc scop) start end_) scop.

Definition pet_scop_update_start_end_from_loc (scop : pet_scop_ext) (loc : pet_loc)
    : pet_scop_ext :=
  pet_scop_update_start_end scop (pet_loc_get_start loc) (pet_loc_get_end loc).

(** Does [implication] appear in the list of implications of [scop]? *)
Definition is_known_implication (scop : pet_scop_ext) (implication : pet_implication) : bool :=
  existsb (λ pi,
    if decide (satisfied pi = satisfied implication)
    then isl_map_is_equal (extension pi) (extension implication)
    else false) (implications scop).

(** [pet_scop_restrict_context]: intersect the context of the scop with
    [context], without its nested parameters. *)
Definition pet_scop_restrict_context (scop : pet_scop_ext) (context' : isl_set)
    : pet_scop_ext :=
  let context' := pet_nested_remove_from_set context' in
  set_context (isl_set_intersect (context scop) context') scop.

(** Add extra conditions on the parameters to the iteration domain of [stmt]. *)
Definition stmt_restrict (stmt : pet_stmt) (cond : isl_set) : pet_stmt :=
  set_domain (isl_set_intersect_params (domain stmt) cond) stmt.

(** [pet_scop_restrict_skip]: the new skip condition holds if it held before
    and the condition is true.  Only affine skips can be restricted. *)
Definition pet_scop_restrict_skip (scop : pet_scop_ext) (type : pet_skip) (cond : isl_set)
    : isl_result pet_scop_ext :=
  match skip scop type with
  | None => Ok scop
  | Some k =>
      if negb (multi_pw_aff_is_affine k)
      then Die isl_error_internal "can only restrict affine skips"
      else
        let skip := isl_multi_pw_aff_get_pw_aff k 0 in
        let dom := isl_pw_aff_domain skip in
        let cond := isl_set_from_params cond in
        let cond := isl_set_intersect cond (isl_pw_aff_non_zero_set skip) in
        let skip := indicator_function cond dom in
        Ok (set_skip type (Some (isl_multi_pw_aff_from_pw_aff skip)) scop)
  end.

(** [pet_scop_restrict]: add extra conditions on the parameters to all
    iteration domains and skip conditions.  A parameter value is valid for
    the result if it was valid for the scop and satisfies [cond], or if it
    does not satisfy [cond]. *)
Definition pet_scop_restrict (scop : pet_scop_ext) (cond : isl_set)
    : isl_result pet_scop_ext :=
  scop ← pet_scop_restrict_skip scop pet_skip_now cond;
  scop ← pet_scop_restrict_skip scop pet_skip_later cond;
  let context' := isl_set_intersect (context scop) cond in
  let context' := isl_set_union context' (isl_set_complement cond) in
  let context' := isl_set_coalesce context' in
  let context' := pet_nested_remove_from_set context' in
  let scop := set_context context' scop in
  Ok (set_stmts ((λ stmt, stmt_restrict stmt cond) <$> stmts scop) scop).

(** Insert an argument expression corresponding to [test] in front of the
    list of arguments. *)
Definition args_insert_access (args : list pet_expr) (test : isl_multi_pw_aff)
    : list pet_expr :=
  pet_expr_from_index test :: args.

(** [apply_implications]: apply the first implication of the scop for the
    virtual array [id] and the value [satisfied] to [map], if there is one. *)
Fixpoint apply_implications_from (pis : list pet_implication) (map : isl_map)
    (id : isl_id) (satisfied' : Z) : isl_map :=
  match pis with
  | [] => map
  | pi :: pis =>
      if decide (satisfied pi ≠ satisfied') then apply_implications_from pis map id satisfied'
      else
        let pi_id := isl_map_get_tuple_id (extension pi) isl_dim_in in
        if decide (pi_id ≠ id) then apply_implications_from pis map id satisfied'
        else isl_map_apply_range map (extension pi)
  end.

Definition apply_implications (scop : pet_scop_ext) (map : isl_map) (id : isl_id)
    (satisfied' : Z) : isl_map :=
  apply_implications_from (implications scop) map id satisfied'.

(** [implies_filter]: is the filter expressed by [test] and [satisfied']
    implied by filter [pos] on [domain'], with filter [expr], taking into
    account the implications of the scop? *)
Definition implies_filter (scop : pet_scop_ext) (domain' : isl_map) (pos : Z)
    (expr : pet_expr) (test : isl_map) (satisfied' : Z) : bool :=
  match expr with
  | pet_expr_op _ _ => false
  | pet_expr_access acc _ =>
      let test_id := isl_map_get_tuple_id test isl_dim_out in
      let arg_id := pet_expr_access_get_id expr in
      if decide (Some test_id ≠ arg_id) then false
      else
        let val := isl_map_plain_get_val_if_fixed domain' isl_dim_out pos in
        let is_int := isl_val_is_int val in
        if negb is_int then false
        else if decide (isl_val_get_num_si val ≠ satisfied') then false
        else
          let implied := acc_access acc in
          let implied := apply_implications scop implied test_id satisfied' in
          isl_map_is_subset test implied
  end.

(** The loop of [filter_implied] over the arguments, from position [i]. *)
Fixpoint filter_implied_from (scop : pet_scop_ext) (domain' : isl_map) (i : Z)
    (args : list pet_expr) (test_map : isl_map) (satisfied' : Z) : bool :=
  match args with
  | [] => false
  | arg :: args =>
      if implies_filter scop domain' i arg test_map satisfied' then true
      else filter_implied_from scop domain' (i + 1) args test_map satisfied'
  end.

(** [filter_implied]: is the filter expressed by [test] and [satisfied']
    implied by any of the filters on the domain of [stmt]? *)
Definition filter_implied (scop : pet_scop_ext) (stmt : pet_stmt)
    (test : isl_multi_pw_aff) (satisfied' : Z) : bool :=
  if decide (n_implication scop = 0%nat) then false
  else if decide (n_arg stmt = 0%nat) then false
  else
    let domain' := isl_set_unwrap (domain stmt) in
    let test_map := isl_map_from_multi_pw_aff test in
    filter_implied_from scop domain' 0 (args stmt) test_map satisfied'.

(** [pet_stmt_get_space]: the iteration space of [stmt], the domain of the
    wrapped map when the statement has arguments. *)
Definition pet_stmt_get_space (stmt : pet_stmt) : isl_space :=
  let space := isl_set_get_space (domain stmt) in
  if isl_space_is_wrapping space
  then isl_space_domain (isl_space_unwrap space)
  else space.

(** [stmt_filter]: make [stmt] depend on the value of [test] being equal to
    [satisfied'].  [test] is first extended to the entire iteration domain;
    if the filter is implied by a current filter, [stmt] is left untouched.
    Otherwise an argument that reads [test] is inserted in front of the
    arguments and an output dimension fixed to [satisfied'] in the wrapped
    map of the domain. *)
Definition stmt_filter (scop : pet_scop_ext) (stmt : pet_stmt)
    (test : isl_multi_pw_aff) (satisfied' : Z) : pet_stmt :=
  let space := pet_stmt_get_space stmt in
  let n_test_dom := isl_multi_pw_aff_dim test isl_dim_in in
  let space := isl_space_from_domain space in
  let space := isl_space_add_dims space isl_dim_out n_test_dom in
  let add_dom := isl_multi_aff_zero space in
  let ls := isl_local_space_from_space (isl_space_domain space) in
  let add_dom :=
    foldl (λ add_dom i,
             let aff := isl_aff_var_on_domain ls isl_dim_set (Z.of_nat i) in
             isl_multi_aff_set_aff add_dom (Z.of_nat i) aff)
          add_dom (seq 0 (Z.to_nat n_test_dom)) in
  let test := isl_multi_pw_aff_pullback_multi_aff test add_dom in
  if filter_implied scop stmt test satisfied' then stmt
  else
    let id := isl_multi_pw_aff_get_tuple_id test isl_dim_out in
    let pma := pet_filter_insert_pma (isl_set_get_space (domain stmt)) id satisfied' in
    PetStmt (stmt_loc stmt)
      (isl_set_preimage_pw_multi_aff (domain stmt) pma)
      (schedule stmt) (body stmt)
      (args_insert_access (args stmt) test).

(** Does the scop have a skip condition of the given type? *)
Definition pet_scop_has_skip (scop : pet_scop_ext) (type : pet_skip) : bool :=
  bool_decide (skip scop type ≠ None).

(** ... one that is an affine expression? *)
Definition pet_scop_has_affine_skip (scop : pet_scop_ext) (type : pet_skip) : bool :=
  match skip scop type with
  | None => false
  | Some k => multi_pw_aff_is_affine k
  end.

(** ... one that is affine and holds on the entire domain? *)
Definition pet_scop_has_universal_skip (scop : pet_scop_ext) (type : pet_skip) : bool :=
  match skip scop type with
  | None => false
  | Some k =>
      if negb (multi_pw_aff_is_affine k) then false
      else
        let pa := isl_multi_pw_aff_get_pw_aff k 0 in
        let set := isl_pw_aff_non_zero_set pa in
        isl_set_plain_is_universe set
  end.

(** Replace [scop->skip[type]] by [skip']. *)
Definition pet_scop_set_skip (scop : pet_scop_ext) (type : pet_skip)
    (skip' : isl_multi_pw_aff) : pet_scop_ext :=
  set_skip type (Some skip') scop.

(** A copy of [scop->skip[type]]. *)
Definition pet_scop_get_skip (scop : pet_scop_ext) (type : pet_skip)
    : option isl_multi_pw_aff :=
  skip scop type.

(** Drop the skip condition [scop->skip[type]]. *)
Definition pet_scop_reset_skip (scop : pet_scop_ext) (type : pet_skip) : pet_scop_ext :=
  set_skip type None scop.

(** [pet_scop_filter_skip]: make the skip condition (if any) depend on the
    value of [test] being equal to [satisfied'].  Only supported when the
    skip condition is universal and [satisfied'] is non-zero. *)
Definition pet_scop_filter_skip (scop : pet_scop_ext) (type : pet_skip)
    (test : isl_multi_pw_aff) (satisfied' : Z) : isl_result pet_scop_ext :=
  if negb (pet_scop_has_skip scop type) then Ok scop
  else
    let is_univ :=
      if decide (satisfied' ≠ 0) then pet_scop_has_universal_skip scop type else false in
    if bool_decide (satisfied' ≠ 0) && is_univ
    then Ok (pet_scop_set_skip scop type test)
    else Die isl_error_internal "skip expression cannot be filtered".

(** [pet_scop_filter]: make all statements of the scop depend on the value
    of [test] being equal to [satisfied'] by adjusting their domains. *)
Definition pet_scop_filter (scop : pet_scop_ext) (test : isl_multi_pw_aff)
    (satisfied' : Z) : isl_result pet_scop_ext :=
  scop ← pet_scop_filter_skip scop pet_skip_now test satisfied';
  scop ← pet_scop_filter_skip scop pet_skip_later test satisfied';
  Ok (set_stmts ((λ stmt, stmt_filter scop stmt test satisfied') <$> stmts scop) scop).

(** [restrict_skip]: make sure the scop is not executed when the condition
    [skip'] holds.  If [skip'] is an affine expression, the conditions under
    which it is zero are added to the iteration domains; otherwise a filter
    on the variable attaining the value zero is added. *)
Definition restrict_skip (scop : pet_scop_ext) (skip' : isl_multi_pw_aff)
    : isl_result pet_scop_ext :=
  let is_aff := multi_pw_aff_is_affine skip' in
  if negb is_aff then pet_scop_filter scop skip' 0
  else
    let pa := isl_multi_pw_aff_get_pw_aff skip' 0 in
    let zero := isl_set_params (isl_pw_aff_zero_set pa) in
    pet_scop_restrict scop zero.

End Transformations.

(** ** Loop embedding *)

Section Embedding.
Context `{PetOps}.

(** Does the set [extent'] reference a virtual array, i.e., one with user
    pointer equal to NULL?  A virtual array does not have any members. *)
Definition extent_is_virtual_array (extent' : isl_set) : bool :=
  if negb (isl_set_has_tuple_id extent') then false
  else if isl_set_is_wrapping extent' then false
  else
    let id := isl_set_get_tuple_id extent' in
    bool_decide (isl_id_get_user id = None).

(** [internalize_iv]: given a set with a parameter at [param_pos] that
    refers to the iterator, equate the parameter to the image of the first
    set dimension under [iv_map] and project it out. *)
Definition internalize_iv (set : isl_set) (param_pos : Z) (iv_map : isl_aff) : isl_set :=
  let map := isl_map_from_domain set in
  let map := isl_map_add_dims map isl_dim_out 1 in
  let map := isl_map_equate map isl_dim_in 0 isl_dim_out 0 in
  let map2 := isl_map_from_aff iv_map in
  let map2 := isl_map_align_params map2 (isl_map_get_space map) in
  let map := isl_map_apply_range map map2 in
  let map := isl_map_equate map isl_dim_param param_pos isl_dim_out 0 in
  let map := isl_map_project_out map isl_dim_param param_pos 1 in
  isl_map_domain map.

(** [struct pet_embed_access]: the data used in [embed_access]. *)
Record pet_embed_access := PetEmbedAccess {
  extend : isl_multi_pw_aff;
  iv_map : isl_aff;
  var_id : isl_id;
}.

(** Given an index expression, an expression for the outer iterator. *)
Definition index_outer_iterator (index : isl_multi_pw_aff) : isl_aff :=
  let space := isl_multi_pw_aff_get_domain_space index in
  let ls := isl_local_space_from_space space in
  isl_aff_var_on_domain ls isl_dim_set 0.

(** Replace an index expression that references the new (outer) iterator
    variable by one that references the corresponding (real) iterator. *)
Definition replace_by_iterator (index : isl_multi_pw_aff) (iv_map' : isl_aff)
    : isl_multi_pw_aff :=
  let aff := index_outer_iterator index in
  let space := isl_aff_get_space aff in
  let iv_map' := isl_aff_align_params iv_map' space in
  let aff := isl_aff_pullback_aff iv_map' aff in
  isl_multi_pw_aff_from_pw_aff (isl_pw_aff_from_aff aff).

(** Plug [iv_map'] into an index expression that refers to the (real)
    iterator through the parameter at position [pos]. *)
Definition index_internalize_iv (index : isl_multi_pw_aff) (pos : Z) (iv_map' : isl_aff)
    : isl_multi_pw_aff :=
  let space := isl_multi_pw_aff_get_domain_space index in
  let space := isl_space_drop_dims space isl_dim_param pos 1 in
  let index := isl_multi_pw_aff_move_dims index isl_dim_in 0 isl_dim_param pos 1 in
  let space := isl_space_map_from_set space in
  let ma := isl_multi_aff_identity space in
  let iv_map' := isl_aff_align_params iv_map' space in
  let iv_map' := isl_aff_pullback_aff iv_map' (isl_multi_aff_get_aff ma 0) in
  let ma := isl_multi_aff_flat_range_product (isl_multi_aff_from_aff iv_map') ma in
  isl_multi_pw_aff_pullback_multi_aff index ma.

(** Does the index expression reference a virtual array? *)
Definition index_is_virtual_array (index : isl_multi_pw_aff) : bool :=
  if negb (isl_multi_pw_aff_has_tuple_id index isl_dim_out) then false
  else if isl_multi_pw_aff_range_is_wrapping index then false
  else
    let id := isl_multi_pw_aff_get_tuple_id index isl_dim_out in
    bool_decide (isl_id_get_user id = None).

(** Does the access relation reference a virtual array? *)
Definition access_is_virtual_array (access : isl_map) : bool :=
  if negb (isl_map_has_tuple_id access isl_dim_out) then false
  else if isl_map_range_is_wrapping access then false
  else
    let id := isl_map_get_tuple_id access isl_dim_out in
    bool_decide (isl_id_get_user id = None).

(** [embed_index_expression]: embed the index expression in an extra outer
    loop.  An access to the induction variable becomes the iterator itself;
    an access to a virtual array is extended along with the domain. *)
Definition embed_index_expression (index : isl_multi_pw_aff) (data : pet_embed_access)
    : isl_multi_pw_aff :=
  let array_id :=
    if isl_multi_pw_aff_has_tuple_id index isl_dim_out
    then Some (isl_multi_pw_aff_get_tuple_id index isl_dim_out)
    else None in
  let index :=
    if decide (array_id = Some (var_id data)) then
      replace_by_iterator index (iv_map data)
    else if index_is_virtual_array index then
      let aff := index_outer_iterator index in
      let mpa := isl_multi_pw_aff_from_pw_aff (isl_pw_aff_from_aff aff) in
      let index' := isl_multi_pw_aff_flat_range_product mpa index in
      isl_multi_pw_aff_set_tuple_id index' isl_dim_out
        (isl_multi_pw_aff_get_tuple_id index isl_dim_out)
    else index in
  let pos := isl_multi_pw_aff_find_dim_by_id index isl_dim_param (var_id data) in
  let index := if decide (0 ≤ pos) then index_internalize_iv index pos (iv_map data)
               else index in
  isl_multi_pw_aff_set_dim_id index isl_dim_in 0 (var_id data).

(** [embed_access_relation]: embed the access relation in an extra outer
    loop. *)
Definition embed_access_relation (access : isl_map) (data : pet_embed_access) : isl_map :=
  let array_id :=
    if isl_map_has_tuple_id access isl_dim_out
    then Some (isl_map_get_tuple_id access isl_dim_out)
    else None in
  let access :=
    if bool_decide (array_id = Some (var_id data)) || access_is_virtual_array access then
      let access' := isl_map_insert_dims access isl_dim_out 0 1 in
      let access' := isl_map_equate access' isl_dim_in 0 isl_dim_out 0 in
      if decide (array_id = Some (var_id data)) then
        isl_map_apply_range access' (isl_map_from_aff (iv_map data))
      else
        isl_map_set_tuple_id access' isl_dim_out (isl_map_get_tuple_id access isl_dim_out)
    else access in
  let pos := isl_map_find_dim_by_id access isl_dim_param (var_id data) in
  let access :=
    if decide (0 ≤ pos) then
      let set := isl_map_wrap access in
      let set := internalize_iv set pos (iv_map data) in
      isl_set_unwrap set
    else access in
  isl_map_set_dim_id access isl_dim_in 0 (var_id data).

(** [embed_access]: given an access expression, embed the associated access
    relation and index expression in an extra outer loop. *)
Definition embed_access (data : pet_embed_access) (expr : pet_expr) : pet_expr :=
  match pet_expr_access_update_domain expr (extend data) with
  | pet_expr_access acc args =>
      pet_expr_access
        {| acc_access := embed_access_relation (acc_access acc) data;
           acc_index := embed_index_expression (acc_index acc) data;
           acc_read := acc_read acc;
           acc_write := acc_write acc |} args
  | expr => expr
  end.

(** Embed all access subexpressions of [expr] in an extra loop. *)
Definition expr_embed (expr : pet_expr) (extend' : isl_multi_pw_aff) (iv_map' : isl_aff)
    (var_id' : isl_id) : pet_expr :=
  let data := {| extend := extend'; iv_map := iv_map'; var_id := var_id' |} in
  pet_expr_map_access (embed_access data) expr.

(** [pet_stmt_embed]: embed the statement in an extra outer loop with
    iteration domain [dom] and schedule [sched]. *)
Definition pet_stmt_embed (stmt : pet_stmt) (dom : isl_set) (sched : isl_map)
    (iv_map' : isl_aff) (var_id' : isl_id) : pet_stmt :=
  let '(stmt_id, domain', dim) :=
    if isl_set_is_wrapping (domain stmt) then
      let map := isl_set_unwrap (domain stmt) in
      let stmt_id := isl_map_get_tuple_id map isl_dim_in in
      let ran_dim := isl_space_range (isl_map_get_space map) in
      let ext := isl_map_from_domain_and_range dom (isl_set_universe ran_dim) in
      let map := isl_map_flat_domain_product ext map in
      let map := isl_map_set_tuple_id map isl_dim_in stmt_id in
      let dim := isl_space_domain (isl_map_get_space map) in
      (stmt_id, isl_map_wrap map, dim)
    else
      let stmt_id := isl_set_get_tuple_id (domain stmt) in
      let domain' := isl_set_flat_product dom (domain stmt) in
      let domain' := isl_set_set_tuple_id domain' stmt_id in
      (stmt_id, domain', isl_set_get_space domain') in
  let pos := isl_set_find_dim_by_id domain' isl_dim_param var_id' in
  let domain' := if decide (0 ≤ pos) then internalize_iv domain' pos iv_map' else domain' in
  let schedule' := isl_map_flat_product sched (schedule stmt) in
  let schedule' := isl_map_set_tuple_id schedule' isl_dim_in stmt_id in
  let pos := isl_map_find_dim_by_id schedule' isl_dim_param var_id' in
  let schedule' :=
    if decide (0 ≤ pos) then
      let set := isl_map_wrap schedule' in
      let set := internalize_iv set pos iv_map' in
      isl_set_unwrap set
    else schedule' in
  let dim := isl_space_map_from_set dim in
  let extend' := isl_multi_pw_aff_identity dim in
  let extend' := isl_multi_pw_aff_drop_dims extend' isl_dim_out 0 1 in
  let extend' := isl_multi_pw_aff_set_tuple_id extend' isl_dim_out
                   (isl_multi_pw_aff_get_tuple_id extend' isl_dim_in) in
  PetStmt (stmt_loc stmt) domain' schedule'
    (expr_embed (body stmt) extend' iv_map' var_id')
    ((λ arg, expr_embed arg extend' iv_map' var_id') <$> args stmt).

(** [pet_array_embed]: embed the array in an extra outer loop with
    iteration domain [dom].  This only has an effect on virtual arrays,
    which need to be extended along with the iteration domain. *)
Definition pet_array_embed (array : pet_array) (dom : isl_set) : pet_array :=
  if negb (extent_is_virtual_array (extent array)) then array
  else
    let array_id := isl_set_get_tuple_id (extent array) in
    let extent' := isl_set_flat_product dom (extent array) in
    let extent' := isl_set_set_tuple_id extent' array_id in
    set_extent extent' array.

(** [context_embed]: update the context with respect to an embedding into a
    loop with iteration domain [dom] and induction variable [id]. *)
Definition context_embed (context' : isl_set) (dom : isl_set) (iv_map' : isl_aff)
    (id : isl_id) : isl_set :=
  let pos := isl_set_find_dim_by_id context' isl_dim_param id in
  if decide (pos < 0) then context'
  else
    let context' := isl_set_from_params context' in
    let context' := isl_set_add_dims context' isl_dim_set 1 in
    let context' := isl_set_equate context' isl_dim_param pos isl_dim_set 0 in
    let context' := isl_set_project_out context' isl_dim_param pos 1 in
    let ma := isl_multi_aff_from_aff iv_map' in
    let context' := isl_set_preimage_multi_aff context' ma in
    let context' := isl_set_subtract dom context' in
    let context' := isl_set_params context' in
    let context' := isl_set_complement context' in
    pet_nested_remove_from_set context'.

(** [pet_implication_embed]: extend domain and range of the implication with
    the extra loop, mapped to itself. *)
Definition pet_implication_embed (implication : pet_implication) (dom : isl_set)
    : pet_implication :=
  let map := isl_set_identity dom in
  let id := isl_map_get_tuple_id (extension implication) isl_dim_in in
  let map := isl_map_flat_product map (extension implication) in
  let map := isl_map_set_tuple_id map isl_dim_in id in
  let map := isl_map_set_tuple_id map isl_dim_out id in
  PetImplication map (satisfied implication).

(** [pet_scop_embed]: embed all statements and arrays of the scop in an
    extra outer loop with iteration domain [dom] and schedule [sched].  Any
    skip conditions within the loop have no effect outside of the loop. *)
Definition pet_scop_embed (scop : pet_scop_ext) (dom : isl_set) (sched : isl_aff)
    (iv_map' : isl_aff) (id : isl_id) : pet_scop_ext :=
  let sched_map := isl_map_from_aff sched in
  let scop := pet_scop_reset_skip scop pet_skip_now in
  let scop := pet_scop_reset_skip scop pet_skip_later in
  let scop := set_context (context_embed (context scop) dom iv_map' id) scop in
  let scop :=
    set_stmts ((λ stmt, pet_stmt_embed stmt dom sched_map iv_map' id) <$> stmts scop) scop in
  let scop := set_arrays ((λ array, pet_array_embed array dom) <$> arrays scop) scop in
  set_implications
    ((λ implication, pet_implication_embed implication dom) <$> implications scop) scop.

End Embedding.

(** ** Gist *)

Section Gist.
Context `{PetOps}.

(** [stmt_gist]: the gist of the iteration domain and all access relations
    of [stmt] based on the constraints on the parameters specified by
    [context'] and the constraints on the values of nested accesses
    specified by [value_bounds']. *)
Definition stmt_gist_context (stmt : pet_stmt) (args' : list pet_expr)
    (context' : isl_set) (value_bounds' : isl_union_map) : isl_set :=
  let domain' := isl_set_universe (pet_stmt_get_space stmt) in
  let domain' := isl_set_intersect_params domain' context' in
  if decide (0 < n_arg stmt)%nat
  then pet_value_bounds_apply domain' (Z.of_nat (n_arg stmt)) args' value_bounds'
  else domain'.

Definition stmt_gist (stmt : pet_stmt) (context' : isl_set)
    (value_bounds' : isl_union_map) : pet_stmt :=
  let domain' := domain stmt in
  let domain' := if decide (0 < n_arg stmt)%nat
                 then isl_map_domain (isl_set_unwrap domain') else domain' in
  let domain' := isl_set_intersect_params domain' context' in
  let args' := (λ arg, pet_expr_gist arg domain' value_bounds') <$> args stmt in
  let body' := pet_expr_gist (body stmt) domain' value_bounds' in
  let domain' := stmt_gist_context stmt args' context' value_bounds' in
  PetStmt (stmt_loc stmt) (isl_set_gist (domain stmt) domain') (schedule stmt) body' args'.

(** [array_gist]: the gist of the extent of the array based on the
    constraints on the parameters specified by [context']. *)
Definition array_gist (array : pet_array) (context' : isl_set) : pet_array :=
  set_extent (isl_set_gist_params (extent array) context') array.

(** [pet_scop_gist]: the gist of all sets and relations in the scop based
    on the constraints on the parameters specified by its context and the
    constraints on the values of nested accesses specified by
    [value_bounds']. *)
Definition pet_scop_gist (scop : pet_scop_ext) (value_bounds' : isl_union_map)
    : pet_scop_ext :=
  let scop := set_context (isl_set_coalesce (context scop)) scop in
  let scop := set_arrays ((λ array, array_gist array (context scop)) <$> arrays scop) scop in
  set_stmts ((λ stmt, stmt_gist stmt (context scop) value_bounds') <$> stmts scop) scop.

End Gist.

(** ** Composition *)

Section Composition.
Context `{PetOps}.

(** [scop_alloc]: a scop with room for [n] statements: the universe
    context, no types, arrays or implications, no skip conditions, and
    [pet_loc_dummy] as location.  The [n] statement slots are NULL until
    the caller fills them; they are the empty list here and the caller's
    copy loops store the list. *)
Definition scop_alloc (n : nat) : M positive :=
  let space := isl_space_params_alloc 0 in
  alloc {| loc := pet_loc_dummy;
           context := isl_set_universe space;
           context_value := isl_set_universe space;
           types := []; arrays := []; stmts := []; implications := [];
           skip_now := None; skip_later := None; input := None |}.

(** [pet_scop_empty] *)
Definition pet_scop_empty : M positive := scop_alloc 0.

(** [combine_skips]: combine [ext1->skip[type]] and [ext2->skip[type]] into
    [ext->skip[type]]; [ext] may be equal to either [ext1] or [ext2].  The
    two skips that need to be combined are assumed to be affine
    expressions. *)
Definition combine_skips (ext : option positive) (ext1 ext2 : positive) (type : pet_skip)
    : M (option positive) :=
  match ext with
  | None => mret None
  | Some e =>
      s1 ← load ext1;
      s2 ← load ext2;
      match skip s1 type, skip s2 type with
      | None, None => mret (Some e)
      | None, Some k2 =>
          if decide (e = ext2) then mret (Some e)
          else
            modify e (set_skip type (Some k2));;
            modify ext2 (set_skip type None);;
            mret (Some e)
      | Some k1, None =>
          if decide (e = ext1) then mret (Some e)
          else
            modify e (set_skip type (Some k1));;
            modify ext1 (set_skip type None);;
            mret (Some e)
      | Some k1, Some k2 =>
          if negb (multi_pw_aff_is_affine k1) || negb (multi_pw_aff_is_affine k2) then
            isl_die isl_error_internal "can only combine affine skips";;
            pet_scop_free (Some e)
          else
            let skip1 := isl_multi_pw_aff_get_pw_aff k1 0 in
            let skip2 := isl_multi_pw_aff_get_pw_aff k2 0 in
            let skip' := pw_aff_or skip1 skip2 in
            modify ext1 (set_skip type None);;
            modify ext2 (set_skip type None);;
            modify e (set_skip type (Some (isl_multi_pw_aff_from_pw_aff skip')));;
            mret (Some e)
      end
  end.

(** [scop_combine_skips]: combine the skips of both types. *)
Definition scop_combine_skips (scop : option positive) (scop1 scop2 : positive)
    : M (option positive) :=
  ext ← combine_skips scop scop1 scop2 pet_skip_now;
  combine_skips ext scop1 scop2 pet_skip_later.

(** [scop_collect_implications]: store the concatenation of the
    implications of [scop1] and [scop2] in [scop], removing the implications
    of [scop2] that already appear in [scop1].  A moved implication leaves
    its scop. *)
Definition scop_collect_implications (scop : option positive) (scop1 scop2 : positive)
    : M (option positive) :=
  match scop with
  | None => mret None
  | Some l =>
      s1 ← load scop1;
      s2 ← load scop2;
      if decide (n_implication s2 = 0%nat) then
        modify l (set_implications (implications s1));;
        modify scop1 (set_implications []);;
        mret (Some l)
      else if decide (n_implication s1 = 0%nat) then
        modify l (set_implications (implications s2));;
        modify scop2 (set_implications []);;
        mret (Some l)
      else
        modify l (set_implications (implications s1));;
        modify scop1 (set_implications []);;
        s ← load l;
        let known pi := is_known_implication s pi in
        modify l (set_implications
                    (implications s ++ filter (λ pi, known pi = false) (implications s2)));;
        modify scop2 (set_implications (filter (λ pi, known pi = true) (implications s2)));;
        mret (Some l)
  end.

(** [scop_combine_start_end]: combine the offset information of [scop1] and
    [scop2] into [scop]. *)
Definition scop_combine_start_end (scop : option positive) (scop1 scop2 : positive)
    : M (option positive) :=
  s1 ← load scop1;
  scop ← (if decide (loc s1 ≠ pet_loc_dummy)
          then in_place (λ s, Ok (pet_scop_update_start_end_from_loc s (loc s1))) scop
          else mret scop);
  s2 ← load scop2;
  if decide (loc s2 ≠ pet_loc_dummy)
  then in_place (λ s, Ok (pet_scop_update_start_end_from_loc s (loc s2))) scop
  else mret scop.

(** [pet_scop_add]: construct a scop that contains the offset information,
    arrays, statements and skip information of [scop1] and [scop2].  Both
    arguments are released. *)
Definition pet_scop_add (scop1 scop2 : option positive) : M (option positive) :=
  match scop1, scop2 with
  | Some l1, Some l2 =>
      s1 ← load l1;
      if decide (n_stmt s1 = 0%nat) then
        scop2 ← scop_combine_skips (Some l2) l1 l2;
        pet_scop_free (Some l1);;
        mret scop2
      else
        s2 ← load l2;
        if decide (n_stmt s2 = 0%nat) then
          scop1 ← scop_combine_skips (Some l1) l1 l2;
          pet_scop_free (Some l2);;
          mret scop1
        else
          l ← scop_alloc (n_stmt s1 + n_stmt s2);
          modify l (set_stmts (stmts s1 ++ stmts s2));;
          modify l1 (set_stmts []);;
          modify l2 (set_stmts []);;
          modify l (set_arrays (arrays s1 ++ arrays s2));;
          modify l1 (set_arrays []);;
          modify l2 (set_arrays []);;
          scop ← scop_collect_implications (Some l) l1 l2;
          s1 ← load l1;
          scop ← in_place (λ s, Ok (pet_scop_restrict_context s (context s1))) scop;
          s2 ← load l2;
          scop ← in_place (λ s, Ok (pet_scop_restrict_context s (context s2))) scop;
          scop ← scop_combine_skips scop l1 l2;
          scop ← scop_combine_start_end scop l1 l2;
          pet_scop_free (Some l1);;
          pet_scop_free (Some l2);;
          mret scop
  | _, _ =>
      pet_scop_free scop1;;
      pet_scop_free scop2;;
      mret None
  end.

(** [pet_scop_add_seq]: the two scops are executed "in sequence": breaks
    and continues in [scop1] have an effect on [scop2]. *)
Definition pet_scop_add_seq (scop1 scop2 : option positive) : M (option positive) :=
  match scop1 with
  | Some l1 =>
      s1 ← load l1;
      if pet_scop_has_skip s1 pet_skip_now then
        match pet_scop_get_skip s1 pet_skip_now with
        | Some skip' =>
            scop2 ← in_place (λ s, restrict_skip s skip') scop2;
            pet_scop_add scop1 scop2
        | None => pet_scop_add scop1 scop2
        end
      else pet_scop_add scop1 scop2
  | None => pet_scop_add scop1 scop2
  end.

(** [pet_scop_add_par]: the two scops are executed "in parallel": any break
    or continue in [scop1] has no effect on [scop2]. *)
Definition pet_scop_add_par (scop1 scop2 : option positive) : M (option positive) :=
  pet_scop_add scop1 scop2.

End Composition.

(** ** What the proofs use of isl and of the rest of pet

    The integer points of a set and the values of a piecewise affine
    expression, with the facts of isl's documentation that the proofs below
    rest on.  A point fixes the values of the parameters and the
    coordinates of a tuple; [pt_params] keeps the parameter values only. *)
Class IslSem `{IslOps} := {
  point : Type;
  pt_params : point → point;
  (* p is an element of the set *)
  set_mem : isl_set → point → bool;
  (* the value of the expression at p, if p is in its domain of definition *)
  pw_eval : isl_pw_aff → point → option Z;

  mem_intersect : ∀ a b p,
    set_mem (isl_set_intersect a b) p = set_mem a p && set_mem b p;
  mem_union : ∀ a b p,
    set_mem (isl_set_union a b) p = set_mem a p || set_mem b p;
  mem_complement : ∀ a p,
    set_mem (isl_set_complement a) p = negb (set_mem a p);
  (* coalescing changes the representation only *)
  mem_coalesce : ∀ a p,
    set_mem (isl_set_coalesce a) p = set_mem a p;
  mem_intersect_params : ∀ s c p,
    set_mem (isl_set_intersect_params s c) p = set_mem s p && set_mem c (pt_params p);
  (* the parameter set of a set without tuple coordinates has the same
     elements *)
  mem_params_zero_dim : ∀ s,
    (∀ p, set_mem s p = true → pt_params p = p) →
    ∀ q, set_mem (isl_set_params s) q = set_mem s q;
  (* gist: the result has the same intersection with the context *)
  mem_gist : ∀ s c p,
    set_mem c p = true → set_mem (isl_set_gist s c) p = set_mem s p;
  mem_gist_params : ∀ s c p,
    set_mem c (pt_params p) = true → set_mem (isl_set_gist_params s c) p = set_mem s p;

  eval_indicator_function : ∀ s p,
    pw_eval (isl_set_indicator_function s) p = Some (if set_mem s p then 1 else 0);
  eval_intersect_domain : ∀ pa d p,
    pw_eval (isl_pw_aff_intersect_domain pa d) p
    = if set_mem d p then pw_eval pa p else None;
  mem_pw_aff_domain : ∀ pa p,
    set_mem (isl_pw_aff_domain pa) p = bool_decide (is_Some (pw_eval pa p));
  mem_pw_aff_non_zero_set : ∀ pa p,
    set_mem (isl_pw_aff_non_zero_set pa) p
    = match pw_eval pa p with Some v => bool_decide (v ≠ 0) | None => false end;
  mem_pw_aff_zero_set : ∀ pa p,
    set_mem (isl_pw_aff_zero_set pa) p
    = match pw_eval pa p with Some v => bool_decide (v = 0) | None => false end;

  (* a tuple made of one expression holds that expression and has an
     anonymous range *)
  eval_get_from_pw_aff : ∀ pa p,
    pw_eval (isl_multi_pw_aff_get_pw_aff (isl_multi_pw_aff_from_pw_aff pa) 0) p
    = pw_eval pa p;
  from_pw_aff_has_no_tuple_id : ∀ pa,
    isl_multi_pw_aff_has_tuple_id (isl_multi_pw_aff_from_pw_aff pa) isl_dim_out = false;

  (* a set has the tuple identifier it was given *)
  set_tuple_id_get : ∀ s i,
    isl_set_get_tuple_id (isl_set_set_tuple_id s i) = i;
  (* the relation of an index expression carries its range identifier *)
  map_from_multi_pw_aff_tuple_id : ∀ mpa,
    isl_map_get_tuple_id (isl_map_from_multi_pw_aff mpa) isl_dim_out
    = isl_multi_pw_aff_get_tuple_id mpa isl_dim_out;
  map_is_subset_refl : ∀ m, isl_map_is_subset m m = true;
}.

(** Modelled from the spec: [pet_nested_remove_from_set] (nest.c) discards
    "any residual unnamed/auxiliary parameters": it projects the parameters
    that stand for nested accesses out of a set.  [nested_eq p q] says that
    [p] and [q] differ in the values of such parameters only. *)
Class PetSem `{PetOps} `{!IslSem} := {
  nested_eq : point → point → Prop;
  nested_eq_equiv :: Equivalence nested_eq;
  mem_nested_remove : ∀ s p,
    set_mem (pet_nested_remove_from_set s) p = true
    ↔ ∃ q, nested_eq p q ∧ set_mem s q = true;
}.

(** ** A small provider

    A term model of the interface: enough of isl to run the functions above
    on concrete scops.  Sets are built from bounds on single parameters and
    coordinates with intersection, union and complement; every operation
    that the examples do not look into is an uninterpreted term.  [Sym.gist]
    removes the constraints of a set that are constraints of the context. *)
Module Sym.

(** An identifier: a name and a user pointer. *)
Record tid := Tid { tid_name : string; tid_user : option positive }.

#[global] Instance tid_eq_dec : EqDecision tid.
Proof. solve_decision. Defined.

(** A bound on one parameter or on one coordinate. *)
Inductive atom :=
| ParamGe (i : nat) (c : Z)
| ParamLe (i : nat) (c : Z)
| CoordGe (i : nat) (c : Z)
| CoordLe (i : nat) (c : Z).

#[global] Instance atom_eq_dec : EqDecision atom.
Proof. solve_decision. Defined.

(** A point: the values of the parameters and of the coordinates. *)
Record tpoint := TPoint { pt_par : list Z; pt_crd : list Z }.

Definition params_of (p : tpoint) : tpoint := TPoint (pt_par p) [].

Inductive tm :=
(* uninterpreted operations and their arguments *)
| TSym (s : string)
| TApp (f x : tm)
| TInt (z : Z)
| TDim (d : isl_dim_type)
| TId (i : tid)
(* spaces *)
| TSpaceOf (x : tm)
(* sets *)
| TUniv (space : tm)
| TAtom (a : atom)
| TInter (a b : tm)
| TUnion (a b : tm)
| TCompl (a : tm)
| TFromParams (c : tm)
| TParams (s : tm)
| TInterParams (s c : tm)
| TSetTupleId (s : tm) (i : tid)
| TWrap (m : tm)
| TPreimage (s pma : tm)
| TFilterPma (space : tm) (i : tid) (v : Z)
| TDomain (pa : tm)
| TZeroSet (pa : tm)
| TNonZeroSet (pa : tm)
(* piecewise affine expressions *)
| TIndicator (s : tm)
| TRestrict (pa d : tm)
| TConst (z : Z) (on : tm)
(* index expressions and tests *)
| TFromPwAff (pa : tm)
| TAccess (i : tid)
| TPullback (m ma : tm)
(* maps *)
| TUnwrap (s : tm)
| TMapFromMpa (m : tm)
| TApplyRange (a b : tm)
| TLexLe (i : tid).

#[global] Instance tm_eq_dec : EqDecision tm.
Proof. solve_decision. Defined.

(** An uninterpreted operation applied to its arguments. *)
Definition call (name : string) (args : list tm) : tm := foldl TApp (TSym name) args.

Definition anon : tid := Tid "" None.

Definition atom_holds (a : atom) (p : tpoint) : bool :=
  match a with
  | ParamGe i c => bool_decide (c ≤ nth i (pt_par p) 0)
  | ParamLe i c => bool_decide (nth i (pt_par p) 0 ≤ c)
  | CoordGe i c => bool_decide (c ≤ nth i (pt_crd p) 0)
  | CoordLe i c => bool_decide (nth i (pt_crd p) 0 ≤ c)
  end.

(** The elements of a set and the values of an expression. *)
Fixpoint mem (t : tm) (p : tpoint) : bool :=
  match t with
  | TUniv _ => true
  | TAtom a => atom_holds a p
  | TInter a b => mem a p && mem b p
  | TUnion a b => mem a p || mem b p
  | TCompl a => negb (mem a p)
  | TFromParams c => mem c (params_of p)
  | TParams s => bool_decide (pt_crd p = []) && mem s p
  | TInterParams s c => mem s p && mem c (params_of p)
  | TSetTupleId s _ => mem s p
  | TDomain pa => bool_decide (is_Some (eval pa p))
  | TZeroSet pa =>
      match eval pa p with Some v => bool_decide (v = 0) | None => false end
  | TNonZeroSet pa =>
      match eval pa p with Some v => bool_decide (v ≠ 0) | None => false end
  | _ => false
  end
with eval (t : tm) (p : tpoint) : option Z :=
  match t with
  | TIndicator s => Some (if mem s p then 1 else 0)
  | TRestrict pa d => if mem d p then eval pa p else None
  | TConst z on => if mem on p then Some z else None
  | _ => None
  end.

(** The constraints a set is the conjunction of. *)
Fixpoint conjuncts (t : tm) : list tm :=
  match t with
  | TUniv _ => []
  | TInter a b => conjuncts a ++ conjuncts b
  | TInterParams a c => conjuncts a ++ (TFromParams <$> conjuncts c)
  | _ => [t]
  end.

Definition conj_all (space : tm) (l : list tm) : tm := foldr TInter (TUniv space) l.

(** Modelled from the spec: [isl_set_gist] belongs to isl, not to the
    sources at hand.  The spec has it "remove constraints implied by the
    global parameter context": the constraints of [s] that are constraints
    of the context [c] are dropped. *)
Definition gist (s c : tm) : tm :=
  conj_all (TSpaceOf s) (filter (λ k, k ∉ conjuncts c) (conjuncts s)).

Definition gist_params (s c : tm) : tm :=
  gist s (TInterParams (TUniv (TSpaceOf s)) c).

(** The tuple identifier of a set, if it has one. *)
Fixpoint tuple_id (t : tm) : option tid :=
  match t with
  | TSetTupleId _ i => Some i
  | TInter a _ | TUnion a _ | TInterParams a _ | TCompl a | TPreimage a _ => tuple_id a
  | TUniv (TSpaceOf s) => tuple_id s
  | _ => None
  end.

(** Is the set a wrapped relation? *)
Fixpoint is_wrapping (t : tm) : bool :=
  match t with
  | TWrap _ => true
  | TPreimage _ (TFilterPma _ _ _) => true
  | TSetTupleId a _ | TInter a _ | TInterParams a _ => is_wrapping a
  | _ => false
  end.

(** The iteration space of a statement domain: the domain of the wrapped
    relation when a filter was inserted. *)
Fixpoint iter_space (d : tm) : tm :=
  match d with
  | TPreimage d' (TFilterPma _ _ _) => iter_space d'
  | _ =>
      if is_wrapping d
      then call "isl_space_domain" [call "isl_space_unwrap" [TSpaceOf d]]
      else TSpaceOf d
  end.

Definition space_domain (sp : tm) : tm :=
  match sp with
  | TApp (TSym "isl_space_unwrap") (TSpaceOf d) => iter_space d
  | _ => call "isl_space_domain" [sp]
  end.

(** The value that output dimension [n] of a wrapped statement domain is
    fixed to by an inserted filter. *)
Fixpoint fixed_at (s : tm) (n : nat) : option Z :=
  match s with
  | TPreimage d (TFilterPma _ _ v) =>
      match n with O => Some v | S n' => fixed_at d n' end
  | TInterParams a _ | TInter a _ => fixed_at a n
  | _ => None
  end.

Definition plain_get_val_if_fixed (m : tm) (type : isl_dim_type) (pos : Z) : option Z :=
  match m with
  | TUnwrap s => if decide (type = isl_dim_out) then fixed_at s (Z.to_nat pos) else None
  | _ => None
  end.

(** The range identifier of an index expression. *)
Fixpoint mpa_tuple_id (t : tm) : option tid :=
  match t with
  | TAccess i => Some i
  | TPullback m _ => mpa_tuple_id m
  | _ => None
  end.

Fixpoint map_tuple_id (t : tm) (type : isl_dim_type) : option tid :=
  match t with
  | TMapFromMpa m => if decide (type = isl_dim_out) then mpa_tuple_id m else None
  | TLexLe i => Some i
  | TApplyRange a b =>
      if decide (type = isl_dim_out) then map_tuple_id b type else map_tuple_id a type
  | _ => None
  end.

(** [isl_map_is_subset], decided on the terms: a relation is contained in
    itself and in its image under a reflexive extension. *)
Definition is_subset (a b : tm) : bool :=
  bool_decide (a = b)
  || match b with
     | TApplyRange a' (TLexLe _) => bool_decide (a' = a)
     | _ => false
     end.

Definition plain_is_universe (s : tm) : bool :=
  match s with
  | TUniv _ => true
  | TNonZeroSet (TConst z (TUniv _)) => bool_decide (z ≠ 0)
  | _ => false
  end.

Definition get_pw_aff (m : tm) (pos : Z) : tm :=
  match m with
  | TFromPwAff pa => pa
  | _ => call "isl_multi_pw_aff_get_pw_aff" [m; TInt pos]
  end.

#[global] Instance ops : IslOps := {|
  isl_id := tid;
  isl_space := tm; isl_local_space := tm; isl_set := tm; isl_map := tm;
  isl_union_map := tm; isl_aff := tm; isl_pw_aff := tm; isl_multi_aff := tm;
  isl_pw_multi_aff := tm; isl_multi_pw_aff := tm;
  isl_val := option Z;
  isl_id_get_user := tid_user;
  isl_space_params_alloc n := call "isl_space_params_alloc" [TInt n];
  isl_space_is_wrapping sp := match sp with TSpaceOf s => is_wrapping s | _ => false end;
  isl_space_unwrap sp := call "isl_space_unwrap" [sp];
  isl_space_domain := space_domain;
  isl_space_range sp := call "isl_space_range" [sp];
  isl_space_from_domain sp := call "isl_space_from_domain" [sp];
  isl_space_add_dims sp t n := call "isl_space_add_dims" [sp; TDim t; TInt n];
  isl_space_drop_dims sp t f n := call "isl_space_drop_dims" [sp; TDim t; TInt f; TInt n];
  isl_space_map_from_set sp := call "isl_space_map_from_set" [sp];
  isl_local_space_from_space sp := call "isl_local_space_from_space" [sp];
  isl_set_universe := TUniv;
  isl_set_get_space := TSpaceOf;
  isl_set_intersect := TInter;
  isl_set_union := TUnion;
  isl_set_subtract a b := TInter a (TCompl b);
  isl_set_complement := TCompl;
  isl_set_coalesce s := s;
  isl_set_params := TParams;
  isl_set_from_params := TFromParams;
  isl_set_intersect_params := TInterParams;
  isl_set_gist := gist;
  isl_set_gist_params := gist_params;
  isl_set_has_tuple_id s := bool_decide (is_Some (tuple_id s));
  isl_set_get_tuple_id s := default anon (tuple_id s);
  isl_set_set_tuple_id := TSetTupleId;
  isl_set_is_wrapping := is_wrapping;
  isl_set_unwrap := TUnwrap;
  isl_set_flat_product a b := call "isl_set_flat_product" [a; b];
  isl_set_identity s := call "isl_set_identity" [s];
  isl_set_find_dim_by_id _ _ _ := -1;
  isl_set_add_dims s t n := call "isl_set_add_dims" [s; TDim t; TInt n];
  isl_set_equate s t1 p1 t2 p2 :=
    call "isl_set_equate" [s; TDim t1; TInt p1; TDim t2; TInt p2];
  isl_set_project_out s t f n := call "isl_set_project_out" [s; TDim t; TInt f; TInt n];
  isl_set_preimage_multi_aff s ma := call "isl_set_preimage_multi_aff" [s; ma];
  isl_set_preimage_pw_multi_aff := TPreimage;
  isl_set_plain_is_universe := plain_is_universe;
  isl_set_indicator_function := TIndicator;
  isl_map_get_space := TSpaceOf;
  isl_map_is_equal a b := bool_decide (a = b);
  isl_map_is_subset := is_subset;
  isl_map_has_tuple_id m t := bool_decide (is_Some (map_tuple_id m t));
  isl_map_get_tuple_id m t := default anon (map_tuple_id m t);
  isl_map_set_tuple_id m t i := call "isl_map_set_tuple_id" [m; TDim t; TId i];
  isl_map_set_dim_id m t p i := call "isl_map_set_dim_id" [m; TDim t; TInt p; TId i];
  isl_map_find_dim_by_id _ _ _ := -1;
  isl_map_range_is_wrapping _ := false;
  isl_map_wrap := TWrap;
  isl_map_domain m := call "isl_map_domain" [m];
  isl_map_from_domain s := call "isl_map_from_domain" [s];
  isl_map_from_domain_and_range d r := call "isl_map_from_domain_and_range" [d; r];
  isl_map_from_aff a := call "isl_map_from_aff" [a];
  isl_map_from_multi_pw_aff := TMapFromMpa;
  isl_map_apply_range := TApplyRange;
  isl_map_flat_product a b := call "isl_map_flat_product" [a; b];
  isl_map_flat_domain_product a b := call "isl_map_flat_domain_product" [a; b];
  isl_map_add_dims m t n := call "isl_map_add_dims" [m; TDim t; TInt n];
  isl_map_insert_dims m t p n := call "isl_map_insert_dims" [m; TDim t; TInt p; TInt n];
  isl_map_equate m t1 p1 t2 p2 :=
    call "isl_map_equate" [m; TDim t1; TInt p1; TDim t2; TInt p2];
  isl_map_project_out m t f n := call "isl_map_project_out" [m; TDim t; TInt f; TInt n];
  isl_map_align_params m sp := call "isl_map_align_params" [m; sp];
  isl_map_plain_get_val_if_fixed := plain_get_val_if_fixed;
  isl_val_is_int v := bool_decide (is_Some v);
  isl_val_get_num_si v := default 0 v;
  isl_aff_get_space := TSpaceOf;
  isl_aff_align_params a sp := call "isl_aff_align_params" [a; sp];
  isl_aff_pullback_aff a b := call "isl_aff_pullback_aff" [a; b];
  isl_aff_var_on_domain ls t p := call "isl_aff_var_on_domain" [ls; TDim t; TInt p];
  isl_pw_aff_from_aff a := call "isl_pw_aff_from_aff" [a];
  isl_pw_aff_domain := TDomain;
  isl_pw_aff_zero_set := TZeroSet;
  isl_pw_aff_non_zero_set := TNonZeroSet;
  isl_pw_aff_intersect_domain := TRestrict;
  isl_multi_aff_zero sp := call "isl_multi_aff_zero" [sp];
  isl_multi_aff_identity sp := call "isl_multi_aff_identity" [sp];
  isl_multi_aff_from_aff a := call "isl_multi_aff_from_aff" [a];
  isl_multi_aff_get_aff ma p := call "isl_multi_aff_get_aff" [ma; TInt p];
  isl_multi_aff_set_aff ma p a := call "isl_multi_aff_set_aff" [ma; TInt p; a];
  isl_multi_aff_flat_range_product a b := call "isl_multi_aff_flat_range_product" [a; b];
  isl_multi_pw_aff_has_tuple_id m t :=
    if decide (t = isl_dim_out) then bool_decide (is_Some (mpa_tuple_id m)) else false;
  isl_multi_pw_aff_get_tuple_id m t :=
    if decide (t = isl_dim_out) then default anon (mpa_tuple_id m) else anon;
  isl_multi_pw_aff_set_tuple_id m t i :=
    call "isl_multi_pw_aff_set_tuple_id" [m; TDim t; TId i];
  isl_multi_pw_aff_set_dim_id m t p i :=
    call "isl_multi_pw_aff_set_dim_id" [m; TDim t; TInt p; TId i];
  isl_multi_pw_aff_find_dim_by_id _ _ _ := -1;
  isl_multi_pw_aff_range_is_wrapping _ := false;
  isl_multi_pw_aff_dim _ _ := 0;
  isl_multi_pw_aff_get_domain_space m := call "isl_multi_pw_aff_get_domain_space" [m];
  isl_multi_pw_aff_get_pw_aff := get_pw_aff;
  isl_multi_pw_aff_from_pw_aff := TFromPwAff;
  isl_multi_pw_aff_identity sp := call "isl_multi_pw_aff_identity" [sp];
  isl_multi_pw_aff_drop_dims m t f n :=
    call "isl_multi_pw_aff_drop_dims" [m; TDim t; TInt f; TInt n];
  isl_multi_pw_aff_move_dims m t1 p1 t2 p2 n :=
    call "isl_multi_pw_aff_move_dims" [m; TDim t1; TInt p1; TDim t2; TInt p2; TInt n];
  isl_multi_pw_aff_flat_range_product a b :=
    call "isl_multi_pw_aff_flat_range_product" [a; b];
  isl_multi_pw_aff_pullback_multi_aff := TPullback;
|}.

(** The helpers of pet: no parameter stands for a nested access, an
    inserted filter is a term of its own, no value bounds are known, and the
    gist of an expression leaves it as it is. *)
#[global] Instance pet_ops : PetOps := {|
  pet_nested_remove_from_set s := s;
  pet_filter_insert_pma := TFilterPma;
  pet_value_bounds_apply d _ _ _ := d;
  pet_expr_access_update_domain expr update :=
    match expr with
    | pet_expr_access acc args =>
        pet_expr_access
          {| acc_access := call "isl_map_preimage_domain_multi_pw_aff" [acc_access acc; update];
             acc_index := call "isl_multi_pw_aff_pullback_multi_pw_aff" [acc_index acc; update];
             acc_read := acc_read acc;
             acc_write := acc_write acc |} args
    | _ => expr
    end;
  pet_expr_gist expr _ _ := expr;
|}.

End Sym.

(** ** Equivalence of scops

    Two sets are equivalent when they have the same integer points, two
    skip conditions when both are affine or both are not and they have the
    same value at every point, two scops when their contexts, statement
    domains and skip conditions are equivalent and all the rest is equal. *)

Section Equivalence.
Context {isl : IslOps} {pet : PetOps} {sem : IslSem}.

Definition set_equiv (a b : isl_set) : Prop :=
  ∀ p, set_mem a p = set_mem b p.

Definition skip_equiv (k1 k2 : option isl_multi_pw_aff) : Prop :=
  match k1, k2 with
  | None, None => True
  | Some a, Some b =>
      multi_pw_aff_is_affine a = multi_pw_aff_is_affine b
      ∧ ∀ p, pw_eval (isl_multi_pw_aff_get_pw_aff a 0) p
             = pw_eval (isl_multi_pw_aff_get_pw_aff b 0) p
  | _, _ => False
  end.

Definition stmt_equiv (s1 s2 : pet_stmt) : Prop :=
  set_equiv (domain s1) (domain s2)
  ∧ stmt_loc s1 = stmt_loc s2 ∧ schedule s1 = schedule s2
  ∧ body s1 = body s2 ∧ args s1 = args s2.

Definition scop_equiv (scop1 scop2 : pet_scop_ext) : Prop :=
  set_equiv (context scop1) (context scop2)
  ∧ Forall2 stmt_equiv (stmts scop1) (stmts scop2)
  ∧ skip_equiv (skip scop1 pet_skip_now) (skip scop2 pet_skip_now)
  ∧ skip_equiv (skip scop1 pet_skip_later) (skip scop2 pet_skip_later)
  ∧ loc scop1 = loc scop2 ∧ context_value scop1 = context_value scop2
  ∧ types scop1 = types scop2 ∧ arrays scop1 = arrays scop2
  ∧ implications scop1 = implications scop2 ∧ input scop1 = input scop2.

(** ** Filters that implication detection recognises *)

(** The test of [stmt_filter], extended to the iteration domain of the
    statement. *)
Definition extend_test (stmt : pet_stmt) (test : isl_multi_pw_aff) : isl_multi_pw_aff :=
  let space := pet_stmt_get_space stmt in
  let n_test_dom := isl_multi_pw_aff_dim test isl_dim_in in
  let space := isl_space_from_domain space in
  let space := isl_space_add_dims space isl_dim_out n_test_dom in
  let add_dom := isl_multi_aff_zero space in
  let ls := isl_local_space_from_space (isl_space_domain space) in
  let add_dom :=
    foldl (λ add_dom i,
             let aff := isl_aff_var_on_domain ls isl_dim_set (Z.of_nat i) in
             isl_multi_aff_set_aff add_dom (Z.of_nat i) aff)
          add_dom (seq 0 (Z.to_nat n_test_dom)) in
  isl_multi_pw_aff_pullback_multi_aff test add_dom.

(** The first filter of the statement is visibly fixed to [satisfied']:
    what [implies_filter] asks of [isl_map_plain_get_val_if_fixed]. *)
Definition first_filter_fixed_to (stmt : pet_stmt) (satisfied' : Z) : Prop :=
  isl_val_is_int
    (isl_map_plain_get_val_if_fixed (isl_set_unwrap (domain stmt)) isl_dim_out 0) = true
  ∧ isl_val_get_num_si
      (isl_map_plain_get_val_if_fixed (isl_set_unwrap (domain stmt)) isl_dim_out 0)
    = satisfied'.

(** Every implication of the scop that applies to the relation [test_map]
    and the value [satisfied'] extends the relation to a superset. *)
Definition implications_contain (scop : pet_scop_ext) (test_map : isl_map)
    (satisfied' : Z) : Prop :=
  ∀ pi, pi ∈ implications scop →
    satisfied pi = satisfied' →
    isl_map_get_tuple_id (extension pi) isl_dim_in
    = isl_map_get_tuple_id test_map isl_dim_out →
    isl_map_is_subset test_map (isl_map_apply_range test_map (extension pi)) = true.

(** ** When a filter is already proved

    Following the spec, the filter that [stmt_filter] would add is "elided
    when an existing implication already proves it".  Spelled out: the scop
    has implications, and one of the arguments of the statement is a filter
    on the same virtual array that is visibly fixed to the same value and
    whose access relation, extended by the implication of the scop for this
    array and value if there is one, contains the test. *)

(** The first implication of the scop for the virtual array [id] and the
    value [satisfied']. *)
Definition implication_for (scop : pet_scop_ext) (id : isl_id) (satisfied' : Z)
    : option pet_implication :=
  snd <$> list_find
            (λ pi, satisfied pi = satisfied'
                   ∧ isl_map_get_tuple_id (extension pi) isl_dim_in = id)
            (implications scop).

(** The relation a filter with access relation [access] stands for, once
    the implication for its array and value is taken into account. *)
Definition extended_by_implication (scop : pet_scop_ext) (access : isl_map) (id : isl_id)
    (satisfied' : Z) : isl_map :=
  match implication_for scop id satisfied' with
  | Some pi => isl_map_apply_range access (extension pi)
  | None => access
  end.

Definition filter_already_proved (scop : pet_scop_ext) (stmt : pet_stmt)
    (test : isl_multi_pw_aff) (satisfied' : Z) : Prop :=
  let test_map := isl_map_from_multi_pw_aff test in
  let test_id := isl_map_get_tuple_id test_map isl_dim_out in
  implications scop ≠ []
  ∧ ∃ (pos : nat) (acc : pet_expr_acc) (args' : list pet_expr),
      args stmt !! pos = Some (pet_expr_access acc args')
      ∧ isl_multi_pw_aff_get_tuple_id (acc_index acc) isl_dim_out = test_id
      ∧ isl_val_is_int
          (isl_map_plain_get_val_if_fixed (isl_set_unwrap (domain stmt)) isl_dim_out
             (Z.of_nat pos)) = true
      ∧ isl_val_get_num_si
          (isl_map_plain_get_val_if_fixed (isl_set_unwrap (domain stmt)) isl_dim_out
             (Z.of_nat pos)) = satisfied'
      ∧ isl_map_is_subset test_map
          (extended_by_implication scop (acc_access acc) test_id satisfied') = true.

(** ** The result of a composition, in closed form *)

(** The skip condition that [combine_skips] leaves in the result. *)
Definition merged_skip (k1 k2 : option isl_multi_pw_aff) : option isl_multi_pw_aff :=
  match k1, k2 with
  | None, None => None
  | None, Some k | Some k, None => Some k
  | Some k1, Some k2 =>
      Some (isl_multi_pw_aff_from_pw_aff
              (pw_aff_or (isl_multi_pw_aff_get_pw_aff k1 0)
                         (isl_multi_pw_aff_get_pw_aff k2 0)))
  end.

(** Two skip conditions can be combined unless both are present and one of
    them is not affine. *)
Definition skips_combinable (k1 k2 : option isl_multi_pw_aff) : bool :=
  match k1, k2 with
  | Some k1, Some k2 => multi_pw_aff_is_affine k1 && multi_pw_aff_is_affine k2
  | _, _ => true
  end.

(** The implications that [scop_collect_implications] stores in the result
    and those it leaves in the second scop. *)
Definition merged_implications (scop1 scop2 : pet_scop_ext) : list pet_implication :=
  if decide (n_implication scop2 = 0%nat) then implications scop1
  else if decide (n_implication scop1 = 0%nat) then implications scop2
  else implications scop1
       ++ filter (λ pi, is_known_implication scop1 pi = false) (implications scop2).

Definition duplicate_implications (scop1 scop2 : pet_scop_ext) : list pet_implication :=
  if decide (n_implication scop2 = 0%nat) then []
  else if decide (n_implication scop1 = 0%nat) then []
  else filter (λ pi, is_known_implication scop1 pi = true) (implications scop2).

(** The location of the result. *)
Definition combined_loc (scop1 scop2 : pet_scop_ext) : pet_loc :=
  let loc' :=
    if decide (loc scop1 ≠ pet_loc_dummy)
    then pet_loc_alloc (pet_loc_get_start (loc scop1)) (pet_loc_get_end (loc scop1)) (-1)
    else pet_loc_dummy in
  if decide (loc scop2 ≠ pet_loc_dummy) then
    if decide (loc' = pet_loc_dummy)
    then pet_loc_alloc (pet_loc_get_start (loc scop2)) (pet_loc_get_end (loc scop2)) (-1)
    else pet_loc_update_start_end loc'
           (pet_loc_get_start (loc scop2)) (pet_loc_get_end (loc scop2))
  else loc'.

(** The scop that [pet_scop_add] builds from two scops with statements. *)
Definition added_scop (scop1 scop2 : pet_scop_ext) : pet_scop_ext :=
  {| loc := combined_loc scop1 scop2;
     context :=
       isl_set_intersect
         (isl_set_intersect (isl_set_universe (isl_space_params_alloc 0))
            (pet_nested_remove_from_set (context scop1)))
         (pet_nested_remove_from_set (context scop2));
     context_value := isl_set_universe (isl_space_params_alloc 0);
     types := [];
     arrays := arrays scop1 ++ arrays scop2;
     stmts := stmts scop1 ++ stmts scop2;
     implications := merged_implications scop1 scop2;
     skip_now := merged_skip (skip_now scop1) (skip_now scop2);
     skip_later := merged_skip (skip_later scop1) (skip_later scop2);
     input := None |}.

(** The scop that [pet_scop_add] returns when the other one has no
    statement: itself, with the skip conditions of both. *)
Definition with_merged_skips (scop1 scop2 scop : pet_scop_ext) : pet_scop_ext :=
  set_skip pet_skip_later (merged_skip (skip_later scop1) (skip_later scop2))
    (set_skip pet_skip_now (merged_skip (skip_now scop1) (skip_now scop2)) scop).

(** A skip condition is an expression over a zero-dimensional domain: the
    points where it is defined have parameter values only. *)
Definition skip_zero_dimensional (k : isl_multi_pw_aff) : Prop :=
  ∀ p, is_Some (pw_eval (isl_multi_pw_aff_get_pw_aff k 0) p) → pt_params p = p.

(** The parameter values at which an affine skip condition is zero: the set
    that [restrict_skip] hands to [pet_scop_restrict]. *)
Definition skip_zero_params (k : isl_multi_pw_aff) : isl_set :=
  isl_set_params (isl_pw_aff_zero_set (isl_multi_pw_aff_get_pw_aff k 0)).

(** ** Closed forms used in the proofs *)

(** The skip condition that [pet_scop_restrict_skip] stores. *)
Definition restricted_skip (cond : isl_set) (k : isl_multi_pw_aff) : isl_multi_pw_aff :=
  let skip := isl_multi_pw_aff_get_pw_aff k 0 in
  isl_multi_pw_aff_from_pw_aff
    (indicator_function
       (isl_set_intersect (isl_set_from_params cond) (isl_pw_aff_non_zero_set skip))
       (isl_pw_aff_domain skip)).

(** The context that [pet_scop_restrict] stores. *)
Definition restricted_context (context' cond : isl_set) : isl_set :=
  pet_nested_remove_from_set
    (isl_set_coalesce
       (isl_set_union (isl_set_intersect context' cond) (isl_set_complement cond))).

(** A scop after both skip conditions were taken from it. *)
Definition no_skips (scop : pet_scop_ext) : pet_scop_ext :=
  set_skip pet_skip_later None (set_skip pet_skip_now None scop).

(** The location after [scop_combine_start_end]. *)
Definition with_start_end (s s1 s2 : pet_scop_ext) : pet_scop_ext :=
  let s := if decide (loc s1 ≠ pet_loc_dummy)
           then pet_scop_update_start_end_from_loc s (loc s1) else s in
  if decide (loc s2 ≠ pet_loc_dummy)
  then pet_scop_update_start_end_from_loc s (loc s2) else s.

(** What is left of the arguments of [pet_scop_add] once their statements,
    arrays and implications (all but [rest]) have moved to the result. *)
Definition moved_out (rest : list pet_implication) (scop : pet_scop_ext) : pet_scop_ext :=
  no_skips (set_implications rest (set_arrays [] (set_stmts [] scop))).

End Equivalence.

(** ** Sample scops

    Small scops over the provider [Sym], on which the functions above can
    be run. *)

Module Examples.
Import Sym.

(** The parameter space of the contexts. *)
Definition params0 : tm := isl_space_params_alloc 0.

(** A statement [name[i]] with [lo <= i <= hi], without arguments. *)
Definition stmt_at (name : string) (u : positive) (lo hi : Z) : pet_stmt :=
  {| stmt_loc := PetLoc 0 10 1;
     domain := TSetTupleId (TInter (TAtom (CoordGe 0 lo)) (TAtom (CoordLe 0 hi)))
                 (Tid name (Some u));
     schedule := TSym "schedule";
     body := pet_expr_op (pet_op_other 0) [];
     args := [] |}.

(** An array with the given extent. *)
Definition array_of (extent' : tm) : pet_array :=
  {| array_context := TUniv params0;
     extent := extent';
     value_bounds := None;
     element_type := "int";
     element_is_record := false;
     element_size := 4;
     live_out := false;
     uniquely_defined := false;
     declared := false;
     exposed := false |}.

(** A scop with the given components, the universe context and no skip
    conditions. *)
Definition scop_of (loc' : pet_loc) (types' : list pet_type) (arrays' : list pet_array)
    (stmts' : list pet_stmt) (implications' : list pet_implication) : pet_scop_ext :=
  {| loc := loc';
     context := TUniv params0;
     context_value := TUniv params0;
     types := types'; arrays := arrays'; stmts := stmts';
     implications := implications';
     skip_now := None; skip_later := None; input := None |}.

(** The extent [A[i]], [0 <= i <= 9], of a declared array [A]. *)
Definition extent_A : tm :=
  TSetTupleId (TInter (TAtom (CoordGe 0 0)) (TAtom (CoordLe 0 9))) (Tid "A" (Some 7%positive)).

(** The extent of a virtual scalar: a tuple identifier without user pointer. *)
Definition extent_virtual : tm :=
  TSetTupleId (TUniv (TSym "scalar")) (Tid "__pet_test_0" None).

(** The extent [s_a[s[] -> a[i]]] of the member [a] of a structure [s]: a
    wrapped relation; the identifier of a member access has no user
    pointer. *)
Definition extent_member : tm :=
  TSetTupleId (TWrap (TSym "s_to_a")) (Tid "s_a" None).

(** The loop that the examples embed in. *)
Definition loop_domain : tm := TInter (TAtom (CoordGe 0 0)) (TAtom (CoordLe 0 99)).
Definition loop_id : tid := Tid "i" (Some 9%positive).

(** Skip conditions: "skip when the first parameter is at least [c]" is
    affine, defined on the parameter values; a test on a virtual scalar is
    not affine. *)
Definition affine_skip (c : Z) : tm :=
  TFromPwAff (TRestrict (TIndicator (TAtom (ParamGe 0 c))) (TParams (TUniv params0))).

Definition test_on (name : string) : tm := TAccess (Tid name None).

(** A condition on the parameters: the first parameter is at least one. *)
Definition param_positive : tm := TAtom (ParamGe 0 1).

(** Scops to combine. *)
Definition scop_S : pet_scop_ext :=
  scop_of (PetLoc 0 10 1) [PetType "t" "struct t"] [array_of extent_A]
    [stmt_at "S" 1 0 9] [].

Definition scop_T : pet_scop_ext :=
  scop_of (PetLoc 20 30 2) [PetType "u" "struct u"] [array_of extent_virtual]
    [stmt_at "T" 2 0 4] [].

(** [scop_S] with a skip condition of type "now". *)
Definition scop_S_skipping (k : tm) : pet_scop_ext := set_skip pet_skip_now (Some k) scop_S.
Definition scop_T_skipping (k : tm) : pet_scop_ext := set_skip pet_skip_now (Some k) scop_T.

(** A scop without statements that owns an array and has a location. *)
Definition scop_decl : pet_scop_ext :=
  scop_of (PetLoc 40 50 3) [] [array_of extent_A] [] [].

(** Two scops in the heap, at the addresses 1 and 2. *)
Definition world_of (scop1 scop2 : pet_scop_ext) : world :=
  World (<[1%positive := scop1]> (<[2%positive := scop2]> ∅)) [] [].

(** A scop whose array extent repeats the constraint of the context. *)
Definition scop_bounded : pet_scop_ext :=
  set_context param_positive
    (scop_of (PetLoc 0 10 1) [] [array_of (TInterParams extent_A param_positive)] [] []).

(** A scop that knows an implication for the test on [__pet_test_0]. *)
Definition scop_implying : pet_scop_ext :=
  scop_of (PetLoc 0 10 1) [] [] [stmt_at "S" 1 0 9]
    [PetImplication (TLexLe (Tid "__pet_test_0" None)) 1].

(** A scop that knows an implication for the test on [__pet_test_0] and the
    value zero, and whose statement is already filtered on that test being
    zero. *)
Definition scop_implying_zero : pet_scop_ext :=
  scop_of (PetLoc 0 10 1) [] [] [stmt_at "S" 1 0 9]
    [PetImplication (TLexLe (Tid "__pet_test_0" None)) 0].

Definition scop_filtered : pet_scop_ext :=
  set_stmts
    ((λ stmt, stmt_filter scop_implying_zero stmt (test_on "__pet_test_0") 0)
       <$> stmts scop_implying_zero)
    scop_implying_zero.

End Examples.

(** * The rest of scop.c

    The functions of [scop.c] that query a scop, compare two scops, or
    extend a scop with an array, an implication or a condition on its
    domains.  The isl functions and pet helpers that only these functions
    call are the operations of two further interfaces. *)

(** ** Further operations of isl and of pet *)

Class IslMoreOps `{IslOps} := {
  isl_set_is_equal : isl_set → isl_set → bool;
  isl_set_dim : isl_set → isl_dim_type → Z;
  isl_set_lower_bound_si : isl_set → isl_dim_type → Z → Z → isl_set;
  isl_set_upper_bound_si : isl_set → isl_dim_type → Z → Z → isl_set;
  isl_space_set_alloc : Z → Z → isl_space;
  isl_map_dim : isl_map → isl_dim_type → Z;
  isl_map_fix_si : isl_map → isl_dim_type → Z → Z → isl_map;
  isl_map_intersect_domain : isl_map → isl_set → isl_map;
  isl_map_params : isl_map → isl_set;
  isl_map_range : isl_map → isl_set;
  isl_union_map_empty : isl_space → isl_union_map;
  isl_union_map_add_map : isl_union_map → isl_map → isl_union_map;
}.

(** [pet_expr_is_equal], [pet_expr_is_affine] and [pet_expr_is_assume] are
    functions of expr.c, [pet_loc_get_line] is one of loc.c and
    [pet_prefix_projection] one of aff.c. *)
Class PetMoreOps `{PetOps} := {
  pet_expr_is_equal : pet_expr → pet_expr → bool;
  pet_expr_is_affine : pet_expr → bool;
  pet_expr_is_assume : pet_expr → bool;
  pet_loc_get_line : pet_loc → Z;
  pet_prefix_projection : isl_space → Z → isl_multi_aff;
}.

Section Queries.
Context {isl : IslOps} {pet : PetOps} {isl_more : IslMoreOps} {pet_more : PetMoreOps}.

(** ** Queries on the skip conditions *)

(** Does the scop have a skip condition of the given type that is not an
    affine expression? *)
Definition pet_scop_has_var_skip (scop : pet_scop_ext) (type : pet_skip) : bool :=
  match skip scop type with
  | None => false
  | Some k =>
      let aff := multi_pw_aff_is_affine k in
      negb aff
  end.

(** [pet_scop_get_affine_skip_domain]: assuming [scop->skip[type]] is an
    affine expression, the constraints on the parameters for which the skip
    condition holds.  Without a skip condition every isl call is handed NULL
    and hands NULL on. *)
Definition pet_scop_get_affine_skip_domain (scop : pet_scop_ext) (type : pet_skip)
    : option isl_set :=
  skip' ← pet_scop_get_skip scop type;
  let pa := isl_multi_pw_aff_get_pw_aff skip' 0 in
  Some (isl_set_params (isl_pw_aff_non_zero_set pa)).

(** [pet_scop_get_skip_id]: the identifier of the variable that is accessed
    by the skip condition of the given type.  The skip condition is assumed
    not to be an affine condition: [isl_multi_pw_aff_get_tuple_id] fails
    with the error "tuple has no id" on a tuple without identifier, which is
    what an affine condition is ([multi_pw_aff_is_affine]); handed NULL, it
    hands NULL on without a report. *)
Definition pet_scop_get_skip_id (scop : pet_scop_ext) (type : pet_skip)
    : isl_result (option isl_id) :=
  match skip scop type with
  | None => Ok None
  | Some k =>
      if isl_multi_pw_aff_has_tuple_id k isl_dim_out
      then Ok (Some (isl_multi_pw_aff_get_tuple_id k isl_dim_out))
      else Die isl_error_invalid "tuple has no id"
  end.

(** [pet_scop_get_skip_expr]: an access expression corresponding to the
    skip condition of the given type. *)
Definition pet_scop_get_skip_expr (scop : pet_scop_ext) (type : pet_skip) : option pet_expr :=
  pet_expr_from_index <$> pet_scop_get_skip scop type.

(** [pet_scop_has_data_dependent_conditions]: does one of the statements
    have arguments? *)
Definition pet_scop_has_data_dependent_conditions (scop : pet_scop_ext) : bool :=
  existsb (λ stmt, bool_decide (0 < n_arg stmt)%nat) (stmts scop).

(** ** The context *)

(** [pet_scop_reset_context]: drop the current context of the scop, that
    is, replace it by a universal set. *)
Definition pet_scop_reset_context (scop : pet_scop_ext) : pet_scop_ext :=
  let space := isl_set_get_space (context scop) in
  set_context (isl_set_universe space) scop.

(** [pet_scop_set_input_file]: keep track of the input file inside the
    (extended) scop. *)
Definition pet_scop_set_input_file (scop : pet_scop_ext) (input' : option positive)
    : pet_scop_ext :=
  PetScop (loc scop) (context scop) (context_value scop) (types scop) (arrays scop)
    (stmts scop) (implications scop) (skip_now scop) (skip_later scop) input'.

(** ** Arrays and implications *)

(** [pet_array_free], [pet_implication_free]: release the object, if any. *)
Definition pet_array_free (array : option pet_array) : M unit :=
  match array with
  | None => mret tt
  | Some a => release [ObjArray a]
  end.

Definition pet_implication_free (implication : option pet_implication) : M unit :=
  match implication with
  | None => mret tt
  | Some pi => release [ObjImplication pi]
  end.

(** [pet_scop_add_array]: append [array] to the arrays of [scop].  When one
    of the two is NULL, the other is released and NULL is returned. *)
Definition pet_scop_add_array (scop : option positive) (array : option pet_array)
    : M (option positive) :=
  match scop, array with
  | Some l, Some a =>
      s ← load l;
      modify l (set_arrays (arrays s ++ [a]));;
      mret (Some l)
  | _, _ =>
      pet_array_free array;;
      pet_scop_free scop
  end.

(** [pet_scop_add_boolean_array]: add an array with the given extent (the
    range of [index]) to the arrays of the scop.  The array is marked as
    attaining values 0 and 1 only and as each element being assigned at
    most once; the other flags are those of [isl_calloc_type]. *)
Definition pet_scop_add_boolean_array (scop : option positive)
    (index : option isl_multi_pw_aff) (int_size : Z) : M (option positive) :=
  match scop, index with
  | Some l, Some index =>
      let access := isl_map_from_multi_pw_aff index in
      let extent' := isl_map_range access in
      let space := isl_space_params_alloc 0 in
      let context' := isl_set_universe space in
      let space := isl_space_set_alloc 0 1 in
      let value_bounds' := isl_set_universe space in
      let value_bounds' := isl_set_lower_bound_si value_bounds' isl_dim_set 0 0 in
      let value_bounds' := isl_set_upper_bound_si value_bounds' isl_dim_set 0 1 in
      let array :=
        {| array_context := context';
           extent := extent';
           value_bounds := Some value_bounds';
           element_type := "int";
           element_is_record := false;
           element_size := int_size;
           live_out := false;
           uniquely_defined := true;
           declared := false;
           exposed := false |} in
      pet_scop_add_array (Some l) (Some array)
  | _, _ => pet_scop_free scop
  end.

(** [new_implication]: an implication on filter values equal to
    [satisfied'] with extension [map]. *)
Definition new_implication (map : option isl_map) (satisfied' : Z) : option pet_implication :=
  match map with
  | None => None
  | Some m => Some {| extension := m; satisfied := satisfied' |}
  end.

(** [pet_scop_add_implication]: add an implication on filter values equal
    to [satisfied'] with extension [map] to the scop. *)
Definition pet_scop_add_implication (scop : option positive) (map : option isl_map)
    (satisfied' : Z) : M (option positive) :=
  let implication := new_implication map satisfied' in
  match scop, implication with
  | Some l, Some pi =>
      s ← load l;
      modify l (set_implications (implications s ++ [pi]));;
      mret (Some l)
  | _, _ =>
      pet_implication_free implication;;
      pet_scop_free scop
  end.

(** ** Intersecting the domains with a prefix *)

(** [virtual_array_intersect_domain_prefix]: intersect the initial
    dimensions of the array with [domain'], provided that the array is a
    virtual array. *)
Definition virtual_array_intersect_domain_prefix (array : pet_array) (domain' : isl_set)
    : pet_array :=
  if negb (extent_is_virtual_array (extent array)) then array
  else
    let space := isl_set_get_space (extent array) in
    let n := isl_set_dim domain' isl_dim_set in
    let ma := pet_prefix_projection space n in
    let domain' := isl_set_preimage_multi_aff domain' ma in
    set_extent (isl_set_intersect (extent array) domain') array.

(** [stmt_intersect_domain_prefix]: intersect the initial dimensions of the
    domain of the statement with [domain']. *)
Definition stmt_intersect_domain_prefix (stmt : pet_stmt) (domain' : isl_set) : pet_stmt :=
  let space := isl_set_get_space (domain stmt) in
  let n := isl_set_dim domain' isl_dim_set in
  let ma := pet_prefix_projection space n in
  let domain' := isl_set_preimage_multi_aff domain' ma in
  set_domain (isl_set_intersect (domain stmt) domain') stmt.

(** [implication_intersect_domain_prefix]: intersect the initial dimensions
    of the domain of the implication with [domain']. *)
Definition implication_intersect_domain_prefix (implication : pet_implication)
    (domain' : isl_set) : pet_implication :=
  let space := isl_map_get_space (extension implication) in
  let n := isl_set_dim domain' isl_dim_set in
  let ma := pet_prefix_projection (isl_space_domain space) n in
  let domain' := isl_set_preimage_multi_aff domain' ma in
  PetImplication (isl_map_intersect_domain (extension implication) domain')
    (satisfied implication).

(** [pet_scop_intersect_domain_prefix]: intersect the initial dimensions of
    the domains in the scop with [domain'].  The extents of the virtual
    arrays match the iteration domains, so they change too. *)
Definition pet_scop_intersect_domain_prefix (scop : pet_scop_ext) (domain' : isl_set)
    : pet_scop_ext :=
  let scop :=
    set_arrays ((λ array, virtual_array_intersect_domain_prefix array domain')
                  <$> arrays scop) scop in
  let scop :=
    set_stmts ((λ stmt, stmt_intersect_domain_prefix stmt domain') <$> stmts scop) scop in
  set_implications
    ((λ implication, implication_intersect_domain_prefix implication domain')
       <$> implications scop) scop.

(** ** Schedules *)

(** [pet_stmt_prefix]: prefix the schedule of the statement with an extra
    dimension with constant value [pos]. *)
Definition pet_stmt_prefix (stmt : pet_stmt) (pos : Z) : pet_stmt :=
  let schedule' := isl_map_insert_dims (schedule stmt) isl_dim_out 0 1 in
  let schedule' := isl_map_fix_si schedule' isl_dim_out 0 pos in
  PetStmt (stmt_loc stmt) (domain stmt) schedule' (body stmt) (args stmt).

(** [pet_scop_prefix]: prefix the schedules of all statements. *)
Definition pet_scop_prefix (scop : pet_scop_ext) (pos : Z) : pet_scop_ext :=
  set_stmts ((λ stmt, pet_stmt_prefix stmt pos) <$> stmts scop) scop.

(** The first loop of [pet_scop_collect_schedule], from a value of
    [max_depth] and over the statements that are left. *)
Definition max_depth_from (start : Z) (l : list pet_stmt) : Z :=
  foldl (λ max_depth stmt,
           let depth := isl_map_dim (schedule stmt) isl_dim_out in
           if decide (max_depth < depth) then depth else max_depth)
        start l.

(** The maximal number of scheduling dimensions: the loop starts from
    zero. *)
Definition schedule_max_depth (scop : pet_scop_ext) : Z :=
  max_depth_from 0 (stmts scop).

(** The body of its second loop: the schedule of a statement, extended to
    [max_depth] dimensions that are fixed to zero. *)
Definition schedule_normalized (stmt : pet_stmt) (max_depth : Z) : isl_map :=
  let schedule_i := schedule stmt in
  let depth := isl_map_dim schedule_i isl_dim_out in
  let schedule_i := isl_map_add_dims schedule_i isl_dim_out (max_depth - depth) in
  foldl (λ schedule_i j, isl_map_fix_si schedule_i isl_dim_out j 0)
        schedule_i (seqZ depth (max_depth - depth)).

(** [pet_scop_collect_schedule]: the schedules of the statements in the
    scop, with the range normalized to the maximal number of scheduling
    dimensions. *)
Definition pet_scop_collect_schedule (scop : pet_scop_ext) : isl_union_map :=
  let schedule' := isl_union_map_empty (isl_set_get_space (context scop)) in
  let max_depth := schedule_max_depth scop in
  foldl (λ schedule' stmt,
           isl_union_map_add_map schedule' (schedule_normalized stmt max_depth))
        schedule' (stmts scop).

(** ** Comparing scops *)

(** The loops "for (i = 0; i < n; ++i) if (!equal(l1[i], l2[i])) return 0"
    of the comparisons, on two arrays of the same length. *)
Fixpoint all_equal {A} (equal : option A → option A → bool) (l1 l2 : list A) : bool :=
  match l1, l2 with
  | x :: l1, y :: l2 => if negb (equal (Some x) (Some y)) then false else all_equal equal l1 l2
  | _, _ => true
  end.

(** [pet_array_is_equal]: are the two arrays equivalent?  [element_size] is
    not compared as it may be target dependent. *)
Definition pet_array_is_equal (array1 array2 : option pet_array) : bool :=
  match array1, array2 with
  | Some array1, Some array2 =>
      if negb (isl_set_is_equal (array_context array1) (array_context array2)) then false
      else if negb (isl_set_is_equal (extent array1) (extent array2)) then false
      else if negb (eqb (bool_decide (is_Some (value_bounds array1)))
                        (bool_decide (is_Some (value_bounds array2)))) then false
      else if match value_bounds array1, value_bounds array2 with
              | Some b1, Some b2 => negb (isl_set_is_equal b1 b2)
              | _, _ => false
              end then false
      else if negb (bool_decide (element_type array1 = element_type array2)) then false
      else if negb (eqb (element_is_record array1) (element_is_record array2)) then false
      else if negb (eqb (live_out array1) (live_out array2)) then false
      else if negb (eqb (uniquely_defined array1) (uniquely_defined array2)) then false
      else if negb (eqb (declared array1) (declared array2)) then false
      else if negb (eqb (exposed array1) (exposed array2)) then false
      else true
  | _, _ => false
  end.

(** [pet_stmt_is_equal]: are the two statements equivalent? *)
Definition pet_stmt_is_equal (stmt1 stmt2 : option pet_stmt) : bool :=
  match stmt1, stmt2 with
  | Some stmt1, Some stmt2 =>
      if negb (bool_decide (pet_loc_get_line (stmt_loc stmt1)
                            = pet_loc_get_line (stmt_loc stmt2))) then false
      else if negb (isl_set_is_equal (domain stmt1) (domain stmt2)) then false
      else if negb (isl_map_is_equal (schedule stmt1) (schedule stmt2)) then false
      else if negb (pet_expr_is_equal (body stmt1) (body stmt2)) then false
      else if negb (bool_decide (n_arg stmt1 = n_arg stmt2)) then false
      else all_equal (λ a b, match a, b with
                             | Some a, Some b => pet_expr_is_equal a b
                             | _, _ => false
                             end) (args stmt1) (args stmt2)
  | _, _ => false
  end.

(** [pet_type_is_equal]: only the names of the types are compared, since
    the exact representation of the definition may depend on the version of
    clang being used. *)
Definition pet_type_is_equal (type1 type2 : option pet_type) : bool :=
  match type1, type2 with
  | Some type1, Some type2 =>
      if negb (bool_decide (type_name type1 = type_name type2)) then false else true
  | _, _ => false
  end.

(** [pet_implication_is_equal] *)
Definition pet_implication_is_equal (implication1 implication2 : option pet_implication)
    : bool :=
  match implication1, implication2 with
  | Some implication1, Some implication2 =>
      if negb (bool_decide (satisfied implication1 = satisfied implication2)) then false
      else if negb (isl_map_is_equal (extension implication1) (extension implication2))
      then false
      else true
  | _, _ => false
  end.

(** [pet_scop_is_equal]: are the two scops equivalent? *)
Definition pet_scop_is_equal (scop1 scop2 : option pet_scop_ext) : bool :=
  match scop1, scop2 with
  | Some scop1, Some scop2 =>
      if negb (isl_set_is_equal (context scop1) (context scop2)) then false
      else if negb (isl_set_is_equal (context_value scop1) (context_value scop2)) then false
      else if negb (bool_decide (n_type scop1 = n_type scop2)) then false
      else if negb (all_equal pet_type_is_equal (types scop1) (types scop2)) then false
      else if negb (bool_decide (n_array scop1 = n_array scop2)) then false
      else if negb (all_equal pet_array_is_equal (arrays scop1) (arrays scop2)) then false
      else if negb (bool_decide (n_stmt scop1 = n_stmt scop2)) then false
      else if negb (all_equal pet_stmt_is_equal (stmts scop1) (stmts scop2)) then false
      else if negb (bool_decide (n_implication scop1 = n_implication scop2)) then false
      else if negb (all_equal pet_implication_is_equal
                      (implications scop1) (implications scop2)) then false
      else true
  | _, _ => false
  end.

(** ** A scop from a statement *)

(** [access_extract_context]: update [context'] with respect to the valid
    parameter values for [access]. *)
Definition access_extract_context (access : isl_map) (context' : isl_set) : isl_set :=
  isl_set_intersect context' (isl_map_params access).

(** [expr_extract_context]: update [context'] with respect to the valid
    parameter values for [expr].  For a conditional operator, a parameter
    value needs to be valid for the condition and for at least one of the
    remaining two arguments; if the condition is affine, for the second
    argument where the condition is not zero and for the third where it is.
    [None] is undefined behaviour: the source reads [expr->args[0]],
    [expr->args[1]] and [expr->args[2]] of a conditional operator and the
    access relation of an affine condition without looking at [n_arg] or at
    the type of the condition. *)
Fixpoint expr_extract_context (expr : pet_expr) (context' : isl_set) : option isl_set :=
  let over_args :=
    fix over_args (args : list pet_expr) (context' : isl_set) : option isl_set :=
      match args with
      | [] => Some context'
      | arg :: args =>
          context' ← expr_extract_context arg context';
          over_args args context'
      end in
  match expr with
  | pet_expr_op pet_op_cond args =>
      match args with
      | arg0 :: arg1 :: arg2 :: _ =>
          let is_aff := pet_expr_is_affine arg0 in
          context' ← expr_extract_context arg0 context';
          context1 ← expr_extract_context arg1 context';
          context2 ← expr_extract_context arg2 context';
          if is_aff then
            match arg0 with
            | pet_expr_access acc _ =>
                let access := acc_access acc in
                let access := isl_map_fix_si access isl_dim_out 0 0 in
                let zero_set := isl_map_params access in
                let context1 := isl_set_subtract context1 zero_set in
                let context2 := isl_set_intersect context2 zero_set in
                Some (isl_set_coalesce (isl_set_union context1 context2))
            | pet_expr_op _ _ => None
            end
          else Some (isl_set_coalesce (isl_set_union context1 context2))
      | _ => None
      end
  | pet_expr_op _ args => over_args args context'
  | pet_expr_access acc args =>
      context' ← over_args args context';
      Some (access_extract_context (acc_access acc) context')
  end.

(** The loop "for (i = 0; i < n_arg; ++i) context =
    expr_extract_context(args[i], context)". *)
Fixpoint args_extract_context (args : list pet_expr) (context' : isl_set)
    : option isl_set :=
  match args with
  | [] => Some context'
  | arg :: args =>
      context' ← expr_extract_context arg context';
      args_extract_context args context'
  end.

(** [pet_stmt_is_assume]: is the statement an assume statement? *)
Definition pet_stmt_is_assume (stmt : pet_stmt) : bool :=
  pet_expr_is_assume (body stmt).

(** [stmt_extract_context]: update [context'] with respect to the valid
    parameter values for [stmt].  If the statement is an assume statement
    with an affine expression, then [context'] is intersected with that
    expression; otherwise with the contexts of the expressions inside the
    statement. *)
Definition stmt_extract_context (stmt : pet_stmt) (context' : isl_set) : option isl_set :=
  if pet_stmt_is_assume stmt then
    match pet_expr_args (body stmt) with
    | arg0 :: _ =>
        if pet_expr_is_affine arg0 then
          match arg0 with
          | pet_expr_access acc _ =>
              let index := acc_index acc in
              let pa := isl_multi_pw_aff_get_pw_aff index 0 in
              let cond := isl_set_params (isl_pw_aff_non_zero_set pa) in
              Some (isl_set_intersect context' cond)
          | pet_expr_op _ _ => None
          end
        else
          context' ← args_extract_context (args stmt) context';
          expr_extract_context (body stmt) context'
    | [] => None
    end
  else
    context' ← args_extract_context (args stmt) context';
    expr_extract_context (body stmt) context'.

(** [pet_scop_from_pet_stmt]: construct a scop that contains the given
    statement. *)
Definition pet_scop_from_pet_stmt (stmt : option pet_stmt) : M (option positive) :=
  match stmt with
  | None => mret None
  | Some stmt =>
      l ← scop_alloc 1;
      s ← load l;
      match stmt_extract_context stmt (context s) with
      | None => λ _, None
      | Some context' =>
          modify l (set_context context');;
          modify l (set_stmts [stmt]);;
          modify l (set_loc (stmt_loc stmt));;
          mret (Some l)
      end
  end.

End Queries.

(** ** What the proofs use of the further operations *)

(** More of isl's documented behaviour on the integer points of sets. *)
Class IslMoreSem `{IslMoreOps} `{!IslSem} := {
  mem_universe : ∀ space p, set_mem (isl_set_universe space) p = true;
  mem_from_params : ∀ c p, set_mem (isl_set_from_params c) p = set_mem c (pt_params p);
  mem_subtract : ∀ a b p,
    set_mem (isl_set_subtract a b) p = set_mem a p && negb (set_mem b p);
}.

Section Laws.
Context {isl : IslOps} {pet : PetOps} {isl_more : IslMoreOps} {pet_more : PetMoreOps}.

(** The comparisons of isl and of expr.c are equivalence relations. *)
Class EqualityLaws := {
  set_is_equal_refl : ∀ a, isl_set_is_equal a a = true;
  set_is_equal_sym : ∀ a b, isl_set_is_equal a b = isl_set_is_equal b a;
  set_is_equal_trans : ∀ a b c,
    isl_set_is_equal a b = true → isl_set_is_equal b c = true → isl_set_is_equal a c = true;
  map_is_equal_refl : ∀ a, isl_map_is_equal a a = true;
  map_is_equal_sym : ∀ a b, isl_map_is_equal a b = isl_map_is_equal b a;
  map_is_equal_trans : ∀ a b c,
    isl_map_is_equal a b = true → isl_map_is_equal b c = true → isl_map_is_equal a c = true;
  expr_is_equal_refl : ∀ a, pet_expr_is_equal a a = true;
  expr_is_equal_sym : ∀ a b, pet_expr_is_equal a b = pet_expr_is_equal b a;
  expr_is_equal_trans : ∀ a b c,
    pet_expr_is_equal a b = true → pet_expr_is_equal b c = true → pet_expr_is_equal a c = true;
}.

(** The number of dimensions of a relation after dimensions were added or
    fixed. *)
Class DimLaws := {
  map_dim_add_dims : ∀ m type n,
    0 ≤ n → isl_map_dim (isl_map_add_dims m type n) type = isl_map_dim m type + n;
  map_dim_insert_dims : ∀ m type pos n,
    0 ≤ n → isl_map_dim (isl_map_insert_dims m type pos n) type = isl_map_dim m type + n;
  map_dim_fix_si : ∀ m type pos v type',
    isl_map_dim (isl_map_fix_si m type pos v) type' = isl_map_dim m type';
  map_dim_nonneg : ∀ m type, 0 ≤ isl_map_dim m type;
}.

End Laws.

(** ** The small provider, continued *)

Module SymMore.
Import Sym.

#[global] Instance pet_op_type_eq_dec : EqDecision (@pet_op_type).
Proof. solve_decision. Defined.

#[global] Instance pet_expr_acc_eq_dec : EqDecision (@pet_expr_acc Sym.ops).
Proof. solve_decision. Defined.

Fixpoint pet_expr_eq_dec (a b : @pet_expr Sym.ops) {struct a} : Decision (a = b).
Proof.
  refine
    match a, b with
    | pet_expr_access acc1 args1, pet_expr_access acc2 args2 =>
        cast_if_and (decide (acc1 = acc2)) (list_eq_dec (dec := pet_expr_eq_dec) args1 args2)
    | pet_expr_op op1 args1, pet_expr_op op2 args2 =>
        cast_if_and (decide (op1 = op2)) (list_eq_dec (dec := pet_expr_eq_dec) args1 args2)
    | _, _ => right _
    end; abstract congruence.
Defined.

#[global] Instance pet_expr_eq_decision : EqDecision (@pet_expr Sym.ops) := pet_expr_eq_dec.

(** The number of dimensions of a relation: those that were added to it. *)
Fixpoint map_dim (m : tm) (type : isl_dim_type) : nat :=
  match m with
  | TApp (TApp (TApp (TSym "isl_map_add_dims") m') (TDim type')) (TInt n) =>
      (map_dim m' type + (if decide (type = type') then Z.to_nat n else 0))%nat
  | TApp (TApp (TApp (TApp (TSym "isl_map_insert_dims") m') (TDim type')) (TInt _)) (TInt n) =>
      (map_dim m' type + (if decide (type = type') then Z.to_nat n else 0))%nat
  | TApp (TApp (TApp (TApp (TSym "isl_map_fix_si") m') (TDim _)) (TInt _)) (TInt _) =>
      map_dim m' type
  | _ => 0%nat
  end.

#[global] Instance more_ops : IslMoreOps := {|
  isl_set_is_equal a b := bool_decide (a = b);
  isl_set_dim s type := 1;
  isl_set_lower_bound_si s type pos v :=
    call "isl_set_lower_bound_si" [s; TDim type; TInt pos; TInt v];
  isl_set_upper_bound_si s type pos v :=
    call "isl_set_upper_bound_si" [s; TDim type; TInt pos; TInt v];
  isl_space_set_alloc nparam dim := call "isl_space_set_alloc" [TInt nparam; TInt dim];
  isl_map_dim m type := Z.of_nat (map_dim m type);
  isl_map_fix_si m type pos v := call "isl_map_fix_si" [m; TDim type; TInt pos; TInt v];
  isl_map_intersect_domain m s := call "isl_map_intersect_domain" [m; s];
  isl_map_params m := call "isl_map_params" [m];
  isl_map_range m := call "isl_map_range" [m];
  isl_union_map_empty space := call "isl_union_map_empty" [space];
  isl_union_map_add_map u m := call "isl_union_map_add_map" [u; m];
|}.

#[global] Instance pet_more_ops : PetMoreOps := {|
  pet_expr_is_equal a b := bool_decide (a = b);
  pet_expr_is_affine expr :=
    match expr with
    | pet_expr_access acc _ => negb (isl_multi_pw_aff_has_tuple_id (acc_index acc) isl_dim_out)
    | pet_expr_op _ _ => false
    end;
  pet_expr_is_assume expr :=
    match expr with
    | pet_expr_op pet_op_assume _ => true
    | _ => false
    end;
  pet_loc_get_line loc :=
    match loc with
    | pet_loc_dummy => -1
    | PetLoc _ _ line => line
    end;
  pet_prefix_projection space n := call "pet_prefix_projection" [space; TInt n];
|}.

(** Scops and relations for the examples of the rest of scop.c. *)
Definition schedule_of (depth : Z) : tm :=
  isl_map_add_dims (TSym "schedule") isl_dim_out depth.

Definition stmt_scheduled (name : string) (u : positive) (depth : Z) : pet_stmt :=
  {| stmt_loc := PetLoc 0 10 1;
     domain := TSetTupleId (TUniv (TSym "space")) (Tid name (Some u));
     schedule := schedule_of depth;
     body := pet_expr_op (pet_op_other 0) [];
     args := [] |}.

Definition scop_scheduled : pet_scop_ext :=
  Examples.scop_of (PetLoc 0 10 1) [] []
    [stmt_scheduled "S" 1 1; stmt_scheduled "T" 2 3] [].

Definition implication_on (name : string) (satisfied' : Z) : pet_implication :=
  PetImplication (TLexLe (Tid name None)) satisfied'.

Definition scop_S_implying : pet_scop_ext :=
  set_implications [implication_on "__pet_test_0" 1] Examples.scop_S.

Definition scop_T_implying : pet_scop_ext :=
  set_implications [implication_on "__pet_test_0" 1; implication_on "__pet_test_1" 0]
    Examples.scop_T.

(** The statement "assume(n >= c)" on the first parameter [n]: an assume
    statement whose condition is affine. *)
Definition stmt_assume (c : Z) : pet_stmt :=
  {| stmt_loc := PetLoc 0 10 1;
     domain := TUniv (TSym "space");
     schedule := TSym "schedule";
     body := pet_expr_op pet_op_assume [pet_expr_from_index (Examples.affine_skip c)];
     args := [] |}.

End SymMore.

(** * Proofs *)

(** ** The small provider satisfies the laws *)

Module SymLaws.
Import Sym.

Lemma mem_conjuncts (t : tm) (p : tpoint) :
  mem t p = forallb (λ k, mem k p) (conjuncts t).
Proof.
  revert p.
  induction t; intros p; simpl; rewrite ?andb_true_r; try reflexivity.
  - rewrite forallb_app. by rewrite <- IHt1, <- IHt2.
  - rewrite forallb_app, <- IHt1. f_equal.
    rewrite IHt2. clear. induction (conjuncts t2) as [|k l IH]; simpl; [done|].
    by rewrite IH.
Qed.

Lemma mem_conj_all (space : tm) (l : list tm) (p : tpoint) :
  mem (conj_all space l) p = forallb (λ k, mem k p) l.
Proof. induction l as [|k l IH]; simpl; [done|]. by rewrite IH. Qed.

Lemma mem_gist (s c : tm) (p : tpoint) :
  mem c p = true → mem (gist s c) p = mem s p.
Proof.
  intros Hc. unfold gist. rewrite mem_conj_all, (mem_conjuncts s).
  rewrite (mem_conjuncts c) in Hc. rewrite forallb_forall in Hc.
  induction (conjuncts s) as [|k l IH]; simpl; [done|].
  rewrite filter_cons. destruct (decide (k ∉ conjuncts c)) as [Hk|Hk].
  - simpl. by rewrite IH.
  - rewrite IH. apply dec_stable in Hk.
    rewrite (Hc k); [done|]. by apply list_elem_of_In.
Qed.

Lemma mem_gist_params (s c : tm) (p : tpoint) :
  mem c (params_of p) = true → mem (gist_params s c) p = mem s p.
Proof. intros Hc. apply mem_gist. simpl. exact Hc. Qed.

#[global, refine] Instance sem : IslSem := {
  point := tpoint;
  pt_params := params_of;
  set_mem := mem;
  pw_eval := eval;
}.
Proof.
  - done.
  - done.
  - done.
  - done.
  - done.
  - intros s Hs q. simpl. destruct (mem s q) eqn:Hq; [|by rewrite andb_false_r].
    apply Hs in Hq. destruct q as [par crd]. unfold params_of in Hq. simpl in *.
    rewrite andb_true_r. apply bool_decide_eq_true. congruence.
  - exact mem_gist.
  - exact mem_gist_params.
  - done.
  - done.
  - done.
  - done.
  - done.
  - done.
  - done.
  - done.
  - done.
  - intros m. unfold isl_map_is_subset; simpl. unfold is_subset.
    by rewrite bool_decide_eq_true_2.
Defined.

#[global, refine] Instance pet_sem : PetSem := {
  nested_eq := eq;
}.
Proof.
  intros s p. simpl. split.
  - intros Hp. by exists p.
  - by intros (q & -> & Hq).
Defined.

End SymLaws.

(** ** Loop embedding and the arrays of a scop *)

Section EmbeddingProofs.
Context {isl : IslOps} {pet : PetOps} {sem : IslSem}.

Lemma extent_is_virtual_array_spec (extent' : isl_set) :
  extent_is_virtual_array extent' = true
  ↔ isl_set_has_tuple_id extent' = true
    ∧ isl_set_is_wrapping extent' = false
    ∧ isl_id_get_user (isl_set_get_tuple_id extent') = None.
Proof.
  unfold extent_is_virtual_array.
  destruct (isl_set_has_tuple_id extent'), (isl_set_is_wrapping extent'); simpl;
    rewrite ?bool_decide_eq_true; intuition congruence.
Qed.

Lemma pet_array_embed_virtual (array : pet_array) (dom : isl_set) :
  extent_is_virtual_array (extent array) = true →
  pet_array_embed array dom
  = set_extent
      (isl_set_set_tuple_id (isl_set_flat_product dom (extent array))
         (isl_set_get_tuple_id (extent array))) array.
Proof. intros Hv. unfold pet_array_embed. by rewrite Hv. Qed.

Lemma pet_array_embed_not_virtual (array : pet_array) (dom : isl_set) :
  extent_is_virtual_array (extent array) = false →
  pet_array_embed array dom = array.
Proof. intros Hv. unfold pet_array_embed. by rewrite Hv. Qed.

Lemma pet_scop_embed_arrays (scop : pet_scop_ext) (dom : isl_set) (sched iv_map' : isl_aff)
    (id : isl_id) :
  arrays (pet_scop_embed scop dom sched iv_map' id)
  = (λ array, pet_array_embed array dom) <$> arrays scop.
Proof. reflexivity. Qed.

(** C7, as amended.  Loop embedding rewrites the arrays of a scop one by one
    with [pet_array_embed] and changes nothing else of an array than its
    extent.  An array is virtual when its extent has a tuple identifier, is
    not a wrapped relation and the identifier carries a null user pointer.
    The extent of a virtual array becomes the flat product of the new loop
    domain with the old extent, under the tuple identifier the extent had;
    every other array is returned unchanged. *)
Theorem embed_grows_virtual_arrays_only (scop : pet_scop_ext) (dom : isl_set)
    (sched iv_map' : isl_aff) (id : isl_id) :
  arrays (pet_scop_embed scop dom sched iv_map' id)
  = (λ array, pet_array_embed array dom) <$> arrays scop
  ∧ ∀ array,
      (extent_is_virtual_array (extent array) = true
       ↔ isl_set_has_tuple_id (extent array) = true
         ∧ isl_set_is_wrapping (extent array) = false
         ∧ isl_id_get_user (isl_set_get_tuple_id (extent array)) = None)
      ∧ (extent_is_virtual_array (extent array) = true →
         pet_array_embed array dom
         = set_extent
             (isl_set_set_tuple_id (isl_set_flat_product dom (extent array))
                (isl_set_get_tuple_id (extent array))) array
         ∧ isl_set_get_tuple_id (extent (pet_array_embed array dom))
           = isl_set_get_tuple_id (extent array))
      ∧ (extent_is_virtual_array (extent array) = false →
         pet_array_embed array dom = array).
Proof.
  split; [apply pet_scop_embed_arrays|].
  intros array. split; [apply extent_is_virtual_array_spec|]. split.
  - intros Hv. rewrite (pet_array_embed_virtual _ _ Hv). split; [done|].
    destruct array; simpl. apply set_tuple_id_get.
  - apply pet_array_embed_not_virtual.
Qed.

End EmbeddingProofs.

(** ** Restriction to a parameter condition *)

Section RestrictProofs.
Context {isl : IslOps} {pet : PetOps} {sem : IslSem} {petsem : PetSem}.

Lemma skip_set_skip (type type' : pet_skip) v (scop : pet_scop_ext) :
  skip (set_skip type v scop) type' = if decide (type = type') then v else skip scop type'.
Proof. by destruct type, type'. Qed.

Lemma set_skip_id (type : pet_skip) (scop : pet_scop_ext) :
  set_skip type (skip scop type) scop = scop.
Proof. by destruct type, scop. Qed.

Lemma pet_scop_restrict_skip_ok (scop scop' : pet_scop_ext) (type : pet_skip) (cond : isl_set) :
  pet_scop_restrict_skip scop type cond = Ok scop' →
  scop' = set_skip type (restricted_skip cond <$> skip scop type) scop
  ∧ ∀ k, skip scop type = Some k → multi_pw_aff_is_affine k = true.
Proof.
  unfold pet_scop_restrict_skip. destruct (skip scop type) as [k|] eqn:Hk.
  - destruct (multi_pw_aff_is_affine k) eqn:Haff; simpl; [|done].
    intros [= <-]. split; [done|]. by intros ? [= <-].
  - intros [= <-]. split; [|done]. simpl. by rewrite <- Hk, set_skip_id.
Qed.

Lemma pet_scop_restrict_skip_affine (scop : pet_scop_ext) (type : pet_skip) (cond : isl_set) :
  (∀ k, skip scop type = Some k → multi_pw_aff_is_affine k = true) →
  pet_scop_restrict_skip scop type cond
  = Ok (set_skip type (restricted_skip cond <$> skip scop type) scop).
Proof.
  intros Haff. unfold pet_scop_restrict_skip. destruct (skip scop type) as [k|] eqn:Hk.
  - by rewrite (Haff k eq_refl).
  - simpl. by rewrite <- Hk, set_skip_id.
Qed.

Lemma restricted_skip_affine (cond : isl_set) (k : isl_multi_pw_aff) :
  multi_pw_aff_is_affine (restricted_skip cond k) = true.
Proof.
  unfold multi_pw_aff_is_affine, restricted_skip.
  by rewrite from_pw_aff_has_no_tuple_id.
Qed.

(** The restricted skip condition is defined where the skip condition was;
    it holds where the skip condition held and [cond] holds. *)
Lemma eval_restricted_skip (cond : isl_set) (k : isl_multi_pw_aff) (p : point) :
  pw_eval (isl_multi_pw_aff_get_pw_aff (restricted_skip cond k) 0) p
  = match pw_eval (isl_multi_pw_aff_get_pw_aff k 0) p with
    | Some v =>
        Some (if set_mem (isl_set_from_params cond) p && bool_decide (v ≠ 0) then 1 else 0)
    | None => None
    end.
Proof.
  unfold restricted_skip, indicator_function.
  rewrite eval_get_from_pw_aff, eval_intersect_domain, mem_pw_aff_domain.
  rewrite eval_indicator_function, mem_intersect, mem_pw_aff_non_zero_set.
  by destruct (pw_eval (isl_multi_pw_aff_get_pw_aff k 0) p) as [v|].
Qed.

Lemma eval_restricted_skip_twice (cond : isl_set) (k : isl_multi_pw_aff) (p : point) :
  pw_eval (isl_multi_pw_aff_get_pw_aff (restricted_skip cond (restricted_skip cond k)) 0) p
  = pw_eval (isl_multi_pw_aff_get_pw_aff (restricted_skip cond k) 0) p.
Proof.
  rewrite (eval_restricted_skip cond (restricted_skip cond k)).
  rewrite eval_restricted_skip.
  destruct (pw_eval (isl_multi_pw_aff_get_pw_aff k 0) p) as [v|]; [|done].
  destruct (set_mem (isl_set_from_params cond) p), (bool_decide (v ≠ 0)); done.
Qed.

Lemma mem_restricted_context (context' cond : isl_set) (p : point) :
  set_mem (restricted_context context' cond) p = true
  ↔ ∃ q, nested_eq p q
         ∧ (set_mem context' q && set_mem cond q || negb (set_mem cond q)) = true.
Proof.
  unfold restricted_context. rewrite mem_nested_remove.
  by setoid_rewrite mem_coalesce; setoid_rewrite mem_union;
     setoid_rewrite mem_intersect; setoid_rewrite mem_complement.
Qed.

Lemma restricted_context_twice (context' cond : isl_set) :
  set_equiv (restricted_context context' cond)
            (restricted_context (restricted_context context' cond) cond).
Proof.
  intros p. apply eq_true_iff_eq.
  rewrite (mem_restricted_context (restricted_context context' cond)).
  split.
  - intros Hp. exists p. split; [reflexivity|].
    rewrite Hp. simpl. by destruct (set_mem cond p).
  - intros (q & Hpq & Hq).
    destruct (set_mem cond q) eqn:Hc; simpl in Hq.
    + rewrite andb_true_r, orb_false_r in Hq.
      apply mem_restricted_context in Hq as (r & Hqr & Hr).
      apply mem_restricted_context. exists r. split; [|done]. by transitivity q.
    + apply mem_restricted_context. exists q. split; [done|]. by rewrite Hc, orb_true_r.
Qed.

Lemma pet_scop_restrict_ok (scop scop1 : pet_scop_ext) (cond : isl_set) :
  pet_scop_restrict scop cond = Ok scop1 →
  scop1
  = PetScop (loc scop) (restricted_context (context scop) cond) (context_value scop)
      (types scop) (arrays scop) ((λ stmt, stmt_restrict stmt cond) <$> stmts scop)
      (implications scop)
      (restricted_skip cond <$> skip_now scop) (restricted_skip cond <$> skip_later scop)
      (input scop)
  ∧ ∀ type k, skip scop type = Some k → multi_pw_aff_is_affine k = true.
Proof.
  unfold pet_scop_restrict. unfold mbind, isl_result_mbind, isl_result_bind.
  destruct (pet_scop_restrict_skip scop pet_skip_now cond) as [sa|] eqn:Ha; [|done].
  destruct (pet_scop_restrict_skip sa pet_skip_later cond) as [sb|] eqn:Hb; [|done].
  apply pet_scop_restrict_skip_ok in Ha as [-> Ha], Hb as [-> Hb].
  intros [= <-]. split; [by destruct scop|].
  intros [] k Hk; [by apply Ha|]. apply Hb. by destruct scop.
Qed.

Lemma pet_scop_restrict_affine (scop : pet_scop_ext) (cond : isl_set) :
  (∀ type k, skip scop type = Some k → multi_pw_aff_is_affine k = true) →
  ∃ scop1, pet_scop_restrict scop cond = Ok scop1.
Proof.
  intros Haff. unfold pet_scop_restrict.
  rewrite pet_scop_restrict_skip_affine by apply Haff.
  unfold mbind, isl_result_mbind, isl_result_bind.
  rewrite pet_scop_restrict_skip_affine; [by eexists|].
  intros k. rewrite skip_set_skip. simpl. apply (Haff pet_skip_later).
Qed.

(** C8.  When [pet_scop_restrict] succeeds on a scop and a parameter
    condition, it succeeds again on its result with the same condition, and
    the second result is equivalent to the first: the same points in the
    context and in every statement domain, the same values of the skip
    conditions, everything else equal.  The context of the result holds the
    parameter values of the original context that satisfy the condition
    and those that do not satisfy the condition (with the parameters of
    nested accesses projected out). *)
Theorem restrict_idempotent (scop scop1 : pet_scop_ext) (cond : isl_set) :
  pet_scop_restrict scop cond = Ok scop1 →
  (∃ scop2, pet_scop_restrict scop1 cond = Ok scop2 ∧ scop_equiv scop1 scop2)
  ∧ ∀ p, set_mem (context scop1) p = true
         ↔ ∃ q, nested_eq p q
                ∧ (set_mem (context scop) q && set_mem cond q || negb (set_mem cond q)) = true.
Proof.
  intros H1. apply pet_scop_restrict_ok in H1 as [-> Haff]. split.
  - destruct (pet_scop_restrict_affine
                (PetScop (loc scop) (restricted_context (context scop) cond)
                   (context_value scop) (types scop) (arrays scop)
                   ((λ stmt, stmt_restrict stmt cond) <$> stmts scop) (implications scop)
                   (restricted_skip cond <$> skip_now scop)
                   (restricted_skip cond <$> skip_later scop) (input scop)) cond)
      as [scop2 H2].
    { intros [] k; simpl.
      - destruct (skip_now scop); intros [= <-]. apply restricted_skip_affine.
      - destruct (skip_later scop); intros [= <-]. apply restricted_skip_affine. }
    exists scop2. split; [done|].
    apply pet_scop_restrict_ok in H2 as [-> _]. simpl.
    repeat split; simpl; try done.
    + apply restricted_context_twice.
    + rewrite <- list_fmap_compose. apply Forall2_fmap, Forall_Forall2_diag, Forall_forall.
      intros stmt _. repeat split. intros p. simpl.
      rewrite !mem_intersect_params. by destruct (set_mem (domain stmt) p), (set_mem cond _).
    + destruct (skip_now scop) as [k|]; simpl; [|done]. split.
      * by rewrite !restricted_skip_affine.
      * intros p. symmetry. apply eval_restricted_skip_twice.
    + destruct (skip_later scop) as [k|]; simpl; [|done]. split.
      * by rewrite !restricted_skip_affine.
      * intros p. symmetry. apply eval_restricted_skip_twice.
  - intros p. apply mem_restricted_context.
Qed.

End RestrictProofs.

(** ** Gist *)

Section GistProofs.
Context {isl : IslOps} {pet : PetOps} {sem : IslSem}.

Lemma array_gist_extent (array : pet_array) (context' : isl_set) (p : point) :
  set_mem context' (pt_params p) = true →
  set_mem (extent (array_gist array context')) p = set_mem (extent array) p.
Proof. intros Hp. destruct array; simpl. by apply mem_gist_params. Qed.

Lemma stmt_gist_domain (stmt : pet_stmt) (context' : isl_set) (value_bounds' : isl_union_map)
    (p : point) :
  set_mem (stmt_gist_context stmt (args (stmt_gist stmt context' value_bounds'))
             context' value_bounds') p = true →
  set_mem (domain (stmt_gist stmt context' value_bounds')) p = set_mem (domain stmt) p.
Proof. intros Hp. simpl. by apply mem_gist. Qed.

(** C9, as amended.  [pet_scop_gist] keeps the points of the context
    (it is only coalesced), hands the extent of every array to
    [isl_set_gist_params], the iteration domain of every statement to
    [isl_set_gist] and bodies and arguments to [pet_expr_gist], and leaves
    everything else as it is.  A point whose parameter values lie in the
    context of the scop is in the extent of an array after the gist iff it
    was before; a point of the context that [stmt_gist] computes for a
    statement (the universe of the statement space at the parameter values
    of the scop's context, with the value bounds of the arguments when
    there are arguments) is in the iteration domain after the gist iff it
    was before.  Nothing is promised on the other points. *)
Theorem gist_keeps_points_of_context (scop : pet_scop_ext) (value_bounds' : isl_union_map) :
  set_equiv (context (pet_scop_gist scop value_bounds')) (context scop)
  ∧ Forall2
      (λ array array',
         array' = set_extent (extent array') array
         ∧ ∀ p, set_mem (context scop) (pt_params p) = true →
                set_mem (extent array') p = set_mem (extent array) p)
      (arrays scop) (arrays (pet_scop_gist scop value_bounds'))
  ∧ Forall2
      (λ stmt stmt',
         stmt' = stmt_gist stmt (isl_set_coalesce (context scop)) value_bounds'
         ∧ stmt_loc stmt' = stmt_loc stmt ∧ schedule stmt' = schedule stmt
         ∧ length (args stmt') = length (args stmt)
         ∧ ∀ p, set_mem (stmt_gist_context stmt (args stmt')
                           (isl_set_coalesce (context scop)) value_bounds') p = true →
                set_mem (domain stmt') p = set_mem (domain stmt) p)
      (stmts scop) (stmts (pet_scop_gist scop value_bounds'))
  ∧ loc (pet_scop_gist scop value_bounds') = loc scop
  ∧ context_value (pet_scop_gist scop value_bounds') = context_value scop
  ∧ types (pet_scop_gist scop value_bounds') = types scop
  ∧ implications (pet_scop_gist scop value_bounds') = implications scop
  ∧ skip (pet_scop_gist scop value_bounds') pet_skip_now = skip scop pet_skip_now
  ∧ skip (pet_scop_gist scop value_bounds') pet_skip_later = skip scop pet_skip_later.
Proof.
  split; [intros p; apply mem_coalesce|].
  split.
  { simpl. apply Forall2_fmap_r, Forall_Forall2_diag, Forall_forall.
    intros array _. split; [by destruct array|].
    intros p Hp. apply array_gist_extent. by rewrite mem_coalesce. }
  split; [|done].
  simpl. apply Forall2_fmap_r, Forall_Forall2_diag, Forall_forall.
  intros stmt _. split; [done|]. split; [done|]. split; [done|]. split.
  - simpl. by rewrite length_fmap.
  - intros p. apply stmt_gist_domain.
Qed.

(** Without arguments, the context of [stmt_gist] is the universe of the
    statement space at the parameter values of the given context. *)
Lemma stmt_gist_context_no_args (stmt : pet_stmt) (context' : isl_set)
    (value_bounds' : isl_union_map) (p : point) :
  args stmt = [] →
  set_mem (stmt_gist_context stmt [] context' value_bounds') p
  = set_mem (isl_set_universe (pet_stmt_get_space stmt)) p
    && set_mem context' (pt_params p).
Proof.
  intros Hargs. unfold stmt_gist_context, n_arg. rewrite Hargs. simpl.
  apply mem_intersect_params.
Qed.

End GistProofs.

(** ** Filtering *)

Section FilterProofs.
Context {isl : IslOps} {pet : PetOps} {sem : IslSem}.

Lemma stmt_filter_unfold (scop : pet_scop_ext) (stmt : pet_stmt) (test : isl_multi_pw_aff)
    (satisfied' : Z) :
  stmt_filter scop stmt test satisfied'
  = if filter_implied scop stmt (extend_test stmt test) satisfied' then stmt
    else
      PetStmt (stmt_loc stmt)
        (isl_set_preimage_pw_multi_aff (domain stmt)
           (pet_filter_insert_pma (isl_set_get_space (domain stmt))
              (isl_multi_pw_aff_get_tuple_id (extend_test stmt test) isl_dim_out)
              satisfied'))
        (schedule stmt) (body stmt)
        (pet_expr_from_index (extend_test stmt test) :: args stmt).
Proof. reflexivity. Qed.

(** A statement that is left alone has its filter implied; one that is not
    gets exactly one more argument, in front. *)
Lemma stmt_filter_cases (scop : pet_scop_ext) (stmt : pet_stmt) (test : isl_multi_pw_aff)
    (satisfied' : Z) :
  (filter_implied scop stmt (extend_test stmt test) satisfied' = true
   ∧ stmt_filter scop stmt test satisfied' = stmt)
  ∨ (filter_implied scop stmt (extend_test stmt test) satisfied' = false
     ∧ args (stmt_filter scop stmt test satisfied')
       = pet_expr_from_index (extend_test stmt test) :: args stmt
     ∧ domain (stmt_filter scop stmt test satisfied')
       = isl_set_preimage_pw_multi_aff (domain stmt)
           (pet_filter_insert_pma (isl_set_get_space (domain stmt))
              (isl_multi_pw_aff_get_tuple_id (extend_test stmt test) isl_dim_out)
              satisfied')
     ∧ stmt_loc (stmt_filter scop stmt test satisfied') = stmt_loc stmt
     ∧ schedule (stmt_filter scop stmt test satisfied') = schedule stmt
     ∧ body (stmt_filter scop stmt test satisfied') = body stmt).
Proof.
  rewrite stmt_filter_unfold.
  destruct (filter_implied scop stmt (extend_test stmt test) satisfied'); [by left|by right].
Qed.

(** [apply_implications] applies the first implication for the array and
    the value, if there is one. *)
Lemma apply_implications_spec (scop : pet_scop_ext) (map : isl_map) (id : isl_id)
    (satisfied' : Z) :
  apply_implications scop map id satisfied'
  = extended_by_implication scop map id satisfied'.
Proof.
  unfold apply_implications, extended_by_implication, implication_for.
  induction (implications scop) as [|pi pis IH]; [done|].
  cbn [apply_implications_from list_find].
  destruct (decide (satisfied pi ≠ satisfied')) as [Hs|Hs].
  { rewrite decide_False by (by intros [? _]). rewrite IH.
    by destruct (list_find _ pis) as [[? ?]|]. }
  apply dec_stable in Hs.
  destruct (decide (isl_map_get_tuple_id (extension pi) isl_dim_in ≠ id)) as [Hi|Hi].
  { rewrite decide_False by (by intros [_ ?]). rewrite IH.
    by destruct (list_find _ pis) as [[? ?]|]. }
  apply dec_stable in Hi. by rewrite decide_True.
Qed.

Lemma implies_filter_spec (scop : pet_scop_ext) (domain' : isl_map) (pos : Z)
    (expr : pet_expr) (test : isl_map) (satisfied' : Z) :
  implies_filter scop domain' pos expr test satisfied' = true
  ↔ ∃ acc args',
      expr = pet_expr_access acc args'
      ∧ isl_multi_pw_aff_get_tuple_id (acc_index acc) isl_dim_out
        = isl_map_get_tuple_id test isl_dim_out
      ∧ isl_val_is_int (isl_map_plain_get_val_if_fixed domain' isl_dim_out pos) = true
      ∧ isl_val_get_num_si (isl_map_plain_get_val_if_fixed domain' isl_dim_out pos)
        = satisfied'
      ∧ isl_map_is_subset test
          (extended_by_implication scop (acc_access acc)
             (isl_map_get_tuple_id test isl_dim_out) satisfied') = true.
Proof.
  destruct expr as [acc args'|op args']; simpl.
  2:{ split; [done|]. by intros (? & ? & ? & _). }
  rewrite apply_implications_spec.
  destruct (decide (Some (isl_map_get_tuple_id test isl_dim_out)
                    ≠ Some (isl_multi_pw_aff_get_tuple_id (acc_index acc) isl_dim_out)))
    as [Hid|Hid].
  { split; [done|]. intros (? & ? & ? & Heq & _). simplify_eq. by rewrite Heq in Hid. }
  apply dec_stable in Hid. simplify_eq.
  destruct (isl_val_is_int (isl_map_plain_get_val_if_fixed domain' isl_dim_out pos));
    simpl.
  2:{ split; [done|]. by intros (? & ? & ? & _ & ? & _). }
  destruct (decide (isl_val_get_num_si
                      (isl_map_plain_get_val_if_fixed domain' isl_dim_out pos)
                    ≠ satisfied')) as [Hv|Hv].
  { split; [done|]. by intros (? & ? & ? & _ & _ & ? & _). }
  apply dec_stable in Hv. split.
  - intros Hsub. by exists acc, args'.
  - intros (? & ? & ? & _ & _ & _ & Hsub). by simplify_eq.
Qed.

Lemma filter_implied_from_spec (scop : pet_scop_ext) (domain' : isl_map) (i : Z)
    (args : list pet_expr) (test_map : isl_map) (satisfied' : Z) :
  filter_implied_from scop domain' i args test_map satisfied' = true
  ↔ ∃ (pos : nat) arg,
      args !! pos = Some arg
      ∧ implies_filter scop domain' (i + Z.of_nat pos) arg test_map satisfied' = true.
Proof.
  revert i. induction args as [|arg args IH]; intros i; simpl.
  { split; [done|]. by intros (? & ? & ? & _). }
  destruct (implies_filter scop domain' i arg test_map satisfied') eqn:Harg.
  { split; [|done]. intros _. exists 0%nat, arg. split; [done|].
    by rewrite Z.add_0_r. }
  rewrite IH. split.
  - intros (pos & arg' & Hpos & Himp). exists (S pos), arg'. split; [done|].
    by replace (i + Z.of_nat (S pos)) with (i + 1 + Z.of_nat pos) by lia.
  - intros ([|pos] & arg' & Hpos & Himp); simpl in Hpos.
    { simplify_eq. rewrite Z.add_0_r in Himp. congruence. }
    exists pos, arg'. split; [done|].
    by replace (i + 1 + Z.of_nat pos) with (i + Z.of_nat (S pos)) by lia.
Qed.

(** [filter_implied] answers yes exactly when the filter is already
    proved. *)
Lemma filter_implied_spec (scop : pet_scop_ext) (stmt : pet_stmt)
    (test : isl_multi_pw_aff) (satisfied' : Z) :
  filter_implied scop stmt test satisfied' = true
  ↔ filter_already_proved scop stmt test satisfied'.
Proof.
  unfold filter_implied, filter_already_proved, n_implication, n_arg.
  destruct (decide (length (implications scop) = 0%nat)) as [Hi|Hi].
  { apply nil_length_inv in Hi. split; [done|]. by intros [? _]. }
  assert (implications scop ≠ []) as Hne by (by destruct (implications scop)).
  destruct (decide (length (args stmt) = 0%nat)) as [Ha|Ha].
  { apply nil_length_inv in Ha. split; [done|]. rewrite Ha.
    by intros (_ & ? & ? & ? & ? & _). }
  rewrite filter_implied_from_spec. split.
  - intros (pos & arg & Hpos & Himp). split; [done|].
    apply implies_filter_spec in Himp as (acc & args' & -> & Hid & Hint & Hval & Hsub).
    rewrite Z.add_0_l in Hint, Hval. by exists pos, acc, args'.
  - intros (_ & pos & acc & args' & Hpos & Hid & Hint & Hval & Hsub).
    exists pos, (pet_expr_access acc args'). split; [done|].
    apply implies_filter_spec. exists acc, args'. by rewrite Z.add_0_l.
Qed.

(** Without implications no filter is ever found to be implied. *)
Lemma filter_implied_no_implications (scop : pet_scop_ext) (stmt : pet_stmt)
    (test : isl_multi_pw_aff) (satisfied' : Z) :
  implications scop = [] → filter_implied scop stmt test satisfied' = false.
Proof. intros Hi. unfold filter_implied, n_implication. by rewrite Hi. Qed.

Lemma filter_implied_same_implications (scop scop' : pet_scop_ext) (stmt : pet_stmt)
    (test : isl_multi_pw_aff) (satisfied' : Z) :
  implications scop = implications scop' →
  filter_implied scop stmt test satisfied' = filter_implied scop' stmt test satisfied'.
Proof.
  intros Hi. unfold filter_implied, n_implication. rewrite Hi.
  repeat case_decide; try done.
  generalize 0. induction (args stmt) as [|arg args' IH]; intros i; simpl; [done|].
  rewrite IH. f_equal. unfold implies_filter, apply_implications. by rewrite Hi.
Qed.

Lemma apply_implications_contains (scop : pet_scop_ext) (test_map : isl_map)
    (satisfied' : Z) :
  implications_contain scop test_map satisfied' →
  isl_map_is_subset test_map
    (apply_implications scop test_map (isl_map_get_tuple_id test_map isl_dim_out) satisfied')
  = true.
Proof.
  unfold implications_contain, apply_implications.
  induction (implications scop) as [|pi pis IH]; intros Hc; simpl.
  - apply map_is_subset_refl.
  - case_decide as H1.
    { apply IH. intros pi' Hpi'. apply Hc. by right. }
    case_decide as H2.
    { apply IH. intros pi' Hpi'. apply Hc. by right. }
    apply Hc; [by left|done..].
Qed.

(** The filter that [stmt_filter] has just inserted is found by
    [filter_implied], provided the scop has an implication at all, the
    inserted filter is recognised as fixed to the value and the implications
    that apply keep the test. *)
Lemma inserted_filter_implied (scop : pet_scop_ext) (stmt : pet_stmt)
    (test : isl_multi_pw_aff) (satisfied' : Z) :
  implications scop ≠ [] →
  args stmt = pet_expr_from_index test :: tail (args stmt) →
  first_filter_fixed_to stmt satisfied' →
  implications_contain scop (isl_map_from_multi_pw_aff test) satisfied' →
  filter_implied scop stmt test satisfied' = true.
Proof.
  intros Hi Hargs [Hint Hval] Hc. unfold filter_implied, n_implication, n_arg.
  rewrite decide_False by (by destruct (implications scop)).
  rewrite Hargs. rewrite decide_False by done. simpl.
  rewrite map_from_multi_pw_aff_tuple_id.
  rewrite decide_False by (by intros Hne; apply Hne).
  rewrite Hint. simpl. rewrite decide_False by (by intros Hne; apply Hne).
  rewrite <- map_from_multi_pw_aff_tuple_id.
  by rewrite apply_implications_contains.
Qed.

(** C3, as amended.  On a scop without skip conditions that holds at least
    one implication, [pet_scop_filter] succeeds, and filtering the result
    again with the same test and value returns that result unchanged (no
    statement gains an argument, no domain changes), provided that for every
    statement that gained a filter in the first application, implication
    detection recognises it: inserting the filter kept the iteration space,
    the inserted filter is visibly fixed to the value, and the implications
    that apply to the test and the value extend its relation to a superset.
    (Without any implication the second application inserts the filter
    again, see [filter_implied_no_implications].) *)
Theorem filter_twice (scop : pet_scop_ext) (test : isl_multi_pw_aff) (satisfied' : Z) :
  skip scop pet_skip_now = None →
  skip scop pet_skip_later = None →
  implications scop ≠ [] →
  (∀ stmt, stmt ∈ stmts scop →
     stmt_filter scop stmt test satisfied' = stmt
     ∨ (pet_stmt_get_space (stmt_filter scop stmt test satisfied') = pet_stmt_get_space stmt
        ∧ first_filter_fixed_to (stmt_filter scop stmt test satisfied') satisfied'
        ∧ implications_contain scop
            (isl_map_from_multi_pw_aff (extend_test stmt test)) satisfied')) →
  ∃ scop1,
    pet_scop_filter scop test satisfied' = Ok scop1
    ∧ pet_scop_filter scop1 test satisfied' = Ok scop1.
Proof.
  intros Hnow Hlater Hi Hstmts.
  assert (Hskip : ∀ s type, skip s type = None →
            pet_scop_filter_skip s type test satisfied' = Ok s).
  { intros s type Hs. unfold pet_scop_filter_skip, pet_scop_has_skip. by rewrite Hs. }
  eexists. split.
  { unfold pet_scop_filter. rewrite (Hskip _ _ Hnow). simpl. rewrite (Hskip _ _ Hlater).
    simpl. reflexivity. }
  unfold pet_scop_filter.
  rewrite Hskip by (by destruct scop). simpl.
  rewrite Hskip by (by destruct scop). simpl.
  f_equal. unfold set_stmts; simpl. f_equal.
  rewrite <- list_fmap_compose. apply list_fmap_ext.
  intros i stmt Hstmt. simpl.
  apply list_elem_of_lookup_2, Hstmts in Hstmt.
  set (scop1 := PetScop _ _ _ _ _ _ _ _ _ _).
  assert (Hsame : ∀ st t, filter_implied scop1 st t satisfied'
                          = filter_implied scop st t satisfied').
  { intros st t. by apply filter_implied_same_implications. }
  destruct (stmt_filter_cases scop stmt test satisfied')
    as [[Himp Heq]|(Himp & Hargs & Hdom & Hloc & Hsched & Hbody)].
  - rewrite Heq. rewrite stmt_filter_unfold, Hsame, Himp. done.
  - destruct Hstmt as [Heq|(Hspace & Hfixed & Hc)].
    { rewrite Heq in Hargs. exfalso.
      apply (f_equal length) in Hargs. simpl in Hargs. lia. }
    assert (Htest : extend_test (stmt_filter scop stmt test satisfied') test
                    = extend_test stmt test).
    { unfold extend_test. by rewrite Hspace. }
    rewrite (stmt_filter_unfold scop1), Htest, Hsame.
    rewrite inserted_filter_implied; [done|done| |done|done].
    by rewrite Hargs.
Qed.

End FilterProofs.

(** ** Running on the heap *)

Section HeapProofs.
Context {isl : IslOps} {pet : PetOps}.

Lemma run_bind {A B} (m : M A) (k : A → M B) (w w' : world) (a : A) :
  m w = Some (a, w') → (m ≫= k) w = k a w'.
Proof. intros Hm. unfold mbind, M_bind. by rewrite Hm. Qed.

Lemma run_load (l : positive) (s : pet_scop_ext) h r d :
  h !! l = Some s → load l (World h r d) = Some (s, World h r d).
Proof. intros Hl. unfold load. simpl. by rewrite Hl. Qed.

Lemma run_modify (l : positive) (f : pet_scop_ext → pet_scop_ext) (s : pet_scop_ext) h r d :
  h !! l = Some s → modify l f (World h r d) = Some (tt, World (<[l := f s]> h) r d).
Proof. intros Hl. unfold modify. simpl. by rewrite Hl. Qed.

Lemma run_dealloc (l : positive) (s : pet_scop_ext) h r d :
  h !! l = Some s → dealloc l (World h r d) = Some (tt, World (delete l h) r d).
Proof. intros Hl. unfold dealloc. simpl. by rewrite Hl. Qed.

Lemma run_release (objs : list pet_object) h r d :
  release objs (World h r d) = Some (tt, World h (r ++ objs) d).
Proof. reflexivity. Qed.

Lemma run_isl_die (e : isl_error) (msg : string) h r d :
  isl_die e msg (World h r d) = Some (tt, World h r (d ++ [(e, msg)])).
Proof. reflexivity. Qed.

Lemma run_ret {A} (a : A) (w : world) : mret (M := M) a w = Some (a, w).
Proof. reflexivity. Qed.

Lemma run_pet_scop_free (l : positive) (s : pet_scop_ext) h r d :
  h !! l = Some s →
  pet_scop_free (Some l) (World h r d)
  = Some (None, World (delete l h) (r ++ scop_objects s) d).
Proof.
  intros Hl. unfold pet_scop_free.
  rewrite (run_bind _ _ _ _ _ (run_load _ _ _ _ _ Hl)).
  rewrite (run_bind _ _ _ _ _ (run_release _ _ _ _)).
  rewrite (run_bind _ _ _ _ _ (run_dealloc _ _ _ _ _ Hl)). done.
Qed.

Lemma run_pet_scop_free_null (w : world) :
  pet_scop_free None w = Some (None, w).
Proof. reflexivity. Qed.

Lemma run_in_place_ok (f : pet_scop_ext → isl_result pet_scop_ext) (l : positive)
    (s s' : pet_scop_ext) h r d :
  h !! l = Some s → f s = Ok s' →
  in_place f (Some l) (World h r d) = Some (Some l, World (<[l := s']> h) r d).
Proof.
  intros Hl Hf. unfold in_place.
  rewrite (run_bind _ _ _ _ _ (run_load _ _ _ _ _ Hl)), Hf.
  by rewrite (run_bind _ _ _ _ _ (run_modify _ _ _ _ _ _ Hl)).
Qed.

Lemma run_in_place_die (f : pet_scop_ext → isl_result pet_scop_ext) (l : positive)
    (s : pet_scop_ext) e msg h r d :
  h !! l = Some s → f s = Die e msg →
  in_place f (Some l) (World h r d)
  = Some (None, World (delete l h) (r ++ scop_objects s) (d ++ [(e, msg)])).
Proof.
  intros Hl Hf. unfold in_place.
  rewrite (run_bind _ _ _ _ _ (run_load _ _ _ _ _ Hl)), Hf.
  rewrite (run_bind _ _ _ _ _ (run_isl_die _ _ _ _ _)).
  by rewrite (run_pet_scop_free _ _ _ _ _ Hl).
Qed.

Lemma set_skip_set_skip (type : pet_skip) v v' (scop : pet_scop_ext) :
  set_skip type v (set_skip type v' scop) = set_skip type v scop.
Proof. by destruct type. Qed.

Lemma set_skip_same (type : pet_skip) v (scop : pet_scop_ext) :
  skip scop type = v → set_skip type v scop = scop.
Proof. intros <-. by destruct type, scop. Qed.

(** Symbolic execution of one step of a computation on an explicit heap. *)
Ltac heap_lookup :=
  repeat first [rewrite lookup_insert_eq | rewrite lookup_insert_ne by done
               | rewrite lookup_delete_ne by done];
  first [eassumption | reflexivity].

Ltac heap_step :=
  erewrite run_bind;
  [|first [apply run_load; heap_lookup
          |apply run_modify; heap_lookup
          |apply run_release
          |apply run_isl_die
          |apply run_pet_scop_free; heap_lookup
          |apply run_pet_scop_free_null
          |apply run_ret]].

Ltac heap_eq :=
  apply map_eq; intros ?;
  repeat first [rewrite lookup_alter | rewrite lookup_insert | rewrite lookup_delete];
  repeat case_decide; simplify_eq; simpl;
  repeat match goal with H : _ !! _ = Some _ |- _ => rewrite H end; simpl.

(** [combine_skips] on skip conditions that can be combined: the result
    holds the merged condition, the arguments no longer hold one. *)
Lemma run_combine_skips (e ext1 ext2 : positive) (type : pet_skip)
    (s s1 s2 : pet_scop_ext) h r d :
  ext1 ≠ ext2 →
  h !! e = Some s → h !! ext1 = Some s1 → h !! ext2 = Some s2 →
  (e ≠ ext1 → e ≠ ext2 → skip s type = None) →
  skips_combinable (skip s1 type) (skip s2 type) = true →
  combine_skips (Some e) ext1 ext2 type (World h r d)
  = Some (Some e,
          World (alter (set_skip type (merged_skip (skip s1 type) (skip s2 type))) e
                   (alter (set_skip type None) ext1
                      (alter (set_skip type None) ext2 h))) r d).
Proof.
  intros Hne He H1 H2 Hfresh Hcomb. unfold combine_skips.
  do 2 heap_step.
  assert (Hfin : ∀ h' h'', h' = h'' →
            @Some (option positive * world) (Some e, World h' r d)
            = Some (Some e, World h'' r d)) by (by intros ? ? ->).
  destruct (decide (e = ext1)) as [->|Hne1]; [|destruct (decide (e = ext2)) as [->|Hne2]].
  - simplify_eq.
    destruct (skip s type) as [k1|] eqn:Hk1, (skip s2 type) as [k2|] eqn:Hk2; simpl in *.
    + apply andb_true_iff in Hcomb as [-> ->]. simpl.
      do 3 heap_step. unfold mret, M_ret; apply Hfin. heap_eq; by rewrite ?set_skip_set_skip.
    + rewrite ?decide_True by done. unfold mret, M_ret; apply Hfin. heap_eq;
        by rewrite ?set_skip_set_skip, ?(set_skip_same _ _ _ Hk1), ?(set_skip_same _ _ _ Hk2).
    + rewrite ?decide_False by done. do 2 heap_step. unfold mret, M_ret; apply Hfin. heap_eq;
        by rewrite ?set_skip_set_skip, ?(set_skip_same _ _ _ Hk1), ?(set_skip_same _ _ _ Hk2).
    + unfold mret, M_ret; apply Hfin. heap_eq;
        by rewrite ?set_skip_set_skip, ?(set_skip_same _ _ _ Hk1), ?(set_skip_same _ _ _ Hk2).
  - simplify_eq.
    destruct (skip s1 type) as [k1|] eqn:Hk1, (skip s type) as [k2|] eqn:Hk2; simpl in *.
    + apply andb_true_iff in Hcomb as [-> ->]. simpl.
      do 3 heap_step. unfold mret, M_ret; apply Hfin. heap_eq; by rewrite ?set_skip_set_skip.
    + rewrite ?decide_False by done. do 2 heap_step. unfold mret, M_ret; apply Hfin. heap_eq;
        by rewrite ?set_skip_set_skip, ?(set_skip_same _ _ _ Hk1), ?(set_skip_same _ _ _ Hk2).
    + rewrite ?decide_True by done. unfold mret, M_ret; apply Hfin. heap_eq;
        by rewrite ?set_skip_set_skip, ?(set_skip_same _ _ _ Hk1), ?(set_skip_same _ _ _ Hk2).
    + unfold mret, M_ret; apply Hfin. heap_eq;
        by rewrite ?set_skip_set_skip, ?(set_skip_same _ _ _ Hk1), ?(set_skip_same _ _ _ Hk2).
  - specialize (Hfresh Hne1 Hne2).
    destruct (skip s1 type) as [k1|] eqn:Hk1, (skip s2 type) as [k2|] eqn:Hk2; simpl in *.
    + apply andb_true_iff in Hcomb as [-> ->]. simpl.
      do 3 heap_step. unfold mret, M_ret; apply Hfin. heap_eq; by rewrite ?set_skip_set_skip.
    + rewrite ?decide_False by done. do 2 heap_step. unfold mret, M_ret; apply Hfin. heap_eq;
        by rewrite ?set_skip_set_skip, ?(set_skip_same _ _ _ Hk1), ?(set_skip_same _ _ _ Hk2).
    + rewrite ?decide_False by done. do 2 heap_step. unfold mret, M_ret; apply Hfin. heap_eq;
        by rewrite ?set_skip_set_skip, ?(set_skip_same _ _ _ Hk1), ?(set_skip_same _ _ _ Hk2).
    + unfold mret, M_ret; apply Hfin. heap_eq;
        by rewrite ?set_skip_set_skip, ?(set_skip_same _ _ _ Hk1), ?(set_skip_same _ _ _ Hk2),
                   ?(set_skip_same _ _ _ Hfresh).
Qed.

(** [combine_skips] on skip conditions that cannot be combined: the
    diagnostic is reported and the scop under construction is released. *)
Lemma run_combine_skips_die (e ext1 ext2 : positive) (type : pet_skip)
    (s s1 s2 : pet_scop_ext) h r d :
  h !! e = Some s → h !! ext1 = Some s1 → h !! ext2 = Some s2 →
  skips_combinable (skip s1 type) (skip s2 type) = false →
  combine_skips (Some e) ext1 ext2 type (World h r d)
  = Some (None,
          World (delete e h) (r ++ scop_objects s)
            (d ++ [(isl_error_internal, "can only combine affine skips"%string)])).
Proof.
  intros He H1 H2 Hcomb. unfold combine_skips. do 2 heap_step.
  destruct (skip s1 type) as [k1|], (skip s2 type) as [k2|]; simpl in Hcomb; try done.
  rewrite <- negb_andb, Hcomb. simpl. heap_step. by apply run_pet_scop_free.
Qed.

Lemma run_combine_skips_null (ext1 ext2 : positive) (type : pet_skip) (w : world) :
  combine_skips None ext1 ext2 type w = Some (None, w).
Proof. reflexivity. Qed.

Lemma scop_objects_set_skip (type : pet_skip) v (scop : pet_scop_ext) :
  scop_objects (set_skip type v scop) = scop_objects scop.
Proof. by destruct type. Qed.

(** [scop_combine_skips] into a new scop. *)
Lemma run_scop_combine_skips_new (e ext1 ext2 : positive) (s s1 s2 : pet_scop_ext) h r d :
  ext1 ≠ ext2 → e ≠ ext1 → e ≠ ext2 →
  h !! e = Some s → h !! ext1 = Some s1 → h !! ext2 = Some s2 →
  skip s pet_skip_now = None → skip s pet_skip_later = None →
  skips_combinable (skip_now s1) (skip_now s2) = true →
  skips_combinable (skip_later s1) (skip_later s2) = true →
  scop_combine_skips (Some e) ext1 ext2 (World h r d)
  = Some (Some e,
          World (<[e := with_merged_skips s1 s2 s]>
                   (<[ext1 := no_skips s1]> (<[ext2 := no_skips s2]> h))) r d).
Proof.
  intros Hne Hne1 Hne2 He H1 H2 Hnow Hlater Hc1 Hc2. unfold scop_combine_skips.
  erewrite run_bind; [|by eapply (run_combine_skips e ext1 ext2 pet_skip_now)].
  rewrite (run_combine_skips e ext1 ext2 pet_skip_later
             (set_skip pet_skip_now (merged_skip (skip_now s1) (skip_now s2)) s)
             (set_skip pet_skip_now None s1) (set_skip pet_skip_now None s2)); try done.
  - f_equal. f_equal. f_equal. unfold with_merged_skips, no_skips.
    heap_eq; simpl; try done.
  - by rewrite lookup_alter_eq, lookup_alter_ne, lookup_alter_ne, He by done.
  - by rewrite lookup_alter_ne, lookup_alter_eq, lookup_alter_ne, H1 by done.
  - by rewrite lookup_alter_ne, lookup_alter_ne, lookup_alter_eq, H2 by done.
Qed.

(** [scop_combine_skips] into its second argument. *)
Lemma run_scop_combine_skips_snd (ext1 ext2 : positive) (s1 s2 : pet_scop_ext) h r d :
  ext1 ≠ ext2 →
  h !! ext1 = Some s1 → h !! ext2 = Some s2 →
  skips_combinable (skip_now s1) (skip_now s2) = true →
  skips_combinable (skip_later s1) (skip_later s2) = true →
  scop_combine_skips (Some ext2) ext1 ext2 (World h r d)
  = Some (Some ext2,
          World (<[ext2 := with_merged_skips s1 s2 s2]> (<[ext1 := no_skips s1]> h)) r d).
Proof.
  intros Hne H1 H2 Hc1 Hc2. unfold scop_combine_skips.
  erewrite run_bind; [|by eapply (run_combine_skips ext2 ext1 ext2 pet_skip_now)].
  rewrite (run_combine_skips ext2 ext1 ext2 pet_skip_later
             (set_skip pet_skip_now (merged_skip (skip_now s1) (skip_now s2))
                (set_skip pet_skip_now None s2))
             (set_skip pet_skip_now None s1)
             (set_skip pet_skip_now (merged_skip (skip_now s1) (skip_now s2))
                (set_skip pet_skip_now None s2))); try done.
  - f_equal. f_equal. f_equal. unfold with_merged_skips, no_skips.
    heap_eq; simpl; try done.
  - by rewrite lookup_alter_eq, lookup_alter_ne, lookup_alter_eq, H2 by done.
  - by rewrite lookup_alter_ne, lookup_alter_eq, lookup_alter_ne, H1 by done.
  - by rewrite lookup_alter_eq, lookup_alter_ne, lookup_alter_eq, H2 by done.
Qed.

(** [scop_combine_skips] into its first argument. *)
Lemma run_scop_combine_skips_fst (ext1 ext2 : positive) (s1 s2 : pet_scop_ext) h r d :
  ext1 ≠ ext2 →
  h !! ext1 = Some s1 → h !! ext2 = Some s2 →
  skips_combinable (skip_now s1) (skip_now s2) = true →
  skips_combinable (skip_later s1) (skip_later s2) = true →
  scop_combine_skips (Some ext1) ext1 ext2 (World h r d)
  = Some (Some ext1,
          World (<[ext1 := with_merged_skips s1 s2 s1]> (<[ext2 := no_skips s2]> h)) r d).
Proof.
  intros Hne H1 H2 Hc1 Hc2. unfold scop_combine_skips.
  erewrite run_bind; [|by eapply (run_combine_skips ext1 ext1 ext2 pet_skip_now)].
  rewrite (run_combine_skips ext1 ext1 ext2 pet_skip_later
             (set_skip pet_skip_now (merged_skip (skip_now s1) (skip_now s2))
                (set_skip pet_skip_now None s1))
             (set_skip pet_skip_now (merged_skip (skip_now s1) (skip_now s2))
                (set_skip pet_skip_now None s1))
             (set_skip pet_skip_now None s2)); try done.
  - f_equal. f_equal. f_equal. unfold with_merged_skips, no_skips.
    heap_eq; simpl; try done.
  - by rewrite lookup_alter_eq, lookup_alter_eq, lookup_alter_ne, H1 by done.
  - by rewrite lookup_alter_eq, lookup_alter_eq, lookup_alter_ne, H1 by done.
  - by rewrite lookup_alter_ne, lookup_alter_ne, lookup_alter_eq, H2 by done.
Qed.

Lemma run_alloc (s : pet_scop_ext) h r d :
  alloc s (World h r d)
  = Some (fresh (dom h), World (<[fresh (dom h) := s]> h) r d).
Proof. reflexivity. Qed.

Lemma fresh_not_allocated (h : gmap positive pet_scop_ext) : h !! fresh (dom h) = None.
Proof. apply not_elem_of_dom, is_fresh. Qed.

Lemma fresh_ne (h : gmap positive pet_scop_ext) (l : positive) (s : pet_scop_ext) :
  h !! l = Some s → fresh (dom h) ≠ l.
Proof. intros Hl Heq. rewrite <- Heq, fresh_not_allocated in Hl. done. Qed.

Lemma merged_implications_ext (a a' b b' : pet_scop_ext) :
  implications a = implications a' → implications b = implications b' →
  merged_implications a b = merged_implications a' b'
  ∧ duplicate_implications a b = duplicate_implications a' b'.
Proof.
  intros Ha Hb.
  unfold merged_implications, duplicate_implications, n_implication, is_known_implication.
  by rewrite Ha, Hb.
Qed.

Lemma set_implications_same (scop : pet_scop_ext) :
  set_implications (implications scop) scop = scop.
Proof. by destruct scop. Qed.

(** [scop_collect_implications] into a new scop. *)
Lemma run_scop_collect_implications (e l1 l2 : positive) (s s1 s2 : pet_scop_ext) h r d :
  l1 ≠ l2 → e ≠ l1 → e ≠ l2 →
  h !! e = Some s → h !! l1 = Some s1 → h !! l2 = Some s2 →
  scop_collect_implications (Some e) l1 l2 (World h r d)
  = Some (Some e,
          World (<[e := set_implications (merged_implications s1 s2) s]>
                   (<[l1 := set_implications [] s1]>
                      (<[l2 := set_implications (duplicate_implications s1 s2) s2]> h))) r d).
Proof.
  intros Hne Hne1 Hne2 He H1 H2.
  assert (Hfin : ∀ h' h'', h' = h'' →
            @Some (option positive * world) (Some e, World h' r d)
            = Some (Some e, World h'' r d)) by (by intros ? ? ->).
  unfold scop_collect_implications, merged_implications, duplicate_implications.
  do 2 heap_step.
  destruct (decide (n_implication s2 = 0%nat)) as [Hn2|Hn2];
    [|destruct (decide (n_implication s1 = 0%nat)) as [Hn1|Hn1]].
  - do 2 heap_step. unfold mret, M_ret. apply Hfin.
    apply length_zero_iff_nil in Hn2.
    heap_eq; try done. by rewrite <- Hn2, set_implications_same.
  - do 2 heap_step. unfold mret, M_ret. apply Hfin.
    apply length_zero_iff_nil in Hn1.
    heap_eq; try done. by rewrite <- Hn1, set_implications_same.
  - do 5 heap_step. unfold mret, M_ret. apply Hfin.
    heap_eq; try done.
Qed.

Lemma run_scop_combine_start_end (e l1 l2 : positive) (s s1 s2 : pet_scop_ext) h r d :
  e ≠ l1 → e ≠ l2 →
  h !! e = Some s → h !! l1 = Some s1 → h !! l2 = Some s2 →
  scop_combine_start_end (Some e) l1 l2 (World h r d)
  = Some (Some e, World (<[e := with_start_end s s1 s2]> h) r d).
Proof.
  intros Hne1 Hne2 He H1 H2.
  assert (Hfin : ∀ h' h'', h' = h'' →
            @Some (option positive * world) (Some e, World h' r d)
            = Some (Some e, World h'' r d)) by (by intros ? ? ->).
  unfold scop_combine_start_end, with_start_end. heap_step.
  destruct (decide (loc s1 ≠ pet_loc_dummy)) as [Hd1|Hd1].
  - erewrite run_bind; [|by eapply run_in_place_ok].
    heap_step.
    destruct (decide (loc s2 ≠ pet_loc_dummy)) as [Hd2|Hd2].
    + erewrite run_in_place_ok; [|by rewrite lookup_insert_eq|done].
      apply Hfin. by rewrite insert_insert_eq.
    + unfold mret, M_ret. by apply Hfin.
  - heap_step. heap_step.
    destruct (decide (loc s2 ≠ pet_loc_dummy)) as [Hd2|Hd2].
    + by erewrite run_in_place_ok.
    + unfold mret, M_ret. apply Hfin. by rewrite insert_id.
Qed.

Lemma run_scop_combine_start_end_null (l1 l2 : positive) (s1 s2 : pet_scop_ext) h r d :
  h !! l1 = Some s1 → h !! l2 = Some s2 →
  scop_combine_start_end None l1 l2 (World h r d) = Some (None, World h r d).
Proof.
  intros H1 H2. unfold scop_combine_start_end. heap_step.
  destruct (decide (loc s1 ≠ pet_loc_dummy)); heap_step; heap_step;
    by destruct (decide (loc s2 ≠ pet_loc_dummy)).
Qed.

Lemma scop_objects_moved_out (rest : list pet_implication) (scop : pet_scop_ext) :
  scop_objects (moved_out rest scop) = (ObjType <$> types scop) ++ (ObjImplication <$> rest).
Proof. reflexivity. Qed.

Lemma added_scop_eq (scop1 scop2 : pet_scop_ext) :
  with_start_end
    (with_merged_skips scop1 scop2
       (pet_scop_restrict_context
          (pet_scop_restrict_context
             (set_implications (merged_implications scop1 scop2)
                (set_arrays (arrays scop1 ++ arrays scop2)
                   (set_stmts (stmts scop1 ++ stmts scop2)
                      (PetScop pet_loc_dummy (isl_set_universe (isl_space_params_alloc 0))
                         (isl_set_universe (isl_space_params_alloc 0)) [] [] [] []
                         None None None))))
             (context scop1))
          (context scop2)))
    scop1 scop2
  = added_scop scop1 scop2.
Proof.
  unfold with_start_end, added_scop, combined_loc, pet_scop_update_start_end_from_loc,
    pet_scop_update_start_end.
  simpl. repeat case_decide; simpl in *; try done.
Qed.

(** [pet_scop_add] on two scops with statements whose skip conditions can
    be combined. *)
Lemma run_pet_scop_add (l1 l2 : positive) (scop1 scop2 : pet_scop_ext) h r d :
  l1 ≠ l2 → h !! l1 = Some scop1 → h !! l2 = Some scop2 →
  stmts scop1 ≠ [] → stmts scop2 ≠ [] →
  skips_combinable (skip_now scop1) (skip_now scop2) = true →
  skips_combinable (skip_later scop1) (skip_later scop2) = true →
  pet_scop_add (Some l1) (Some l2) (World h r d)
  = Some (Some (fresh (dom h)),
          World (<[fresh (dom h) := added_scop scop1 scop2]> (delete l2 (delete l1 h)))
            (r ++ (ObjType <$> types scop1)
               ++ (ObjType <$> types scop2)
               ++ (ObjImplication <$> duplicate_implications scop1 scop2)) d).
Proof.
  intros Hne H1 H2 Hs1 Hs2 Hc1 Hc2.
  pose proof (fresh_ne h l1 _ H1) as Hf1. pose proof (fresh_ne h l2 _ H2) as Hf2.
  pose proof (fresh_not_allocated h) as Hf.
  set (l := fresh (dom h)) in *.
  unfold pet_scop_add. heap_step.
  rewrite decide_False by (unfold n_stmt; by destruct (stmts scop1)).
  heap_step.
  rewrite decide_False by (unfold n_stmt; by destruct (stmts scop2)).
  unfold scop_alloc. erewrite run_bind; [|apply run_alloc]. fold l.
  do 6 heap_step.
  erewrite run_bind; [|apply (run_scop_collect_implications l l1 l2); [done..|heap_lookup|heap_lookup|heap_lookup]].
  heap_step.
  erewrite run_bind; [|eapply run_in_place_ok; [heap_lookup|reflexivity]].
  heap_step.
  erewrite run_bind; [|eapply run_in_place_ok; [heap_lookup|reflexivity]].
  erewrite run_bind;
    [|apply (run_scop_combine_skips_new l l1 l2); [done..|heap_lookup|heap_lookup|heap_lookup|done|done|done|done]].
  erewrite run_bind;
    [|apply (run_scop_combine_start_end l l1 l2); [done..|heap_lookup|heap_lookup|heap_lookup]].
  do 2 heap_step. unfold mret, M_ret.
  destruct (merged_implications_ext
              (set_arrays [] (set_stmts [] scop1)) scop1
              (set_arrays [] (set_stmts [] scop2)) scop2 eq_refl eq_refl) as [Hm Hd].
  f_equal. f_equal. f_equal.
  - heap_eq; try done.
    rewrite Hm. rewrite <- added_scop_eq. done.
  - simpl. rewrite <- !app_assoc. f_equal.
    unfold scop_objects. simpl. rewrite Hd. by rewrite !app_nil_r.
Qed.

(** [pet_scop_add] when the first scop has no statement: the second scop
    is returned, with the skip conditions of both. *)
Lemma run_pet_scop_add_fst_empty (l1 l2 : positive) (scop1 scop2 : pet_scop_ext) h r d :
  l1 ≠ l2 → h !! l1 = Some scop1 → h !! l2 = Some scop2 →
  stmts scop1 = [] →
  skips_combinable (skip_now scop1) (skip_now scop2) = true →
  skips_combinable (skip_later scop1) (skip_later scop2) = true →
  pet_scop_add (Some l1) (Some l2) (World h r d)
  = Some (Some l2,
          World (<[l2 := with_merged_skips scop1 scop2 scop2]> (delete l1 h))
            (r ++ scop_objects scop1) d).
Proof.
  intros Hne H1 H2 Hs1 Hc1 Hc2. unfold pet_scop_add. heap_step.
  rewrite decide_True by (unfold n_stmt; by rewrite Hs1).
  erewrite run_bind; [|by apply (run_scop_combine_skips_snd l1 l2)].
  heap_step. unfold mret, M_ret. f_equal. f_equal. f_equal.
  heap_eq; done.
Qed.

(** [pet_scop_add] when only the second scop has no statement: the first
    scop is returned, with the skip conditions of both. *)
Lemma run_pet_scop_add_snd_empty (l1 l2 : positive) (scop1 scop2 : pet_scop_ext) h r d :
  l1 ≠ l2 → h !! l1 = Some scop1 → h !! l2 = Some scop2 →
  stmts scop1 ≠ [] → stmts scop2 = [] →
  skips_combinable (skip_now scop1) (skip_now scop2) = true →
  skips_combinable (skip_later scop1) (skip_later scop2) = true →
  pet_scop_add (Some l1) (Some l2) (World h r d)
  = Some (Some l1,
          World (<[l1 := with_merged_skips scop1 scop2 scop1]> (delete l2 h))
            (r ++ scop_objects scop2) d).
Proof.
  intros Hne H1 H2 Hs1 Hs2 Hc1 Hc2. unfold pet_scop_add. heap_step.
  rewrite decide_False by (unfold n_stmt; by destruct (stmts scop1)).
  heap_step.
  rewrite decide_True by (unfold n_stmt; by rewrite Hs2).
  erewrite run_bind; [|by apply (run_scop_combine_skips_fst l1 l2)].
  heap_step. unfold mret, M_ret. f_equal. f_equal. f_equal.
  heap_eq; done.
Qed.

(** [scop_combine_skips] when the skip conditions of one type cannot be
    combined: one diagnostic, the scop under construction is released, and
    the arguments keep what they own apart from skip conditions. *)
Lemma run_scop_combine_skips_die (e l1 l2 : positive) (s s1 s2 : pet_scop_ext) h r d :
  l1 ≠ l2 →
  h !! e = Some s → h !! l1 = Some s1 → h !! l2 = Some s2 →
  (e ≠ l1 → e ≠ l2 → skip s pet_skip_now = None) →
  skips_combinable (skip_now s1) (skip_now s2)
  && skips_combinable (skip_later s1) (skip_later s2) = false →
  ∃ h',
    scop_combine_skips (Some e) l1 l2 (World h r d)
    = Some (None,
            World (delete e h') (r ++ scop_objects s)
              (d ++ [(isl_error_internal, "can only combine affine skips"%string)]))
    ∧ (∀ l, h' !! l = None ∧ h !! l = None
            ∨ ∃ a v, h !! l = Some a ∧ h' !! l = Some (set_skip pet_skip_now v a))
    ∧ ∀ l, l ≠ e → l ≠ l1 → l ≠ l2 → h' !! l = h !! l.
Proof.
  intros Hne He H1 H2 Hfresh Hcomb. unfold scop_combine_skips.
  destruct (skips_combinable (skip_now s1) (skip_now s2)) eqn:Hnow; simpl in Hcomb.
  - erewrite run_bind; [|by eapply (run_combine_skips e l1 l2 pet_skip_now)].
    set (h' := alter _ e (alter _ l1 (alter _ l2 h))).
    assert (Hh' : ∀ l, h' !! l = None ∧ h !! l = None
                       ∨ ∃ a v, h !! l = Some a ∧ h' !! l = Some (set_skip pet_skip_now v a)).
    { intros l. unfold h'. rewrite !lookup_alter.
      repeat case_decide; simplify_eq; rewrite ?He, ?H1, ?H2; simpl;
        rewrite ?set_skip_set_skip; eauto.
      destruct (h !! l) as [a|] eqn:Hl; [right|by left].
      exists a, (skip a pet_skip_now). by destruct a. }
    exists h'.
    destruct (Hh' e) as [[_ ?]|(a & v & Ha & Ha')]; [congruence|].
    destruct (Hh' l1) as [[_ ?]|(a1 & v1 & Ha1 & Ha1')]; [congruence|].
    destruct (Hh' l2) as [[_ ?]|(a2 & v2 & Ha2 & Ha2')]; [congruence|].
    simplify_eq.
    erewrite run_combine_skips_die; [|done|done|done|].
    + split; [by rewrite scop_objects_set_skip|]. split; [done|].
      intros l ? ? ?. unfold h'. by rewrite !lookup_alter_ne by done.
    + exact Hcomb.
  - erewrite run_bind; [|by eapply (run_combine_skips_die e l1 l2 pet_skip_now)].
    exists h. split; [done|]. split; [|done].
    intros l. destruct (h !! l) as [a|] eqn:Hl; [right|by left].
    exists a, (skip a pet_skip_now). by destruct a.
Qed.

Lemma merged_duplicate_implications (scop1 scop2 : pet_scop_ext) :
  merged_implications scop1 scop2 ++ duplicate_implications scop1 scop2
  ≡ₚ implications scop1 ++ implications scop2.
Proof.
  unfold merged_implications, duplicate_implications, n_implication.
  destruct (implications scop2) as [|pi2 l2] eqn:H2; simpl; [done|].
  destruct (implications scop1) as [|pi1 l1] eqn:H1; simpl.
  { by rewrite app_nil_r. }
  f_equiv. rewrite <- app_assoc. f_equiv.
  rewrite (comm (++)).
  rewrite (list_filter_iff (λ pi, is_known_implication scop1 pi = false)
             (λ pi, ¬ is_known_implication scop1 pi = true)).
  - apply (filter_app_complement (λ pi, is_known_implication scop1 pi = true)).
  - intros pi. by destruct (is_known_implication scop1 pi).
Qed.

(** [pet_scop_add] when the skip conditions of one type cannot be
    combined: NULL is returned, one diagnostic is reported, and everything
    that the two scops owned is released, once, together with the two scops
    and the scop under construction. *)
Lemma run_pet_scop_add_die (l1 l2 : positive) (scop1 scop2 : pet_scop_ext) h r d :
  l1 ≠ l2 → h !! l1 = Some scop1 → h !! l2 = Some scop2 →
  skips_combinable (skip_now scop1) (skip_now scop2)
  && skips_combinable (skip_later scop1) (skip_later scop2) = false →
  ∃ r',
    pet_scop_add (Some l1) (Some l2) (World h r d)
    = Some (None,
            World (delete l1 (delete l2 h)) (r ++ r')
              (d ++ [(isl_error_internal, "can only combine affine skips"%string)]))
    ∧ r' ≡ₚ scop_objects scop1 ++ scop_objects scop2.
Proof.
  intros Hne H1 H2 Hcomb. unfold pet_scop_add. heap_step.
  destruct (decide (n_stmt scop1 = 0%nat)) as [Hn1|Hn1];
    [|heap_step; destruct (decide (n_stmt scop2 = 0%nat)) as [Hn2|Hn2]].
  - destruct (run_scop_combine_skips_die l2 l1 l2 scop2 scop1 scop2 h r d)
      as (h' & Hrun & Hh' & Hother); [done..|].
    erewrite run_bind; [|exact Hrun].
    destruct (Hh' l1) as [[_ ?]|(a1 & v1 & Ha1 & Ha1')]; [congruence|]. simplify_eq.
    erewrite run_bind; [|apply run_pet_scop_free; by rewrite lookup_delete_ne].
    exists (scop_objects scop2 ++ scop_objects scop1). split.
    + unfold mret, M_ret. rewrite scop_objects_set_skip, <- app_assoc.
      f_equal. f_equal. f_equal. apply map_eq. intros i.
      rewrite !lookup_delete. repeat case_decide; try done. by apply Hother.
    + apply (comm (++)).
  - destruct (run_scop_combine_skips_die l1 l1 l2 scop1 scop1 scop2 h r d)
      as (h' & Hrun & Hh' & Hother); [done..|].
    erewrite run_bind; [|exact Hrun].
    destruct (Hh' l2) as [[_ ?]|(a2 & v2 & Ha2 & Ha2')]; [congruence|]. simplify_eq.
    erewrite run_bind; [|apply run_pet_scop_free; by rewrite lookup_delete_ne].
    exists (scop_objects scop1 ++ scop_objects scop2). split; [|done].
    unfold mret, M_ret. rewrite scop_objects_set_skip, <- app_assoc.
    f_equal. f_equal. f_equal. apply map_eq. intros i.
    rewrite !lookup_delete. repeat case_decide; try done. by apply Hother.
  - pose proof (fresh_ne h l1 _ H1) as Hf1. pose proof (fresh_ne h l2 _ H2) as Hf2.
    pose proof (fresh_not_allocated h) as Hf.
    unfold scop_alloc. erewrite run_bind; [|apply run_alloc].
    set (l := fresh (dom h)) in *.
    do 6 heap_step.
    erewrite run_bind; [|apply (run_scop_collect_implications l l1 l2); [done..|heap_lookup|heap_lookup|heap_lookup]].
    heap_step.
    erewrite run_bind; [|eapply run_in_place_ok; [heap_lookup|reflexivity]].
    heap_step.
    erewrite run_bind; [|eapply run_in_place_ok; [heap_lookup|reflexivity]].
    match goal with
    | |- context [World ?x r d] => set (h5 := x)
    end.
    destruct (merged_implications_ext
                (set_arrays [] (set_stmts [] scop1)) scop1
                (set_arrays [] (set_stmts [] scop2)) scop2 eq_refl eq_refl) as [Hm Hd].
    edestruct (run_scop_combine_skips_die l l1 l2) with (h := h5) (r := r) (d := d)
      as (h' & Hrun & Hh' & Hother);
      [exact Hne|unfold h5; heap_lookup|unfold h5; heap_lookup|unfold h5; heap_lookup
      |done|exact Hcomb|].
    exists ((ObjArray <$> arrays scop1 ++ arrays scop2)
            ++ (ObjStmt <$> stmts scop1 ++ stmts scop2)
            ++ (ObjImplication <$> merged_implications scop1 scop2)
            ++ (ObjType <$> types scop1)
            ++ (ObjType <$> types scop2)
            ++ (ObjImplication <$> duplicate_implications scop1 scop2)).
    split.
    + erewrite run_bind; [|exact Hrun].
      destruct (Hh' l1) as [[_ Hn]|(a1 & v1 & Ha1 & Ha1')].
      { unfold h5 in Hn. by rewrite lookup_insert_ne, lookup_insert_ne, lookup_insert_ne,
          lookup_insert_eq in Hn by done. }
      destruct (Hh' l2) as [[_ Hn]|(a2 & v2 & Ha2 & Ha2')].
      { unfold h5 in Hn. by rewrite lookup_insert_ne, lookup_insert_ne, lookup_insert_ne,
          lookup_insert_ne, lookup_insert_eq in Hn by done. }
      unfold h5 in Ha1, Ha2.
      rewrite lookup_insert_ne, lookup_insert_ne, lookup_insert_ne, lookup_insert_eq
        in Ha1 by done.
      rewrite lookup_insert_ne, lookup_insert_ne, lookup_insert_ne, lookup_insert_ne,
        lookup_insert_eq in Ha2 by done.
      simplify_eq.
      erewrite run_bind;
        [|eapply run_scop_combine_start_end_null; rewrite lookup_delete_ne by done; eassumption].
      erewrite run_bind; [|apply run_pet_scop_free; rewrite lookup_delete_ne by done; eassumption].
      erewrite run_bind;
        [|apply run_pet_scop_free; rewrite !lookup_delete_ne by done; eassumption].
      unfold mret, M_ret. rewrite <- !app_assoc.
      f_equal. f_equal. f_equal.
      * apply map_eq. intros i.
        rewrite !lookup_delete. repeat case_decide; simplify_eq; try done.
        rewrite Hother by done. unfold h5. by rewrite !lookup_insert_ne by done.
      * f_equal. rewrite !scop_objects_set_skip. unfold scop_objects. simpl.
        rewrite Hm, Hd, !app_nil_r. by rewrite <- !app_assoc.
    + unfold scop_objects.
      rewrite !fmap_app.
      assert (Hi : ObjImplication <$> merged_implications scop1 scop2
                   ++ duplicate_implications scop1 scop2
                   ≡ₚ ObjImplication <$> implications scop1 ++ implications scop2)
        by (by rewrite merged_duplicate_implications).
      rewrite !fmap_app in Hi.
      rewrite <- !app_assoc.
      rewrite (Permutation_app_swap_app (ObjImplication <$> merged_implications scop1 scop2)).
      rewrite (Permutation_app_swap_app (ObjImplication <$> merged_implications scop1 scop2)).
      rewrite Hi. solve_Permutation.
Qed.



(** All the ways in which [pet_scop_add] returns a scop. *)
Lemma pet_scop_add_returns (l1 l2 l : positive) (scop1 scop2 : pet_scop_ext) h r d w' :
  l1 ≠ l2 → h !! l1 = Some scop1 → h !! l2 = Some scop2 →
  pet_scop_add (Some l1) (Some l2) (World h r d) = Some (Some l, w') →
  skips_combinable (skip_now scop1) (skip_now scop2) = true
  ∧ skips_combinable (skip_later scop1) (skip_later scop2) = true
  ∧ ((stmts scop1 = [] ∧ l = l2
      ∧ w' = World (<[l2 := with_merged_skips scop1 scop2 scop2]> (delete l1 h))
               (r ++ scop_objects scop1) d)
     ∨ (stmts scop1 ≠ [] ∧ stmts scop2 = [] ∧ l = l1
        ∧ w' = World (<[l1 := with_merged_skips scop1 scop2 scop1]> (delete l2 h))
                 (r ++ scop_objects scop2) d)
     ∨ (stmts scop1 ≠ [] ∧ stmts scop2 ≠ [] ∧ l = fresh (dom h)
        ∧ w' = World (<[fresh (dom h) := added_scop scop1 scop2]> (delete l2 (delete l1 h)))
                 (r ++ (ObjType <$> types scop1) ++ (ObjType <$> types scop2)
                    ++ (ObjImplication <$> duplicate_implications scop1 scop2)) d)).
Proof.
  intros Hne H1 H2 Hrun.
  destruct (skips_combinable (skip_now scop1) (skip_now scop2)
            && skips_combinable (skip_later scop1) (skip_later scop2)) eqn:Hcomb.
  - apply andb_true_iff in Hcomb as [Hc1 Hc2]. split; [done|]. split; [done|].
    destruct (decide (stmts scop1 = [])) as [Hs1|Hs1];
      [|destruct (decide (stmts scop2 = [])) as [Hs2|Hs2]].
    + rewrite (run_pet_scop_add_fst_empty l1 l2 scop1 scop2) in Hrun by done.
      left. by simplify_eq.
    + rewrite (run_pet_scop_add_snd_empty l1 l2 scop1 scop2) in Hrun by done.
      right; left. by simplify_eq.
    + rewrite (run_pet_scop_add l1 l2 scop1 scop2) in Hrun by done.
      right; right. by simplify_eq.
  - destruct (run_pet_scop_add_die l1 l2 scop1 scop2 h r d) as (r' & Hdie & _); [done..|].
    rewrite Hdie in Hrun. done.
Qed.

End HeapProofs.

(** ** Composition *)

Section CompositionProofs.
Context {isl : IslOps} {pet : PetOps} {sem : IslSem}.

Lemma world_eta (w : world) : w = World (heap w) (released w) (diagnostics w).
Proof. by destruct w. Qed.

(** [pet_scop_add] returns a scop exactly when the skip conditions of both
    types can be combined. *)
Lemma pet_scop_add_succeeds (l1 l2 : positive) (scop1 scop2 : pet_scop_ext) (w : world) :
  l1 ≠ l2 → heap w !! l1 = Some scop1 → heap w !! l2 = Some scop2 →
  skips_combinable (skip_now scop1) (skip_now scop2) = true →
  skips_combinable (skip_later scop1) (skip_later scop2) = true →
  ∃ l w', pet_scop_add (Some l1) (Some l2) w = Some (Some l, w').
Proof.
  intros Hne H1 H2 Hc1 Hc2. rewrite (world_eta w).
  destruct (decide (stmts scop1 = [])) as [Hs1|Hs1];
    [|destruct (decide (stmts scop2 = [])) as [Hs2|Hs2]].
  - rewrite (run_pet_scop_add_fst_empty l1 l2 scop1 scop2) by done. eauto.
  - rewrite (run_pet_scop_add_snd_empty l1 l2 scop1 scop2) by done. eauto.
  - rewrite (run_pet_scop_add l1 l2 scop1 scop2) by done. eauto.
Qed.

(** C4.  When both scops have statements, [pet_scop_add] returns a scop as
    soon as their skip conditions can be combined, and the scop it returns
    holds the statements of the first followed by those of the second and
    the arrays of the first followed by those of the second, so their
    numbers add up.  The statements and arrays are moved: the two arguments
    are released, and no statement and no array is released with them. *)
Theorem add_concatenates (l1 l2 : positive) (scop1 scop2 : pet_scop_ext) (w : world) :
  l1 ≠ l2 → heap w !! l1 = Some scop1 → heap w !! l2 = Some scop2 →
  stmts scop1 ≠ [] → stmts scop2 ≠ [] →
  (skips_combinable (skip_now scop1) (skip_now scop2) = true →
   skips_combinable (skip_later scop1) (skip_later scop2) = true →
   ∃ l w', pet_scop_add (Some l1) (Some l2) w = Some (Some l, w'))
  ∧ ∀ l w', pet_scop_add (Some l1) (Some l2) w = Some (Some l, w') →
      ∃ scop freed,
        heap w' !! l = Some scop
        ∧ stmts scop = stmts scop1 ++ stmts scop2
        ∧ arrays scop = arrays scop1 ++ arrays scop2
        ∧ n_stmt scop = (n_stmt scop1 + n_stmt scop2)%nat
        ∧ n_array scop = (n_array scop1 + n_array scop2)%nat
        ∧ heap w' !! l1 = None ∧ heap w' !! l2 = None
        ∧ released w' = released w ++ freed
        ∧ ∀ o, o ∈ freed → match o with ObjStmt _ | ObjArray _ => False | _ => True end.
Proof.
  intros Hne H1 H2 Hs1 Hs2. split; [by apply pet_scop_add_succeeds|].
  intros l w' Hrun. rewrite (world_eta w) in Hrun.
  destruct (pet_scop_add_returns l1 l2 l scop1 scop2 _ _ _ w' Hne H1 H2 Hrun)
    as (_ & _ & [(? & _)|[(_ & ? & _)|(_ & _ & -> & ->)]]); [done..|].
  pose proof (fresh_ne _ l1 _ H1) as Hf1. pose proof (fresh_ne _ l2 _ H2) as Hf2.
  eexists (added_scop scop1 scop2), _. simpl.
  split; [by rewrite lookup_insert_eq|].
  split; [done|]. split; [done|].
  split; [unfold n_stmt; simpl; by rewrite length_app|].
  split; [unfold n_array; simpl; by rewrite length_app|].
  split; [by rewrite lookup_insert_ne, lookup_delete_ne, lookup_delete_eq by done|].
  split; [by rewrite lookup_insert_ne, lookup_delete_eq by done|].
  split; [done|].
  intros o. rewrite !elem_of_app, !list_elem_of_fmap. by intros [(? & -> & _)|[(? & -> & _)|(? & -> & _)]].
Qed.

(** C10.  When both scops have statements, the scop that [pet_scop_add]
    returns has no types, whatever types the arguments had; it holds their
    statements, arrays, implications (without duplicates), combined skip
    conditions, the conjunction of their contexts and their combined
    location.  The two arguments are released and their types are released
    with them. *)
Theorem add_drops_types (l1 l2 : positive) (scop1 scop2 : pet_scop_ext) (w : world) :
  l1 ≠ l2 → heap w !! l1 = Some scop1 → heap w !! l2 = Some scop2 →
  stmts scop1 ≠ [] → stmts scop2 ≠ [] →
  (skips_combinable (skip_now scop1) (skip_now scop2) = true →
   skips_combinable (skip_later scop1) (skip_later scop2) = true →
   ∃ l w', pet_scop_add (Some l1) (Some l2) w = Some (Some l, w'))
  ∧ ∀ l w', pet_scop_add (Some l1) (Some l2) w = Some (Some l, w') →
      ∃ scop,
        heap w' !! l = Some scop
        ∧ types scop = [] ∧ n_type scop = 0%nat
        ∧ stmts scop = stmts scop1 ++ stmts scop2
        ∧ arrays scop = arrays scop1 ++ arrays scop2
        ∧ implications scop = merged_implications scop1 scop2
        ∧ skip scop pet_skip_now = merged_skip (skip_now scop1) (skip_now scop2)
        ∧ skip scop pet_skip_later = merged_skip (skip_later scop1) (skip_later scop2)
        ∧ context scop
          = isl_set_intersect
              (isl_set_intersect (isl_set_universe (isl_space_params_alloc 0))
                 (pet_nested_remove_from_set (context scop1)))
              (pet_nested_remove_from_set (context scop2))
        ∧ loc scop = combined_loc scop1 scop2
        ∧ heap w' !! l1 = None ∧ heap w' !! l2 = None
        ∧ released w'
          = released w ++ (ObjType <$> types scop1) ++ (ObjType <$> types scop2)
              ++ (ObjImplication <$> duplicate_implications scop1 scop2).
Proof.
  intros Hne H1 H2 Hs1 Hs2. split; [by apply pet_scop_add_succeeds|].
  intros l w' Hrun. rewrite (world_eta w) in Hrun.
  destruct (pet_scop_add_returns l1 l2 l scop1 scop2 _ _ _ w' Hne H1 H2 Hrun)
    as (_ & _ & [(? & _)|[(_ & ? & _)|(_ & _ & -> & ->)]]); [done..|].
  pose proof (fresh_ne _ l1 _ H1) as Hf1. pose proof (fresh_ne _ l2 _ H2) as Hf2.
  exists (added_scop scop1 scop2). simpl.
  split; [by rewrite lookup_insert_eq|].
  do 9 (split; [done|]).
  split; [by rewrite lookup_insert_ne, lookup_delete_ne, lookup_delete_eq by done|].
  split; [by rewrite lookup_insert_ne, lookup_delete_eq by done|].
  done.
Qed.

(** C5, as amended.  When the first scop has no statement, [pet_scop_add]
    returns the second scop itself: its statements, arrays, implications,
    context, location (and types) are unchanged and its skip conditions are
    those of both scops, combined; the first scop is released.  When the
    first scop has statements and the second has none, it returns the first
    scop in the same way.  (When neither has a statement, the scop returned
    is the second one.) *)
Theorem add_empty_identity (l1 l2 : positive) (scop1 scop2 : pet_scop_ext) (w : world) :
  l1 ≠ l2 → heap w !! l1 = Some scop1 → heap w !! l2 = Some scop2 →
  stmts scop1 = [] ∨ stmts scop2 = [] →
  (skips_combinable (skip_now scop1) (skip_now scop2) = true →
   skips_combinable (skip_later scop1) (skip_later scop2) = true →
   ∃ l w', pet_scop_add (Some l1) (Some l2) w = Some (Some l, w'))
  ∧ ∀ l w', pet_scop_add (Some l1) (Some l2) w = Some (Some l, w') →
      ∃ kept gone scop,
        (stmts scop1 = [] ∧ l = l2 ∧ kept = scop2 ∧ gone = l1
         ∨ stmts scop1 ≠ [] ∧ stmts scop2 = [] ∧ l = l1 ∧ kept = scop1 ∧ gone = l2)
        ∧ heap w' !! l = Some scop
        ∧ stmts scop = stmts kept ∧ arrays scop = arrays kept
        ∧ implications scop = implications kept ∧ context scop = context kept
        ∧ loc scop = loc kept ∧ types scop = types kept
        ∧ context_value scop = context_value kept ∧ input scop = input kept
        ∧ skip scop pet_skip_now = merged_skip (skip_now scop1) (skip_now scop2)
        ∧ skip scop pet_skip_later = merged_skip (skip_later scop1) (skip_later scop2)
        ∧ heap w' !! gone = None.
Proof.
  intros Hne H1 H2 Hempty. split; [by apply pet_scop_add_succeeds|].
  intros l w' Hrun. rewrite (world_eta w) in Hrun.
  destruct (pet_scop_add_returns l1 l2 l scop1 scop2 _ _ _ w' Hne H1 H2 Hrun)
    as (_ & _ & [(Hs1 & -> & ->)|[(Hs1 & Hs2 & -> & ->)|(Hs1 & Hs2 & _)]]);
    [| |by destruct Hempty].
  - exists scop2, l1, (with_merged_skips scop1 scop2 scop2). simpl.
    split; [by left|]. split; [by rewrite lookup_insert_eq|].
    do 10 (split; [done|]).
    by rewrite lookup_insert_ne, lookup_delete_eq by done.
  - exists scop1, l2, (with_merged_skips scop1 scop2 scop1). simpl.
    split; [by right|]. split; [by rewrite lookup_insert_eq|].
    do 10 (split; [done|]).
    by rewrite lookup_insert_ne, lookup_delete_eq by done.
Qed.

(** The value of [pw_aff_or]: defined where both expressions are, one where
    one of them is not zero. *)
Lemma eval_pw_aff_or (lhs rhs : isl_pw_aff) (p : point) :
  pw_eval (pw_aff_or lhs rhs) p
  = match pw_eval lhs p, pw_eval rhs p with
    | Some a, Some b => Some (if bool_decide (a ≠ 0) || bool_decide (b ≠ 0) then 1 else 0)
    | _, _ => None
    end.
Proof.
  unfold pw_aff_or, indicator_function.
  rewrite eval_intersect_domain, mem_intersect, !mem_pw_aff_domain.
  rewrite eval_indicator_function, mem_coalesce, mem_union, !mem_pw_aff_non_zero_set.
  by destruct (pw_eval lhs p), (pw_eval rhs p).
Qed.

(** The non-zero region of [pw_aff_or] is the union of the non-zero regions
    of its arguments, within the intersection of their domains. *)
Lemma pw_aff_or_non_zero_set (lhs rhs : isl_pw_aff) (p : point) :
  set_mem (isl_pw_aff_non_zero_set (pw_aff_or lhs rhs)) p
  = (set_mem (isl_pw_aff_non_zero_set lhs) p || set_mem (isl_pw_aff_non_zero_set rhs) p)
    && (set_mem (isl_pw_aff_domain lhs) p && set_mem (isl_pw_aff_domain rhs) p).
Proof.
  rewrite !mem_pw_aff_non_zero_set, !mem_pw_aff_domain, eval_pw_aff_or.
  destruct (pw_eval lhs p) as [a|], (pw_eval rhs p) as [b|]; simpl;
    rewrite ?andb_false_r; try done.
  rewrite andb_true_r. by destruct (bool_decide (a ≠ 0)), (bool_decide (b ≠ 0)).
Qed.

(** C2.  [pet_scop_add] returns a scop as soon as the skip conditions of
    both types can be combined, and in the scop it returns, for each type:
    there is no skip condition when neither argument had one; the skip
    condition is the one of the argument that had one when only one had
    one; and when both had one, both were affine and the skip condition of
    the result is affine, defined where both were defined, with value one
    where one of them was not zero and zero elsewhere: its non-zero region
    is the union of theirs over the shared domain. *)
Theorem add_combines_skips (l1 l2 : positive) (scop1 scop2 : pet_scop_ext) (w : world) :
  l1 ≠ l2 → heap w !! l1 = Some scop1 → heap w !! l2 = Some scop2 →
  (skips_combinable (skip_now scop1) (skip_now scop2) = true →
   skips_combinable (skip_later scop1) (skip_later scop2) = true →
   ∃ l w', pet_scop_add (Some l1) (Some l2) w = Some (Some l, w'))
  ∧ ∀ l w', pet_scop_add (Some l1) (Some l2) w = Some (Some l, w') →
      ∃ scop,
        heap w' !! l = Some scop
        ∧ ∀ type,
            match skip scop1 type, skip scop2 type with
            | None, None => skip scop type = None
            | Some k, None | None, Some k => skip scop type = Some k
            | Some k1, Some k2 =>
                multi_pw_aff_is_affine k1 = true ∧ multi_pw_aff_is_affine k2 = true
                ∧ ∃ k,
                    skip scop type = Some k
                    ∧ k = isl_multi_pw_aff_from_pw_aff
                            (pw_aff_or (isl_multi_pw_aff_get_pw_aff k1 0)
                                       (isl_multi_pw_aff_get_pw_aff k2 0))
                    ∧ multi_pw_aff_is_affine k = true
                    ∧ (∀ p,
                         pw_eval (isl_multi_pw_aff_get_pw_aff k 0) p
                         = match pw_eval (isl_multi_pw_aff_get_pw_aff k1 0) p,
                                 pw_eval (isl_multi_pw_aff_get_pw_aff k2 0) p with
                           | Some a, Some b =>
                               Some (if bool_decide (a ≠ 0) || bool_decide (b ≠ 0)
                                     then 1 else 0)
                           | _, _ => None
                           end)
                    ∧ (∀ p,
                         set_mem (isl_pw_aff_non_zero_set
                                    (isl_multi_pw_aff_get_pw_aff k 0)) p
                         = (set_mem (isl_pw_aff_non_zero_set
                                       (isl_multi_pw_aff_get_pw_aff k1 0)) p
                            || set_mem (isl_pw_aff_non_zero_set
                                          (isl_multi_pw_aff_get_pw_aff k2 0)) p)
                           && (set_mem (isl_pw_aff_domain
                                          (isl_multi_pw_aff_get_pw_aff k1 0)) p
                               && set_mem (isl_pw_aff_domain
                                             (isl_multi_pw_aff_get_pw_aff k2 0)) p))
            end.
Proof.
  intros Hne H1 H2. split; [by apply pet_scop_add_succeeds|].
  intros l w' Hrun. rewrite (world_eta w) in Hrun.
  destruct (pet_scop_add_returns l1 l2 l scop1 scop2 _ _ _ w' Hne H1 H2 Hrun)
    as (Hc1 & Hc2 & Hshape).
  assert (∃ scop, heap w' !! l = Some scop
                  ∧ ∀ type, skip scop type = merged_skip (skip scop1 type) (skip scop2 type))
    as (scop & Hl & Hskip).
  { destruct Hshape as [(_ & -> & ->)|[(_ & _ & -> & ->)|(_ & _ & -> & ->)]]; simpl;
      rewrite lookup_insert_eq; eexists; (split; [done|]); by intros []. }
  exists scop. split; [done|]. intros type. specialize (Hskip type).
  assert (Hc : skips_combinable (skip scop1 type) (skip scop2 type) = true)
    by (by destruct type).
  destruct (skip scop1 type) as [k1|], (skip scop2 type) as [k2|]; simpl in *; try done.
  apply andb_true_iff in Hc as [Ha1 Ha2]. do 2 (split; [done|]).
  eexists. split; [done|]. split; [done|].
  split; [unfold multi_pw_aff_is_affine; by rewrite from_pw_aff_has_no_tuple_id|].
  split.
  - intros p. by rewrite eval_get_from_pw_aff, eval_pw_aff_or.
  - intros p. rewrite <- pw_aff_or_non_zero_set.
    rewrite !mem_pw_aff_non_zero_set. by rewrite eval_get_from_pw_aff.
Qed.

(** C6.  When both scops carry a skip condition of the same type and neither
    of the two is affine, [pet_scop_add] reports the internal error "can
    only combine affine skips" through [isl_die], once, and returns NULL;
    the scop under construction is released together with the two
    arguments (no scop is left in the heap in their place), and every
    object that the two arguments owned is released, once. *)
Theorem add_non_affine_skips_fails (l1 l2 : positive) (scop1 scop2 : pet_scop_ext)
    (w : world) (type : pet_skip) (k1 k2 : isl_multi_pw_aff) :
  l1 ≠ l2 → heap w !! l1 = Some scop1 → heap w !! l2 = Some scop2 →
  skip scop1 type = Some k1 → skip scop2 type = Some k2 →
  multi_pw_aff_is_affine k1 = false → multi_pw_aff_is_affine k2 = false →
  ∃ freed,
    pet_scop_add (Some l1) (Some l2) w
    = Some (None,
            World (delete l1 (delete l2 (heap w))) (released w ++ freed)
              (diagnostics w ++ [(isl_error_internal, "can only combine affine skips"%string)]))
    ∧ freed ≡ₚ scop_objects scop1 ++ scop_objects scop2.
Proof.
  intros Hne H1 H2 Hk1 Hk2 Ha1 Ha2. destruct w as [h r d]. simpl in H1, H2 |- *.
  apply run_pet_scop_add_die; [done..|].
  destruct type; simpl in *; rewrite Hk1, Hk2; simpl; rewrite Ha1; simpl; [done|].
  by rewrite andb_false_r.
Qed.

End CompositionProofs.

(** ** Sequential and parallel composition *)

Section SequenceProofs.
Context {isl : IslOps} {pet : PetOps} {sem : IslSem} {petsem : PetSem}.

Lemma mem_skip_zero_params (k : isl_multi_pw_aff) (q : point) :
  skip_zero_dimensional k →
  set_mem (skip_zero_params k) q
  = bool_decide (pw_eval (isl_multi_pw_aff_get_pw_aff k 0) q = Some 0).
Proof.
  intros Hzero. unfold skip_zero_params. rewrite mem_params_zero_dim.
  - rewrite mem_pw_aff_zero_set.
    destruct (pw_eval (isl_multi_pw_aff_get_pw_aff k 0) q) as [v|]; [|done].
    apply bool_decide_ext. split; [by intros ->|by intros [= ->]].
  - intros p. rewrite mem_pw_aff_zero_set. intros Hp. apply Hzero.
    by destruct (pw_eval (isl_multi_pw_aff_get_pw_aff k 0) p).
Qed.

Lemma restrict_skip_affine (scop : pet_scop_ext) (k : isl_multi_pw_aff) :
  multi_pw_aff_is_affine k = true →
  restrict_skip scop k = pet_scop_restrict scop (skip_zero_params k).
Proof. intros Ha. unfold restrict_skip. by rewrite Ha. Qed.

Lemma restrict_skip_not_affine (scop : pet_scop_ext) (k : isl_multi_pw_aff) :
  multi_pw_aff_is_affine k = false →
  restrict_skip scop k = pet_scop_filter scop k 0.
Proof. intros Ha. unfold restrict_skip. by rewrite Ha. Qed.

(** A filter on the value zero succeeds exactly on a scop without skip
    conditions, and then only rewrites the statements. *)
Lemma pet_scop_filter_zero_ok (scop scop' : pet_scop_ext) (test : isl_multi_pw_aff) :
  pet_scop_filter scop test 0 = Ok scop' →
  skip scop pet_skip_now = None ∧ skip scop pet_skip_later = None
  ∧ scop' = set_stmts ((λ stmt, stmt_filter scop stmt test 0) <$> stmts scop) scop.
Proof.
  unfold pet_scop_filter, pet_scop_filter_skip, pet_scop_has_skip. simpl.
  destruct (skip_now scop) eqn:Hnow; simpl; [done|].
  destruct (skip_later scop) eqn:Hlater; simpl; [done|].
  by intros [= <-].
Qed.

Lemma pet_scop_filter_no_skip (scop : pet_scop_ext) (test : isl_multi_pw_aff)
    (satisfied' : Z) :
  skip scop pet_skip_now = None → skip scop pet_skip_later = None →
  pet_scop_filter scop test satisfied'
  = Ok (set_stmts ((λ stmt, stmt_filter scop stmt test satisfied') <$> stmts scop) scop).
Proof.
  simpl. intros Hnow Hlater.
  unfold pet_scop_filter, pet_scop_filter_skip, pet_scop_has_skip. simpl.
  rewrite Hnow. simpl. by rewrite Hlater.
Qed.

(** [pet_scop_add_seq] first stores the restricted second scop, then adds. *)
Lemma run_pet_scop_add_seq (l1 l2 : positive) (scop1 scop2 scop2' : pet_scop_ext)
    (k : isl_multi_pw_aff) h r d :
  l1 ≠ l2 → h !! l1 = Some scop1 → h !! l2 = Some scop2 →
  skip scop1 pet_skip_now = Some k →
  restrict_skip scop2 k = Ok scop2' →
  pet_scop_add_seq (Some l1) (Some l2) (World h r d)
  = pet_scop_add (Some l1) (Some l2) (World (<[l2 := scop2']> h) r d).
Proof.
  intros Hne H1 H2 Hk Hr. unfold pet_scop_add_seq.
  rewrite (run_bind _ _ _ _ _ (run_load _ _ _ _ _ H1)).
  unfold pet_scop_has_skip, pet_scop_get_skip. rewrite Hk.
  rewrite bool_decide_true by done. cbv beta iota.
  by rewrite (run_bind _ _ _ _ _ (run_in_place_ok _ _ _ _ _ _ _ H2 Hr)).
Qed.

(** When the skip condition cannot be applied to the second scop, the
    sequence fails. *)
Lemma run_pet_scop_add_seq_die (l1 l2 : positive) (scop1 scop2 : pet_scop_ext)
    (k : isl_multi_pw_aff) e msg h r d :
  l1 ≠ l2 → h !! l1 = Some scop1 → h !! l2 = Some scop2 →
  skip scop1 pet_skip_now = Some k →
  restrict_skip scop2 k = Die e msg →
  pet_scop_add_seq (Some l1) (Some l2) (World h r d)
  = Some (None, World (delete l1 (delete l2 h))
                  (r ++ scop_objects scop2 ++ scop_objects scop1) (d ++ [(e, msg)])).
Proof.
  intros Hne H1 H2 Hk Hr. unfold pet_scop_add_seq.
  rewrite (run_bind _ _ _ _ _ (run_load _ _ _ _ _ H1)).
  unfold pet_scop_has_skip, pet_scop_get_skip. rewrite Hk.
  rewrite bool_decide_true by done. cbv beta iota.
  rewrite (run_bind _ _ _ _ _ (run_in_place_die _ _ _ _ _ _ _ _ H2 Hr)).
  unfold pet_scop_add.
  assert (delete l2 h !! l1 = Some scop1) as H1' by by rewrite lookup_delete_ne.
  rewrite (run_bind _ _ _ _ _ (run_pet_scop_free _ _ _ _ _ H1')).
  rewrite (run_bind _ _ _ _ _ (run_pet_scop_free_null _)).
  unfold mret, M_ret. by rewrite <- app_assoc.
Qed.

(** In all cases the statements of the result of [pet_scop_add] are those of
    the first scop followed by those of the second. *)
Lemma pet_scop_add_stmts (l1 l2 l : positive) (scop1 scop2 : pet_scop_ext) h r d w' :
  l1 ≠ l2 → h !! l1 = Some scop1 → h !! l2 = Some scop2 →
  pet_scop_add (Some l1) (Some l2) (World h r d) = Some (Some l, w') →
  ∃ scop, heap w' !! l = Some scop ∧ stmts scop = stmts scop1 ++ stmts scop2.
Proof.
  intros Hne H1 H2 Hrun.
  destruct (pet_scop_add_returns l1 l2 l scop1 scop2 _ _ _ w' Hne H1 H2 Hrun)
    as (_ & _ & [(Hs1 & -> & ->)|[(Hs1 & Hs2 & -> & ->)|(Hs1 & Hs2 & -> & ->)]]);
    simpl; rewrite lookup_insert_eq; eexists; (split; [done|]); simpl.
  - by rewrite Hs1.
  - by rewrite Hs2, app_nil_r.
  - done.
Qed.

(** C1.  Let the first scop carry a skip condition [k] of type "now".
    - A sequence that returns a scop has applied [k] to the second scop
      with [restrict_skip] before adding: the statements of the result are
      those of the first scop followed by the rewritten statements of the
      second.  If [k] is affine, the iteration domain of every statement of
      the second scop was intersected with the parameter values at which
      [k] is zero.  If [k] is not affine, every statement of the second scop
      was passed to [stmt_filter] with [k] and the value zero: it is
      unchanged when the filter is implied by one it has, and otherwise
      gained an argument that reads [k], in front, and a filter inserted in
      its domain for the value zero.  The filter is implied, and elided,
      exactly when it is already proved ([filter_already_proved]): the
      second scop has implications and the statement has an argument that
      reads the same virtual array, is visibly fixed to zero in the domain,
      and whose access relation, extended by the implication of the second
      scop for this array and the value zero if there is one, contains the
      test.
    - A parallel composition is [pet_scop_add] itself: the statements of
      the result are those of the first scop followed by those of the
      second, unchanged.
    - The sequence does return a scop when the skip conditions allow for
      it: for an affine [k], when the skip conditions of the second scop
      and the skip condition of type "later" of the first are affine; for a
      [k] that is not affine, when the second scop has no skip condition. *)
Theorem add_seq_applies_skip_now (l1 l2 : positive) (scop1 scop2 : pet_scop_ext)
    (w : world) (k : isl_multi_pw_aff) :
  l1 ≠ l2 → heap w !! l1 = Some scop1 → heap w !! l2 = Some scop2 →
  skip scop1 pet_skip_now = Some k →
  (∀ l w', pet_scop_add_seq (Some l1) (Some l2) w = Some (Some l, w') →
     ∃ scop scop2',
       restrict_skip scop2 k = Ok scop2'
       ∧ pet_scop_add_seq (Some l1) (Some l2) w
         = pet_scop_add (Some l1) (Some l2)
             (World (<[l2 := scop2']> (heap w)) (released w) (diagnostics w))
       ∧ heap w' !! l = Some scop
       ∧ stmts scop = stmts scop1 ++ stmts scop2'
       ∧ if multi_pw_aff_is_affine k then
           stmts scop2' = (λ stmt, stmt_restrict stmt (skip_zero_params k)) <$> stmts scop2
           ∧ (∀ stmt p,
                set_mem (domain (stmt_restrict stmt (skip_zero_params k))) p
                = set_mem (domain stmt) p && set_mem (skip_zero_params k) (pt_params p))
           ∧ (skip_zero_dimensional k →
              ∀ q, set_mem (skip_zero_params k) q
                   = bool_decide (pw_eval (isl_multi_pw_aff_get_pw_aff k 0) q = Some 0))
         else
           stmts scop2' = (λ stmt, stmt_filter scop2 stmt k 0) <$> stmts scop2
           ∧ ∀ stmt,
               (filter_implied scop2 stmt (extend_test stmt k) 0 = true
                ↔ filter_already_proved scop2 stmt (extend_test stmt k) 0)
               ∧ ((filter_already_proved scop2 stmt (extend_test stmt k) 0
                   ∧ filter_implied scop2 stmt (extend_test stmt k) 0 = true
                   ∧ stmt_filter scop2 stmt k 0 = stmt)
                  ∨ (¬ filter_already_proved scop2 stmt (extend_test stmt k) 0
                     ∧ filter_implied scop2 stmt (extend_test stmt k) 0 = false
                     ∧ args (stmt_filter scop2 stmt k 0)
                       = pet_expr_from_index (extend_test stmt k) :: args stmt
                     ∧ domain (stmt_filter scop2 stmt k 0)
                       = isl_set_preimage_pw_multi_aff (domain stmt)
                           (pet_filter_insert_pma (isl_set_get_space (domain stmt))
                              (isl_multi_pw_aff_get_tuple_id (extend_test stmt k)
                                 isl_dim_out)
                              0))))
  ∧ (pet_scop_add_par (Some l1) (Some l2) w = pet_scop_add (Some l1) (Some l2) w
     ∧ ∀ l w', pet_scop_add_par (Some l1) (Some l2) w = Some (Some l, w') →
         ∃ scop, heap w' !! l = Some scop ∧ stmts scop = stmts scop1 ++ stmts scop2)
  ∧ (multi_pw_aff_is_affine k = true →
     (∀ type k', skip scop2 type = Some k' → multi_pw_aff_is_affine k' = true) →
     (∀ k', skip scop1 pet_skip_later = Some k' → multi_pw_aff_is_affine k' = true) →
     ∃ l w', pet_scop_add_seq (Some l1) (Some l2) w = Some (Some l, w'))
  ∧ (multi_pw_aff_is_affine k = false →
     skip scop2 pet_skip_now = None → skip scop2 pet_skip_later = None →
     ∃ l w', pet_scop_add_seq (Some l1) (Some l2) w = Some (Some l, w')).
Proof.
  intros Hne H1 H2 Hk. destruct w as [h r d]. simpl in H1, H2.
  cbn [heap released diagnostics]. split; [|split; [|split]].
  - intros l w' Hrun.
    destruct (restrict_skip scop2 k) as [scop2'|e msg] eqn:Hr.
    2:{ by rewrite (run_pet_scop_add_seq_die l1 l2 scop1 scop2 k e msg) in Hrun. }
    pose proof (run_pet_scop_add_seq l1 l2 scop1 scop2 scop2' k h r d Hne H1 H2 Hk Hr) as Hseq.
    rewrite Hseq in Hrun.
    apply (pet_scop_add_stmts l1 l2 l scop1 scop2') in Hrun as (scop & Hl & Hstmts);
      [|done|by rewrite lookup_insert_ne|by rewrite lookup_insert_eq].
    exists scop, scop2'. do 4 (split; [done|]).
    destruct (multi_pw_aff_is_affine k) eqn:Ha.
    + rewrite restrict_skip_affine in Hr by done.
      apply pet_scop_restrict_ok in Hr as [-> _]. simpl.
      split; [done|]. split.
      * intros stmt p. apply mem_intersect_params.
      * intros Hz q. by apply mem_skip_zero_params.
    + rewrite restrict_skip_not_affine in Hr by done.
      apply pet_scop_filter_zero_ok in Hr as (_ & _ & ->). simpl.
      split; [done|]. intros stmt.
      pose proof (filter_implied_spec scop2 stmt (extend_test stmt k) 0) as Hspec.
      split; [exact Hspec|].
      destruct (stmt_filter_cases scop2 stmt k 0) as [[Hi ?]|(Hi & ? & ? & _)].
      * left. split; [by apply Hspec|done].
      * right. split; [|done]. intros Hp. apply Hspec in Hp. congruence.
  - split; [done|]. intros l w'. by apply pet_scop_add_stmts.
  - intros Ha Haff2 Haff1.
    destruct (pet_scop_restrict_affine scop2 (skip_zero_params k) Haff2) as [scop2' Hr].
    rewrite <- restrict_skip_affine in Hr by done.
    rewrite (run_pet_scop_add_seq l1 l2 scop1 scop2 scop2' k h r d) by done.
    rewrite restrict_skip_affine in Hr by done.
    apply pet_scop_restrict_ok in Hr as [-> _].
    eapply (pet_scop_add_succeeds l1 l2 scop1); simpl;
      [done|by rewrite lookup_insert_ne|by rewrite lookup_insert_eq|..].
    + simpl in Hk. rewrite Hk. simpl. destruct (skip_now scop2); simpl; [|done].
      by rewrite Ha, restricted_skip_affine.
    + destruct (skip_later scop1) as [k1|] eqn:Hk1, (skip_later scop2); simpl; try done.
      by rewrite (Haff1 k1), restricted_skip_affine.
  - intros Ha Hnow Hlater.
    pose proof (pet_scop_filter_no_skip scop2 k 0 Hnow Hlater) as Hr.
    rewrite <- restrict_skip_not_affine in Hr by done.
    rewrite (run_pet_scop_add_seq l1 l2 scop1 scop2 _ k h r d Hne H1 H2 Hk Hr).
    eapply (pet_scop_add_succeeds l1 l2 scop1); simpl;
      [done|by rewrite lookup_insert_ne|by rewrite lookup_insert_eq|..].
    + simpl in Hnow |- *. rewrite Hnow. by destruct (skip_now scop1).
    + simpl in Hlater |- *. rewrite Hlater. by destruct (skip_later scop1).
Qed.

End SequenceProofs.

(** ** The theorems on sample scops *)

Section Samples.
Import Sym SymLaws Examples.

(** C7: the extent of the member array has a tuple identifier without user
    pointer, yet embedding leaves the array as it is: the extent is a
    wrapped relation, so the array is not virtual, and does not become the
    flat product of the loop domain with the old extent. *)
Lemma embed_keeps_member_array :
  isl_set_has_tuple_id extent_member = true
  ∧ isl_id_get_user (isl_set_get_tuple_id extent_member) = None
  ∧ isl_set_is_wrapping extent_member = true
  ∧ arrays (pet_scop_embed (scop_of (PetLoc 0 10 1) [] [array_of extent_member] [] [])
              loop_domain (TSym "sched") (TSym "iv_map") loop_id)
    = [array_of extent_member]
  ∧ extent (array_of extent_member)
    ≠ isl_set_set_tuple_id (isl_set_flat_product loop_domain extent_member)
        (isl_set_get_tuple_id extent_member).
Proof. repeat split; done. Qed.

(** C9: the gist of the extent [A[i]], [0 <= i <= 9], [n >= 1] in the
    context [n >= 1] no longer holds the constraint on [n]: the point
    [A[5]] with [n = 0] is in the extent after the gist and was not
    before. *)
Lemma gist_adds_points_outside_context :
  (λ array, set_mem (extent array) (TPoint [0] [5])) <$> arrays scop_bounded = [false]
  ∧ (λ array, set_mem (extent array) (TPoint [0] [5]))
      <$> arrays (pet_scop_gist scop_bounded (TSym "value_bounds")) = [true]
  ∧ set_mem (context scop_bounded) (pt_params (TPoint [0] [5])) = false.
Proof. repeat split; vm_compute; reflexivity. Qed.

(** C8 on [scop_S] with an affine skip condition. *)
Lemma restrict_idempotent_sample :
  ∃ scop1,
    pet_scop_restrict (scop_S_skipping (affine_skip 5)) param_positive = Ok scop1
    ∧ (∃ scop2, pet_scop_restrict scop1 param_positive = Ok scop2 ∧ scop_equiv scop1 scop2)
    ∧ ∀ p, set_mem (context scop1) p = true
           ↔ ∃ q, nested_eq p q
                  ∧ (set_mem (context (scop_S_skipping (affine_skip 5))) q
                     && set_mem param_positive q || negb (set_mem param_positive q)) = true.
Proof.
  eexists. split; [reflexivity|].
  apply (restrict_idempotent (scop_S_skipping (affine_skip 5))). reflexivity.
Defined.

End Samples.

Section FilterSamples.
Import Sym SymLaws Examples.

(** C3 on a scop with an implication for the test: the second application
    returns the scop that the first returned. *)
Lemma filter_twice_sample :
  ∃ scop1,
    pet_scop_filter scop_implying (test_on "__pet_test_0") 1 = Ok scop1
    ∧ pet_scop_filter scop1 (test_on "__pet_test_0") 1 = Ok scop1.
Proof.
  apply (filter_twice scop_implying (test_on "__pet_test_0") 1).
  - reflexivity.
  - reflexivity.
  - discriminate.
  - intros stmt Hin. apply list_elem_of_singleton in Hin as ->. right.
    split; [reflexivity|]. split; [split; reflexivity|].
    intros pi Hpi. apply list_elem_of_singleton in Hpi as ->. reflexivity.
Defined.

(** C3: on a scop without implications, the second application of the same
    filter is not detected: the statement gains a second argument and its
    domain changes again. *)
Lemma filter_twice_inserts_twice :
  ∃ scop1 scop2,
    pet_scop_filter scop_S (test_on "__pet_test_0") 1 = Ok scop1
    ∧ pet_scop_filter scop1 (test_on "__pet_test_0") 1 = Ok scop2
    ∧ n_arg <$> stmts scop1 = [1%nat]
    ∧ n_arg <$> stmts scop2 = [2%nat]
    ∧ domain <$> stmts scop2 ≠ domain <$> stmts scop1
    ∧ scop2 ≠ scop1.
Proof.
  do 2 eexists. split; [reflexivity|]. split; [reflexivity|].
  split; [reflexivity|]. split; [reflexivity|]. split; discriminate.
Qed.

End FilterSamples.

Section CompositionSamples.
Import Sym SymLaws Examples.

(** C4 on [scop_S] and [scop_T]. *)
Lemma add_concatenates_sample :
  ∃ l w' scop,
    pet_scop_add (Some 1%positive) (Some 2%positive) (world_of scop_S scop_T)
    = Some (Some l, w')
    ∧ heap w' !! l = Some scop
    ∧ stmts scop = stmts scop_S ++ stmts scop_T
    ∧ arrays scop = arrays scop_S ++ arrays scop_T
    ∧ n_stmt scop = 2%nat ∧ n_array scop = 2%nat.
Proof.
  destruct (add_concatenates 1 2 scop_S scop_T (world_of scop_S scop_T)) as [Hex Hall];
    [done|reflexivity|reflexivity|done|done|].
  destruct Hex as (l & w' & Hrun); [reflexivity|reflexivity|].
  destruct (Hall l w' Hrun) as (scop & freed & Hl & Hstmts & Harrays & Hn & Hm & _).
  exists l, w', scop. repeat split; assumption.
Defined.

(** C10 on [scop_S] and [scop_T], which both have a type. *)
Lemma add_drops_types_sample :
  types scop_S ≠ [] ∧ types scop_T ≠ []
  ∧ ∃ l w' scop,
      pet_scop_add (Some 1%positive) (Some 2%positive) (world_of scop_S scop_T)
      = Some (Some l, w')
      ∧ heap w' !! l = Some scop
      ∧ types scop = [] ∧ n_type scop = 0%nat.
Proof.
  split; [done|]. split; [done|].
  destruct (add_drops_types 1 2 scop_S scop_T (world_of scop_S scop_T)) as [Hex Hall];
    [done|reflexivity|reflexivity|done|done|].
  destruct Hex as (l & w' & Hrun); [reflexivity|reflexivity|].
  destruct (Hall l w' Hrun) as (scop & Hl & Htypes & Hn & _).
  exists l, w', scop. repeat split; assumption.
Defined.

(** C5 on a first scop without statements. *)
Lemma add_empty_identity_sample :
  ∃ w' scop,
    pet_scop_add (Some 1%positive) (Some 2%positive) (world_of scop_decl scop_T)
    = Some (Some 2%positive, w')
    ∧ heap w' !! 2%positive = Some scop
    ∧ stmts scop = stmts scop_T ∧ arrays scop = arrays scop_T
    ∧ implications scop = implications scop_T ∧ context scop = context scop_T
    ∧ loc scop = loc scop_T.
Proof.
  destruct (add_empty_identity 1 2 scop_decl scop_T (world_of scop_decl scop_T))
    as [Hex Hall]; [done|reflexivity|reflexivity|by left|].
  destruct Hex as (l & w' & Hrun); [reflexivity|reflexivity|].
  destruct (Hall l w' Hrun)
    as (kept & gone & scop & Hcase & Hl & Hs & Ha & Hi & Hc & Hloc & _).
  destruct Hcase as [(_ & -> & -> & _)|(Hne & _)]; [|by destruct Hne].
  exists w', scop. repeat split; assumption.
Defined.

(** [pet_scop_add] of a scop without statements and the scop of
    [pet_scop_empty]. *)
Lemma run_add_pet_scop_empty {isl : IslOps} {pet : PetOps} (l1 : positive)
    (scop1 : pet_scop_ext) h r d :
  h !! l1 = Some scop1 → stmts scop1 = [] →
  ∃ l scop2,
    (l2 ← pet_scop_empty; pet_scop_add (Some l1) (Some l2)) (World h r d)
    = Some (Some l,
            World (<[l := with_merged_skips scop1 scop2 scop2]> (delete l1 (<[l := scop2]> h)))
              (r ++ scop_objects scop1) d)
    ∧ l ≠ l1 ∧ arrays scop2 = [] ∧ loc scop2 = pet_loc_dummy.
Proof.
  intros H1 Hs1. pose proof (fresh_ne h l1 scop1 H1) as Hne.
  eexists _, _. split.
  - unfold pet_scop_empty, scop_alloc.
    rewrite (run_bind _ _ _ _ _ (run_alloc _ _ _ _)).
    apply run_pet_scop_add_fst_empty.
    + intros Heq. by apply Hne.
    + rewrite lookup_insert_ne; [exact H1|exact Hne].
    + apply lookup_insert_eq.
    + exact Hs1.
    + simpl. by destruct (skip_now scop1).
    + simpl. by destruct (skip_later scop1).
  - split; [exact Hne|split; reflexivity].
Qed.

(** C5: [pet_scop_add] of a scop without statements, which owns an array
    and has a location, and the empty scop of [pet_scop_empty] returns the
    empty scop, not the first scop: the result has no array and the dummy
    location, and the first scop is released with its array. *)
Lemma add_empty_returns_second :
  ∃ l w' scop,
    (l2 ← pet_scop_empty; pet_scop_add (Some 1%positive) (Some l2))
      (World (<[1%positive := scop_decl]> ∅) [] [])
    = Some (Some l, w')
    ∧ heap w' !! l = Some scop
    ∧ l ≠ 1%positive
    ∧ heap w' !! 1%positive = None
    ∧ arrays scop = [] ∧ arrays scop_decl = [array_of extent_A]
    ∧ loc scop = pet_loc_dummy ∧ loc scop_decl = PetLoc 40 50 3
    ∧ released w' = [ObjArray (array_of extent_A)].
Proof.
  destruct (run_add_pet_scop_empty 1 scop_decl (<[1%positive := scop_decl]> ∅) [] [])
    as (l & scop2 & Hrun & Hne & Harrays & Hloc);
    [apply lookup_insert_eq|reflexivity|].
  eexists l, _, _. split; [exact Hrun|]. cbn [heap released].
  split; [apply lookup_insert_eq|]. split; [exact Hne|].
  split; [rewrite lookup_insert_ne by (intros Heq; by apply Hne); apply lookup_delete_eq|].
  split; [exact Harrays|]. split; [reflexivity|]. split; [exact Hloc|].
  split; reflexivity.
Qed.

(** C2 on two scops with an affine skip condition of type "now": the
    combined condition holds where the first parameter is at least three. *)
Lemma add_combines_skips_sample :
  ∃ l w' scop k,
    pet_scop_add (Some 1%positive) (Some 2%positive)
      (world_of (scop_S_skipping (affine_skip 5)) (scop_T_skipping (affine_skip 3)))
    = Some (Some l, w')
    ∧ heap w' !! l = Some scop
    ∧ skip scop pet_skip_later = None
    ∧ skip scop pet_skip_now = Some k
    ∧ multi_pw_aff_is_affine k = true
    ∧ pw_eval (isl_multi_pw_aff_get_pw_aff k 0) (TPoint [4] []) = Some 1
    ∧ pw_eval (isl_multi_pw_aff_get_pw_aff k 0) (TPoint [2] []) = Some 0.
Proof.
  destruct (add_combines_skips 1 2 (scop_S_skipping (affine_skip 5))
              (scop_T_skipping (affine_skip 3))
              (world_of (scop_S_skipping (affine_skip 5)) (scop_T_skipping (affine_skip 3))))
    as [Hex Hall]; [done|reflexivity|reflexivity|].
  destruct Hex as (l & w' & Hrun); [reflexivity|reflexivity|].
  destruct (Hall l w' Hrun) as (scop & Hl & Hskip).
  pose proof (Hskip pet_skip_later) as Hlater.
  destruct (Hskip pet_skip_now) as (_ & _ & k & Hk & _ & Haff & Heval & _).
  exists l, w', scop, k.
  repeat split; try assumption; rewrite Heval; reflexivity.
Defined.

(** C6 on two scops whose skip conditions of type "now" are tests on
    virtual scalars. *)
Lemma add_non_affine_skips_fails_sample :
  ∃ freed,
    pet_scop_add (Some 1%positive) (Some 2%positive)
      (world_of (scop_S_skipping (test_on "__pet_test_0"))
                (scop_T_skipping (test_on "__pet_test_1")))
    = Some (None,
            World ∅ freed [(isl_error_internal, "can only combine affine skips"%string)])
    ∧ freed ≡ₚ scop_objects (scop_S_skipping (test_on "__pet_test_0"))
               ++ scop_objects (scop_T_skipping (test_on "__pet_test_1")).
Proof.
  destruct (add_non_affine_skips_fails 1 2
              (scop_S_skipping (test_on "__pet_test_0"))
              (scop_T_skipping (test_on "__pet_test_1"))
              (world_of (scop_S_skipping (test_on "__pet_test_0"))
                        (scop_T_skipping (test_on "__pet_test_1")))
              pet_skip_now (test_on "__pet_test_0") (test_on "__pet_test_1"))
    as (freed & Hrun & Hfreed); [done|reflexivity..|].
  exists freed. split; [|exact Hfreed].
  rewrite Hrun. reflexivity.
Defined.

(** C1 on a first scop with an affine skip condition, on one with a test
    on a virtual scalar as skip condition, and on a second scop whose
    statement is already filtered on that test: the filter is elided. *)
Lemma add_seq_applies_skip_now_sample :
  (∃ l w' scop,
     pet_scop_add_seq (Some 1%positive) (Some 2%positive)
       (world_of (scop_S_skipping (affine_skip 5)) scop_T)
     = Some (Some l, w')
     ∧ heap w' !! l = Some scop
     ∧ stmts scop
       = stmts scop_S
         ++ ((λ stmt, stmt_restrict stmt (skip_zero_params (affine_skip 5))) <$> stmts scop_T))
  ∧ (∃ l w' scop,
       pet_scop_add_seq (Some 1%positive) (Some 2%positive)
         (world_of (scop_S_skipping (test_on "__pet_test_0")) scop_T)
       = Some (Some l, w')
       ∧ heap w' !! l = Some scop
       ∧ stmts scop
         = stmts scop_S
           ++ ((λ stmt, stmt_filter scop_T stmt (test_on "__pet_test_0") 0) <$> stmts scop_T)
       ∧ n_arg <$> stmts scop = [0%nat; 1%nat])
  ∧ (∃ l w' scop,
       pet_scop_add_seq (Some 1%positive) (Some 2%positive)
         (world_of (scop_S_skipping (test_on "__pet_test_0")) scop_filtered)
       = Some (Some l, w')
       ∧ heap w' !! l = Some scop
       ∧ stmts scop = stmts scop_S ++ stmts scop_filtered
       ∧ Forall
           (λ stmt,
              filter_already_proved scop_filtered stmt
                (extend_test stmt (test_on "__pet_test_0")) 0)
           (stmts scop_filtered)).
Proof.
  split; [|split].
  - destruct (add_seq_applies_skip_now 1 2 (scop_S_skipping (affine_skip 5)) scop_T
                (world_of (scop_S_skipping (affine_skip 5)) scop_T) (affine_skip 5))
      as (Hseq & _ & Haffine & _); [done|reflexivity..|].
    destruct Haffine as (l & w' & Hrun); [reflexivity|by intros []|done|].
    destruct (Hseq l w' Hrun) as (scop & scop2' & _ & _ & Hl & Hstmts & Hshape).
    exists l, w', scop. split; [exact Hrun|]. split; [exact Hl|].
    rewrite Hstmts. destruct Hshape as [-> _]. reflexivity.
  - destruct (add_seq_applies_skip_now 1 2 (scop_S_skipping (test_on "__pet_test_0")) scop_T
                (world_of (scop_S_skipping (test_on "__pet_test_0")) scop_T)
                (test_on "__pet_test_0"))
      as (Hseq & _ & _ & Hfilter); [done|reflexivity..|].
    destruct Hfilter as (l & w' & Hrun); [reflexivity..|].
    destruct (Hseq l w' Hrun) as (scop & scop2' & _ & _ & Hl & Hstmts & Hshape).
    exists l, w', scop. split; [exact Hrun|]. split; [exact Hl|].
    rewrite Hstmts. destruct Hshape as [-> _]. split; reflexivity.
  - destruct (add_seq_applies_skip_now 1 2 (scop_S_skipping (test_on "__pet_test_0"))
                scop_filtered
                (world_of (scop_S_skipping (test_on "__pet_test_0")) scop_filtered)
                (test_on "__pet_test_0"))
      as (Hseq & _ & _ & Hfilter); [done|reflexivity..|].
    destruct Hfilter as (l & w' & Hrun); [reflexivity..|].
    destruct (Hseq l w' Hrun) as (scop & scop2' & _ & _ & Hl & Hstmts & Hshape).
    exists l, w', scop. split; [exact Hrun|]. split; [exact Hl|].
    rewrite Hstmts. destruct Hshape as [-> Hall]. split; [reflexivity|].
    apply Forall_forall. intros stmt Hin. apply list_elem_of_singleton in Hin as ->.
    apply Hall. reflexivity.
Defined.

End CompositionSamples.

(** * The rest of scop.c: proofs *)

(** One step of a computation on the heap. *)
Ltac run_step :=
  erewrite run_bind;
  [|first [apply run_load; first [eassumption|apply lookup_insert_eq]
          |apply run_modify; first [eassumption|apply lookup_insert_eq]
          |apply run_release
          |apply run_isl_die
          |apply run_pet_scop_free; first [eassumption|apply lookup_insert_eq]
          |apply run_pet_scop_free_null
          |apply run_ret]].

(** ** Composition: ownership and NULL arguments *)

Section OwnershipProofs.
Context {isl : IslOps} {pet : PetOps}.

Lemma scop_objects_with_merged_skips (scop1 scop2 scop : pet_scop_ext) :
  scop_objects (with_merged_skips scop1 scop2 scop) = scop_objects scop.
Proof. reflexivity. Qed.

(** X1.  When [pet_scop_add] returns a scop, every type, array, statement
    and implication that the two arguments owned is either owned by the
    result or was released, and none of them twice: the objects of the
    result together with the objects released by the call are those of the
    two arguments, up to their order.  The heap holds the result and no
    longer holds an argument that is not the result; no other scop of the
    heap is touched and nothing is reported. *)
Theorem add_conserves_objects (l1 l2 l : positive) (scop1 scop2 : pet_scop_ext)
    (w w' : world) :
  l1 ≠ l2 → heap w !! l1 = Some scop1 → heap w !! l2 = Some scop2 →
  pet_scop_add (Some l1) (Some l2) w = Some (Some l, w') →
  ∃ scop freed,
    heap w' !! l = Some scop
    ∧ released w' = released w ++ freed
    ∧ scop_objects scop ++ freed ≡ₚ scop_objects scop1 ++ scop_objects scop2
    ∧ (l ≠ l1 → heap w' !! l1 = None)
    ∧ (l ≠ l2 → heap w' !! l2 = None)
    ∧ (∀ l', l' ≠ l1 → l' ≠ l2 → l' ≠ l → heap w' !! l' = heap w !! l')
    ∧ diagnostics w' = diagnostics w.
Proof.
  intros Hne H1 H2 Hrun. destruct w as [h r d]. simpl in H1, H2 |- *.
  destruct (pet_scop_add_returns l1 l2 l scop1 scop2 _ _ _ w' Hne H1 H2 Hrun)
    as (_ & _ & [(Hs1 & -> & ->)|[(Hs1 & Hs2 & -> & ->)|(Hs1 & Hs2 & -> & ->)]]);
    simpl.
  - exists (with_merged_skips scop1 scop2 scop2), (scop_objects scop1).
    split; [apply lookup_insert_eq|]. split; [done|].
    split; [rewrite scop_objects_with_merged_skips; apply Permutation_app_comm|].
    split; [intros _; by rewrite lookup_insert_ne, lookup_delete_eq|].
    split; [done|]. split; [|done].
    intros l' Hl1 Hl2 _. by rewrite lookup_insert_ne, lookup_delete_ne.
  - exists (with_merged_skips scop1 scop2 scop1), (scop_objects scop2).
    split; [apply lookup_insert_eq|]. split; [done|].
    split; [by rewrite scop_objects_with_merged_skips|].
    split; [done|].
    split; [intros _; by rewrite lookup_insert_ne, lookup_delete_eq|].
    split; [|done].
    intros l' Hl1 Hl2 _. by rewrite lookup_insert_ne, lookup_delete_ne.
  - pose proof (fresh_ne h l1 _ H1) as Hf1. pose proof (fresh_ne h l2 _ H2) as Hf2.
    eexists (added_scop scop1 scop2), _.
    split; [apply lookup_insert_eq|]. split; [done|].
    split.
    { unfold scop_objects, added_scop; simpl. rewrite !fmap_app.
      pose proof (merged_duplicate_implications scop1 scop2) as Hm.
      apply (fmap_Permutation ObjImplication) in Hm. rewrite !fmap_app in Hm.
      trans (((ObjType <$> types scop1) ++ (ObjType <$> types scop2)
              ++ (ObjArray <$> arrays scop1) ++ (ObjArray <$> arrays scop2)
              ++ (ObjStmt <$> stmts scop1) ++ (ObjStmt <$> stmts scop2))
             ++ ((ObjImplication <$> merged_implications scop1 scop2)
                 ++ (ObjImplication <$> duplicate_implications scop1 scop2))).
      - solve_Permutation.
      - rewrite Hm. solve_Permutation. }
    split; [intros _; by rewrite lookup_insert_ne, lookup_delete_ne, lookup_delete_eq|].
    split; [intros _; by rewrite lookup_insert_ne, lookup_delete_eq|].
    split; [|done].
    intros l' Hl1 Hl2 Hl. by rewrite lookup_insert_ne, !lookup_delete_ne.
Qed.

End OwnershipProofs.

Section NullProofs.
Context {isl : IslOps} {pet : PetOps}.

Lemma run_pet_scop_add_null_r (l : positive) (scop : pet_scop_ext) h r d :
  h !! l = Some scop →
  pet_scop_add (Some l) None (World h r d)
  = Some (None, World (delete l h) (r ++ scop_objects scop) d).
Proof.
  intros Hl. unfold pet_scop_add.
  rewrite (run_bind _ _ _ _ _ (run_pet_scop_free _ _ _ _ _ Hl)).
  by rewrite (run_bind _ _ _ _ _ (run_pet_scop_free_null _)).
Qed.

Lemma run_pet_scop_add_null_l (l : positive) (scop : pet_scop_ext) h r d :
  h !! l = Some scop →
  pet_scop_add None (Some l) (World h r d)
  = Some (None, World (delete l h) (r ++ scop_objects scop) d).
Proof.
  intros Hl. unfold pet_scop_add.
  rewrite (run_bind _ _ _ _ _ (run_pet_scop_free_null _)).
  by rewrite (run_bind _ _ _ _ _ (run_pet_scop_free _ _ _ _ _ Hl)).
Qed.

(** X2.  When one of the two arguments of [pet_scop_add],
    [pet_scop_add_seq] or [pet_scop_add_par] is NULL, the other one is
    released with everything it owns and NULL is returned; nothing is
    reported.  With two NULL arguments nothing happens at all. *)
Theorem add_null_argument (l : positive) (scop : pet_scop_ext) (w : world) :
  heap w !! l = Some scop →
  let gone :=
    Some (None, World (delete l (heap w)) (released w ++ scop_objects scop) (diagnostics w)) in
  pet_scop_add (Some l) None w = gone
  ∧ pet_scop_add None (Some l) w = gone
  ∧ pet_scop_add_seq (Some l) None w = gone
  ∧ pet_scop_add_seq None (Some l) w = gone
  ∧ pet_scop_add_par (Some l) None w = gone
  ∧ pet_scop_add_par None (Some l) w = gone
  ∧ pet_scop_add None None w = Some (None, w)
  ∧ pet_scop_add_seq None None w = Some (None, w).
Proof.
  intros Hl. destruct w as [h r d]. simpl in Hl. cbn [heap released diagnostics].
  pose proof (run_pet_scop_add_null_r l scop h r d Hl) as Hr.
  pose proof (run_pet_scop_add_null_l l scop h r d Hl) as Hl'.
  repeat split; try done.
  unfold pet_scop_add_seq. rewrite (run_bind _ _ _ _ _ (run_load _ _ _ _ _ Hl)).
  destruct (pet_scop_has_skip scop pet_skip_now); [|done].
  destruct (pet_scop_get_skip scop pet_skip_now); [|done].
  unfold in_place. by rewrite (run_bind _ _ _ _ _ (run_ret _ _)).
Qed.

End NullProofs.

(** ** Sequences that cannot propagate the skip condition *)

Section SequenceFailureProofs.
Context {isl : IslOps} {pet : PetOps}.

(** [pet_scop_restrict] gives up on a skip condition that is not affine. *)
Lemma pet_scop_restrict_die (scop : pet_scop_ext) (cond : isl_set) (type : pet_skip)
    (k : isl_multi_pw_aff) :
  skip scop type = Some k → multi_pw_aff_is_affine k = false →
  pet_scop_restrict scop cond
  = Die isl_error_internal "can only restrict affine skips".
Proof.
  intros Hk Ha. unfold pet_scop_restrict, mbind, isl_result_mbind, isl_result_bind.
  destruct type.
  - unfold pet_scop_restrict_skip at 1. rewrite Hk, Ha. done.
  - destruct (pet_scop_restrict_skip scop pet_skip_now cond) as [sa|e m] eqn:Hnow.
    + assert (skip sa pet_skip_later = Some k) as Hk'.
      { unfold pet_scop_restrict_skip in Hnow.
        destruct (skip scop pet_skip_now) as [k1|]; [|by simplify_eq].
        destruct (negb (multi_pw_aff_is_affine k1)); [done|]. by simplify_eq. }
      unfold pet_scop_restrict_skip. rewrite Hk', Ha. done.
    + unfold pet_scop_restrict_skip in Hnow.
      destruct (skip scop pet_skip_now) as [k1|]; [|done].
      destruct (negb (multi_pw_aff_is_affine k1)); by simplify_eq.
Qed.

(** [pet_scop_filter] on the value zero gives up on any skip condition. *)
Lemma pet_scop_filter_zero_die (scop : pet_scop_ext) (test : isl_multi_pw_aff)
    (type : pet_skip) (k : isl_multi_pw_aff) :
  skip scop type = Some k →
  pet_scop_filter scop test 0
  = Die isl_error_internal "skip expression cannot be filtered".
Proof.
  intros Hk. unfold pet_scop_filter, mbind, isl_result_mbind, isl_result_bind.
  unfold pet_scop_filter_skip, pet_scop_has_skip.
  destruct type; simpl in Hk.
  - simpl. by rewrite Hk.
  - simpl. destruct (skip_now scop); simpl; [done|]. by rewrite Hk.
Qed.

(** X3.  A sequence whose first scop has an affine skip condition of type
    "now" fails when the second scop has a skip condition, of either type,
    that is not affine: the internal error "can only restrict affine
    skips" is reported, NULL is returned and both scops are released with
    everything they own. *)
Theorem add_seq_cannot_restrict_var_skip (l1 l2 : positive) (scop1 scop2 : pet_scop_ext)
    (w : world) (k k2 : isl_multi_pw_aff) (type : pet_skip) :
  l1 ≠ l2 → heap w !! l1 = Some scop1 → heap w !! l2 = Some scop2 →
  skip scop1 pet_skip_now = Some k → multi_pw_aff_is_affine k = true →
  skip scop2 type = Some k2 → multi_pw_aff_is_affine k2 = false →
  pet_scop_add_seq (Some l1) (Some l2) w
  = Some (None,
          World (delete l1 (delete l2 (heap w)))
            (released w ++ scop_objects scop2 ++ scop_objects scop1)
            (diagnostics w
             ++ [(isl_error_internal, "can only restrict affine skips"%string)])).
Proof.
  intros Hne H1 H2 Hk Ha Hk2 Ha2. destruct w as [h r d]. simpl in H1, H2.
  cbn [heap released diagnostics].
  apply (run_pet_scop_add_seq_die l1 l2 scop1 scop2 k); try done.
  unfold restrict_skip. rewrite Ha. simpl.
  by apply (pet_scop_restrict_die scop2 _ type k2).
Qed.

(** X4.  A sequence whose first scop has a skip condition of type "now"
    that is not affine fails when the second scop has any skip condition:
    the filter on the value zero that would express "not skipped" cannot
    be applied to a skip condition.  The internal error "skip expression
    cannot be filtered" is reported, NULL is returned and both scops are
    released with everything they own. *)
Theorem add_seq_cannot_filter_skip (l1 l2 : positive) (scop1 scop2 : pet_scop_ext)
    (w : world) (k k2 : isl_multi_pw_aff) (type : pet_skip) :
  l1 ≠ l2 → heap w !! l1 = Some scop1 → heap w !! l2 = Some scop2 →
  skip scop1 pet_skip_now = Some k → multi_pw_aff_is_affine k = false →
  skip scop2 type = Some k2 →
  pet_scop_add_seq (Some l1) (Some l2) w
  = Some (None,
          World (delete l1 (delete l2 (heap w)))
            (released w ++ scop_objects scop2 ++ scop_objects scop1)
            (diagnostics w
             ++ [(isl_error_internal, "skip expression cannot be filtered"%string)])).
Proof.
  intros Hne H1 H2 Hk Ha Hk2. destruct w as [h r d]. simpl in H1, H2.
  cbn [heap released diagnostics].
  apply (run_pet_scop_add_seq_die l1 l2 scop1 scop2 k); try done.
  unfold restrict_skip. rewrite Ha. simpl.
  by apply (pet_scop_filter_zero_die scop2 _ type k2).
Qed.

End SequenceFailureProofs.

(** ** Filtering and restricting a scop with skip conditions *)

Section SkipTransformProofs.
Context {isl : IslOps} {pet : PetOps}.

Lemma stmt_filter_same_implications (scop scop' : pet_scop_ext) (stmt : pet_stmt)
    (test : isl_multi_pw_aff) (satisfied' : Z) :
  implications scop = implications scop' →
  stmt_filter scop stmt test satisfied' = stmt_filter scop' stmt test satisfied'.
Proof.
  intros Hi. rewrite !stmt_filter_unfold.
  by rewrite (filter_implied_same_implications scop scop').
Qed.


End SkipTransformProofs.

Section RestrictSkipProofs.
Context {isl : IslOps} {pet : PetOps} {sem : IslSem} {petsem : PetSem}
  {isl_more : IslMoreOps} {more_sem : IslMoreSem}.

(** X6.  [pet_scop_restrict] needs every skip condition of the scop to be
    affine: otherwise the internal error "can only restrict affine skips"
    is the result.  On a scop with affine skip conditions it succeeds; each
    skip condition of the result is again affine, is defined where the
    original was defined, and holds (has value one) exactly where the
    original held and the parameter values satisfy the condition, and is
    zero elsewhere; a point is in the iteration domain of a statement of
    the result iff it was in the domain before and its parameter values
    satisfy the condition. *)
Theorem restrict_needs_affine_skips (scop : pet_scop_ext) (cond : isl_set) :
  let affine type :=
    match skip scop type with
    | None => true
    | Some k => multi_pw_aff_is_affine k
    end in
  pet_scop_restrict scop cond
  = (if affine pet_skip_now && affine pet_skip_later
     then Ok (PetScop (loc scop) (restricted_context (context scop) cond)
                (context_value scop) (types scop) (arrays scop)
                ((λ stmt, stmt_restrict stmt cond) <$> stmts scop) (implications scop)
                (restricted_skip cond <$> skip_now scop)
                (restricted_skip cond <$> skip_later scop) (input scop))
     else Die isl_error_internal "can only restrict affine skips")
  ∧ (∀ k,
       multi_pw_aff_is_affine (restricted_skip cond k) = true
       ∧ ∀ p,
           pw_eval (isl_multi_pw_aff_get_pw_aff (restricted_skip cond k) 0) p
           = match pw_eval (isl_multi_pw_aff_get_pw_aff k 0) p with
             | Some v =>
                 Some (if set_mem cond (pt_params p) && bool_decide (v ≠ 0) then 1 else 0)
             | None => None
             end)
  ∧ ∀ stmt p,
      set_mem (domain (stmt_restrict stmt cond)) p
      = set_mem (domain stmt) p && set_mem cond (pt_params p).
Proof.
  cbv zeta. split; [|split].
  - destruct (skip scop pet_skip_now) as [kn|] eqn:Hn;
      [destruct (multi_pw_aff_is_affine kn) eqn:Han|];
      (destruct (skip scop pet_skip_later) as [kl|] eqn:Hl;
         [destruct (multi_pw_aff_is_affine kl) eqn:Hal|]); simpl;
      try (by apply (pet_scop_restrict_die scop cond pet_skip_now kn));
      try (by apply (pet_scop_restrict_die scop cond pet_skip_later kl)).
    all: destruct (pet_scop_restrict_affine scop cond) as [scop1 H1];
      [intros [] k Hk; simpl in *; congruence|].
    all: rewrite H1; f_equal; by apply pet_scop_restrict_ok in H1 as [-> _].
  - intros k. split; [apply restricted_skip_affine|].
    intros p. rewrite eval_restricted_skip. by rewrite mem_from_params.
  - intros stmt p. apply mem_intersect_params.
Qed.

Lemma mem_params_non_zero_set (pa : isl_pw_aff) :
  (∀ p, is_Some (pw_eval pa p) → pt_params p = p) →
  ∀ q, set_mem (isl_set_params (isl_pw_aff_non_zero_set pa)) q
       = match pw_eval pa q with Some v => bool_decide (v ≠ 0) | None => false end.
Proof.
  intros Hz q. rewrite mem_params_zero_dim; [apply mem_pw_aff_non_zero_set|].
  intros p. rewrite mem_pw_aff_non_zero_set. intros Hp. apply Hz.
  by destruct (pw_eval pa p).
Qed.

(** X7.  The parameter values at which an affine skip condition over a
    zero-dimensional domain holds, as [pet_scop_get_affine_skip_domain]
    returns them: after [pet_scop_restrict] with a condition, they are the
    values at which the skip condition held before and that satisfy the
    condition.  Without a skip condition there is no such set, before and
    after. *)
Theorem affine_skip_domain_after_restrict (scop scop1 : pet_scop_ext) (cond : isl_set)
    (type : pet_skip) :
  pet_scop_restrict scop cond = Ok scop1 →
  match skip scop type with
  | None =>
      pet_scop_get_affine_skip_domain scop type = None
      ∧ pet_scop_get_affine_skip_domain scop1 type = None
  | Some k =>
      ∃ before after,
        pet_scop_get_affine_skip_domain scop type = Some before
        ∧ pet_scop_get_affine_skip_domain scop1 type = Some after
        ∧ (skip_zero_dimensional k →
           ∀ q, set_mem after q = set_mem before q && set_mem cond q)
  end.
Proof.
  intros H1. apply pet_scop_restrict_ok in H1 as [-> _].
  assert (∀ k, skip_zero_dimensional k →
            ∀ q, set_mem (isl_set_params (isl_pw_aff_non_zero_set
                            (isl_multi_pw_aff_get_pw_aff (restricted_skip cond k) 0))) q
                 = set_mem (isl_set_params (isl_pw_aff_non_zero_set
                              (isl_multi_pw_aff_get_pw_aff k 0))) q
                   && set_mem cond q) as Hmem.
  { intros k Hz q. rewrite !mem_params_non_zero_set.
    - rewrite eval_restricted_skip, mem_from_params.
      destruct (pw_eval (isl_multi_pw_aff_get_pw_aff k 0) q) as [v|] eqn:Hv; [|done].
      rewrite (Hz q) by (by rewrite Hv).
      by destruct (set_mem cond q), (bool_decide (v ≠ 0)).
    - exact Hz.
    - intros p. rewrite eval_restricted_skip. intros Hp. apply Hz.
      by destruct (pw_eval (isl_multi_pw_aff_get_pw_aff k 0) p). }
  unfold pet_scop_get_affine_skip_domain, pet_scop_get_skip.
  destruct type; simpl; [destruct (skip_now scop) as [k|]|destruct (skip_later scop) as [k|]];
    simpl; try done.
  all: eexists _, _; split; [done|]; split; [done|]; by apply Hmem.
Qed.

End RestrictSkipProofs.

(** ** What loop embedding keeps *)

Section EmbedFrameProofs.
Context {isl : IslOps} {pet : PetOps}.

Lemma pet_stmt_embed_frame (stmt : pet_stmt) (dom : isl_set) (sched : isl_map)
    (iv_map' : isl_aff) (id : isl_id) :
  stmt_loc (pet_stmt_embed stmt dom sched iv_map' id) = stmt_loc stmt
  ∧ n_arg (pet_stmt_embed stmt dom sched iv_map' id) = n_arg stmt.
Proof.
  unfold pet_stmt_embed, n_arg.
  destruct (isl_set_is_wrapping (domain stmt)); simpl; by rewrite length_fmap.
Qed.

(** X8.  The scop that [pet_scop_embed] returns has no skip condition of
    either type, whatever skip conditions the scop had: a break or
    continue inside the loop has no effect outside of it.  Embedding keeps
    the number of statements, arrays and implications, the location, the
    types, the context value and the input file of the scop, the location
    and the number of arguments of every statement and the value of every
    implication, and when the induction variable is not a parameter of the
    context it keeps the context. *)
Theorem embed_drops_skips (scop : pet_scop_ext) (dom : isl_set) (sched iv_map' : isl_aff)
    (id : isl_id) :
  let scop' := pet_scop_embed scop dom sched iv_map' id in
  skip scop' pet_skip_now = None ∧ skip scop' pet_skip_later = None
  ∧ pet_scop_has_skip scop' pet_skip_now = false
  ∧ pet_scop_has_skip scop' pet_skip_later = false
  ∧ n_stmt scop' = n_stmt scop ∧ n_array scop' = n_array scop
  ∧ n_implication scop' = n_implication scop
  ∧ loc scop' = loc scop ∧ types scop' = types scop
  ∧ context_value scop' = context_value scop ∧ input scop' = input scop
  ∧ Forall2 (λ stmt stmt', stmt_loc stmt' = stmt_loc stmt ∧ n_arg stmt' = n_arg stmt)
      (stmts scop) (stmts scop')
  ∧ satisfied <$> implications scop' = satisfied <$> implications scop
  ∧ (isl_set_find_dim_by_id (context scop) isl_dim_param id < 0 →
     context scop' = context scop).
Proof.
  cbv zeta. unfold pet_scop_embed, pet_scop_reset_skip, pet_scop_has_skip,
    n_stmt, n_array, n_implication.
  destruct scop as [lo cx cv ty ar st im sn sl inp]. simpl.
  rewrite !length_fmap. repeat split; try done.
  - apply Forall2_fmap_r, Forall_Forall2_diag, Forall_forall.
    intros stmt _. apply pet_stmt_embed_frame.
  - rewrite <- list_fmap_compose. by apply list_fmap_ext.
  - intros Hpos. unfold context_embed. by rewrite decide_True.
Qed.

End EmbedFrameProofs.

(** ** The implications of a composition *)

Section ImplicationProofs.
Context {isl : IslOps} {pet : PetOps}.

Lemma is_known_implication_spec (scop : pet_scop_ext) (pi : pet_implication) :
  is_known_implication scop pi = true
  ↔ ∃ pi1, pi1 ∈ implications scop ∧ satisfied pi1 = satisfied pi
           ∧ isl_map_is_equal (extension pi1) (extension pi) = true.
Proof.
  unfold is_known_implication. rewrite existsb_exists. split.
  - intros (pi1 & Hin & Heq). exists pi1. rewrite list_elem_of_In.
    by destruct (decide (satisfied pi1 = satisfied pi)).
  - intros (pi1 & Hin & Hs & Heq). exists pi1. rewrite <- list_elem_of_In.
    by rewrite decide_True.
Qed.

(** X9.  When [pet_scop_add] combines two scops with statements, the
    implications of the result are those of the first scop, all of them and
    in their order, followed by implications of the second scop, in their
    order.  An implication of the second scop is left out, and released,
    exactly when the first scop has implications, the second has too, and
    one of the first has the same value and an equal extension
    ([isl_map_is_equal]); implications of the second scop are never
    compared with each other. *)
Theorem add_merges_implications (l1 l2 l : positive) (scop1 scop2 : pet_scop_ext)
    (w w' : world) :
  l1 ≠ l2 → heap w !! l1 = Some scop1 → heap w !! l2 = Some scop2 →
  stmts scop1 ≠ [] → stmts scop2 ≠ [] →
  pet_scop_add (Some l1) (Some l2) w = Some (Some l, w') →
  ∃ scop kept dropped,
    heap w' !! l = Some scop
    ∧ implications scop = implications scop1 ++ kept
    ∧ kept `sublist_of` implications scop2
    ∧ dropped `sublist_of` implications scop2
    ∧ kept ++ dropped ≡ₚ implications scop2
    ∧ (∀ pi, pi ∈ dropped →
         ObjImplication pi ∈ released w'
         ∧ ∃ pi1, pi1 ∈ implications scop1 ∧ satisfied pi1 = satisfied pi
                  ∧ isl_map_is_equal (extension pi1) (extension pi) = true)
    ∧ (∀ pi, pi ∈ kept → implications scop1 ≠ [] →
         ∀ pi1, pi1 ∈ implications scop1 → satisfied pi1 = satisfied pi →
           isl_map_is_equal (extension pi1) (extension pi) = false)
    ∧ (implications scop1 = [] → kept = implications scop2 ∧ dropped = []).
Proof.
  intros Hne H1 H2 Hs1 Hs2 Hrun. destruct w as [h r d]. simpl in H1, H2.
  destruct (pet_scop_add_returns l1 l2 l scop1 scop2 _ _ _ w' Hne H1 H2 Hrun)
    as (_ & _ & [(? & _)|[(_ & ? & _)|(_ & _ & -> & ->)]]); [done..|].
  simpl. unfold added_scop.
  destruct (decide (n_implication scop2 = 0%nat)) as [Hn2|Hn2];
    [|destruct (decide (n_implication scop1 = 0%nat)) as [Hn1|Hn1]].
  - (* the second scop has no implication *)
    apply length_zero_iff_nil in Hn2.
    exists (added_scop scop1 scop2), [], [].
    split; [apply lookup_insert_eq|]. unfold added_scop, merged_implications; simpl.
    rewrite decide_True by (unfold n_implication; by rewrite Hn2).
    rewrite Hn2, app_nil_r.
    split; [done|]. split; [done|]. split; [done|]. split; [done|].
    split; [by intros pi Hpi; apply elem_of_nil in Hpi|].
    split; [by intros pi Hpi; apply elem_of_nil in Hpi|]. done.
  - (* the first scop has none: the second list is taken as it is *)
    apply length_zero_iff_nil in Hn1.
    exists (added_scop scop1 scop2), (implications scop2), [].
    split; [apply lookup_insert_eq|]. unfold added_scop, merged_implications; simpl.
    rewrite decide_False by done.
    rewrite decide_True by (unfold n_implication; by rewrite Hn1).
    rewrite Hn1, app_nil_r.
    split; [done|]. split; [done|]. split; [apply sublist_nil_l|]. split; [done|].
    split; [by intros pi Hpi; apply elem_of_nil in Hpi|].
    split; [by intros pi _ Hne1|]. done.
  - exists (added_scop scop1 scop2),
      (filter (λ pi, is_known_implication scop1 pi = false) (implications scop2)),
      (filter (λ pi, is_known_implication scop1 pi = true) (implications scop2)).
    split; [apply lookup_insert_eq|]. unfold added_scop, merged_implications; simpl.
    rewrite !decide_False by done.
    split; [done|]. split; [apply sublist_filter|]. split; [apply sublist_filter|].
    split.
    { rewrite (list_filter_iff (λ pi, is_known_implication scop1 pi = false)
                 (λ pi, ¬ is_known_implication scop1 pi = true)).
      - rewrite (comm (++)).
        apply (filter_app_complement (λ pi, is_known_implication scop1 pi = true)).
      - intros pi. by destruct (is_known_implication scop1 pi). }
    split.
    { intros pi [Hknown Hin]%list_elem_of_filter. split.
      - unfold duplicate_implications. rewrite !decide_False by done.
        rewrite !elem_of_app. right. right. right.
        apply list_elem_of_fmap_2. by apply list_elem_of_filter.
      - by apply is_known_implication_spec. }
    split.
    { intros pi [Hknown Hin]%list_elem_of_filter _ pi1 Hin1 Hsat.
      destruct (isl_map_is_equal (extension pi1) (extension pi)) eqn:Heq; [|done].
      assert (is_known_implication scop1 pi = true) as Hk
        by (apply is_known_implication_spec; eauto).
      congruence. }
    intros Hnil. unfold n_implication in Hn1. by rewrite Hnil in Hn1.
Qed.

End ImplicationProofs.

(** ** Data dependent conditions *)

Section DataDependentProofs.
Context {isl : IslOps} {pet : PetOps} {isl_more : IslMoreOps} {pet_more : PetMoreOps}.

Lemma pet_scop_filter_skip_ok (scop scop' : pet_scop_ext) (type : pet_skip)
    (test : isl_multi_pw_aff) (satisfied' : Z) :
  pet_scop_filter_skip scop type test satisfied' = Ok scop' →
  stmts scop' = stmts scop.
Proof.
  unfold pet_scop_filter_skip, pet_scop_set_skip.
  destruct (negb (pet_scop_has_skip scop type)); [by intros [= <-]|].
  destruct (bool_decide (satisfied' ≠ 0) && _); [|done].
  intros [= <-]. by destruct type.
Qed.

Lemma pet_scop_filter_ok_stmts (scop scop' : pet_scop_ext) (test : isl_multi_pw_aff)
    (satisfied' : Z) :
  pet_scop_filter scop test satisfied' = Ok scop' →
  ∃ scop2, stmts scop' = (λ stmt, stmt_filter scop2 stmt test satisfied') <$> stmts scop.
Proof.
  unfold pet_scop_filter, mbind, isl_result_mbind, isl_result_bind.
  destruct (pet_scop_filter_skip scop pet_skip_now test satisfied') as [sa|] eqn:Ha; [|done].
  destruct (pet_scop_filter_skip sa pet_skip_later test satisfied') as [sb|] eqn:Hb; [|done].
  apply pet_scop_filter_skip_ok in Ha, Hb. intros [= <-]. exists sb. simpl.
  by rewrite Hb, Ha.
Qed.

(** A statement that went through [stmt_filter] has an argument: the one
    it gained, or the one that implies the filter. *)
Lemma stmt_filter_has_argument (scop : pet_scop_ext) (stmt : pet_stmt)
    (test : isl_multi_pw_aff) (satisfied' : Z) :
  (0 < n_arg (stmt_filter scop stmt test satisfied'))%nat.
Proof.
  destruct (stmt_filter_cases scop stmt test satisfied') as [[Himp ->]|(_ & Hargs & _)].
  - unfold filter_implied in Himp.
    destruct (decide (n_implication scop = 0%nat)); [done|].
    destruct (decide (n_arg stmt = 0%nat)); [done|]. lia.
  - unfold n_arg. rewrite Hargs. simpl. lia.
Qed.

Lemma has_data_dependent_conditions_fmap (f : pet_stmt → pet_stmt) (l : list pet_stmt) :
  (∀ stmt, n_arg (f stmt) = n_arg stmt) →
  existsb (λ stmt, bool_decide (0 < n_arg stmt)%nat) (f <$> l)
  = existsb (λ stmt, bool_decide (0 < n_arg stmt)%nat) l.
Proof.
  intros Hf. induction l as [|stmt l IH]; [done|].
  rewrite fmap_cons. cbn [existsb]. by rewrite Hf, IH.
Qed.

(** X10.  After a successful [pet_scop_filter] every statement of the scop
    has at least one argument, so [pet_scop_has_data_dependent_conditions]
    holds of the result as soon as the scop has a statement.  The answer
    of [pet_scop_has_data_dependent_conditions] is not changed by
    [pet_scop_restrict], [pet_scop_embed], [pet_scop_gist],
    [pet_scop_prefix] and [pet_scop_intersect_domain_prefix]: none of them
    adds or removes an argument of a statement. *)
Theorem data_dependent_conditions_kept (scop : pet_scop_ext) :
  (∀ test satisfied' scop',
     pet_scop_filter scop test satisfied' = Ok scop' →
     Forall (λ stmt, 0 < n_arg stmt)%nat (stmts scop')
     ∧ pet_scop_has_data_dependent_conditions scop' = bool_decide (stmts scop ≠ []))
  ∧ (∀ cond scop',
       pet_scop_restrict scop cond = Ok scop' →
       pet_scop_has_data_dependent_conditions scop'
       = pet_scop_has_data_dependent_conditions scop)
  ∧ (∀ dom sched iv_map' id,
       pet_scop_has_data_dependent_conditions (pet_scop_embed scop dom sched iv_map' id)
       = pet_scop_has_data_dependent_conditions scop)
  ∧ (∀ value_bounds',
       pet_scop_has_data_dependent_conditions (pet_scop_gist scop value_bounds')
       = pet_scop_has_data_dependent_conditions scop)
  ∧ (∀ pos,
       pet_scop_has_data_dependent_conditions (pet_scop_prefix scop pos)
       = pet_scop_has_data_dependent_conditions scop)
  ∧ (∀ domain',
       pet_scop_has_data_dependent_conditions
         (pet_scop_intersect_domain_prefix scop domain')
       = pet_scop_has_data_dependent_conditions scop).
Proof.
  unfold pet_scop_has_data_dependent_conditions. repeat split.
  - apply pet_scop_filter_ok_stmts in H as [scop2 ->].
    apply Forall_fmap, Forall_forall. intros stmt _. apply stmt_filter_has_argument.
  - apply pet_scop_filter_ok_stmts in H as [scop2 ->].
    destruct (stmts scop) as [|stmt l]; simpl; [done|].
    rewrite (bool_decide_true (0 < _)%nat) by apply stmt_filter_has_argument. done.
  - intros cond scop' Hr.
    unfold pet_scop_restrict, mbind, isl_result_mbind, isl_result_bind in Hr.
    destruct (pet_scop_restrict_skip scop pet_skip_now cond) as [sa|] eqn:Ha; [|done].
    destruct (pet_scop_restrict_skip sa pet_skip_later cond) as [sb|] eqn:Hb; [|done].
    assert (stmts sb = stmts scop) as Hsb.
    { unfold pet_scop_restrict_skip in Ha, Hb.
      destruct (skip scop pet_skip_now); [destruct (negb _); [done|]|];
        destruct (skip sa pet_skip_later); try destruct (negb _); by simplify_eq. }
    simplify_eq. simpl. rewrite Hsb. by apply has_data_dependent_conditions_fmap.
  - intros dom sched iv_map' id. unfold pet_scop_embed. simpl.
    apply has_data_dependent_conditions_fmap. intros stmt.
    unfold pet_stmt_embed, n_arg.
    destruct (isl_set_is_wrapping (domain stmt)); simpl; by rewrite length_fmap.
  - intros value_bounds'. unfold pet_scop_gist. simpl.
    apply has_data_dependent_conditions_fmap. intros stmt.
    unfold stmt_gist, n_arg. simpl. by rewrite length_fmap.
  - intros pos. unfold pet_scop_prefix. simpl.
    by apply has_data_dependent_conditions_fmap.
  - intros domain'. unfold pet_scop_intersect_domain_prefix. simpl.
    by apply has_data_dependent_conditions_fmap.
Qed.

(** X11.  The queries on a skip condition partition the scops: for each
    type, a scop has no skip condition, or an affine one, or one that is
    not affine, and never two of these.  A skip condition that holds
    everywhere is affine.  [pet_scop_get_skip_id] follows the partition: it
    returns NULL without a report when there is no skip condition, fails
    with the error "tuple has no id" exactly when the skip condition is
    affine, and returns an identifier, that of the test, exactly when the
    skip condition is not affine.  [pet_scop_get_skip_expr] returns
    something exactly when there is a skip condition, a read of it.  After
    [pet_scop_set_skip] the queries answer for the test that was set, and
    after [pet_scop_reset_skip] there is no skip condition. *)
Theorem skip_queries_partition (scop : pet_scop_ext) (type : pet_skip) :
  pet_scop_has_skip scop type
  = pet_scop_has_affine_skip scop type || pet_scop_has_var_skip scop type
  ∧ pet_scop_has_affine_skip scop type && pet_scop_has_var_skip scop type = false
  ∧ (pet_scop_has_universal_skip scop type = true →
     pet_scop_has_affine_skip scop type = true)
  ∧ (pet_scop_has_skip scop type = false ↔ pet_scop_get_skip scop type = None)
  ∧ (pet_scop_get_skip_id scop type = Ok None ↔ pet_scop_has_skip scop type = false)
  ∧ (pet_scop_get_skip_id scop type = Die isl_error_invalid "tuple has no id"
     ↔ pet_scop_has_affine_skip scop type = true)
  ∧ ((∃ id, pet_scop_get_skip_id scop type = Ok (Some id))
     ↔ pet_scop_has_var_skip scop type = true)
  ∧ (∀ k, skip scop type = Some k → multi_pw_aff_is_affine k = false →
          pet_scop_get_skip_id scop type
          = Ok (Some (isl_multi_pw_aff_get_tuple_id k isl_dim_out)))
  ∧ (is_Some (pet_scop_get_skip_expr scop type) ↔ pet_scop_has_skip scop type = true)
  ∧ ∀ test,
      pet_scop_get_skip (pet_scop_set_skip scop type test) type = Some test
      ∧ pet_scop_get_skip_id (pet_scop_set_skip scop type test) type
        = (if multi_pw_aff_is_affine test
           then Die isl_error_invalid "tuple has no id"
           else Ok (Some (isl_multi_pw_aff_get_tuple_id test isl_dim_out)))
      ∧ pet_scop_get_skip_expr (pet_scop_set_skip scop type test) type
        = Some (pet_expr_from_index test)
      ∧ pet_scop_has_var_skip (pet_scop_set_skip scop type test) type
        = negb (multi_pw_aff_is_affine test)
      ∧ pet_scop_has_skip (pet_scop_reset_skip (pet_scop_set_skip scop type test) type) type
        = false.
Proof.
  unfold pet_scop_has_skip, pet_scop_has_affine_skip, pet_scop_has_var_skip,
    pet_scop_has_universal_skip, pet_scop_get_skip, pet_scop_get_skip_id,
    pet_scop_get_skip_expr, pet_scop_get_skip, pet_scop_set_skip, pet_scop_reset_skip,
    multi_pw_aff_is_affine.
  split; [|split; [|split; [|split; [|split; [|split; [|split; [|split; [|split]]]]]]]].
  - destruct (skip scop type) as [k|]; simpl; [|done].
    by destruct (isl_multi_pw_aff_has_tuple_id k isl_dim_out).
  - destruct (skip scop type) as [k|]; simpl; [|done].
    by destruct (isl_multi_pw_aff_has_tuple_id k isl_dim_out).
  - destruct (skip scop type) as [k|]; simpl; [|done].
    by destruct (isl_multi_pw_aff_has_tuple_id k isl_dim_out).
  - destruct (skip scop type) as [k|]; simpl; split; done.
  - destruct (skip scop type) as [k|]; simpl; [|done].
    destruct (isl_multi_pw_aff_has_tuple_id k isl_dim_out); split; done.
  - destruct (skip scop type) as [k|]; simpl; [|done].
    destruct (isl_multi_pw_aff_has_tuple_id k isl_dim_out); split; done.
  - destruct (skip scop type) as [k|]; simpl.
    + destruct (isl_multi_pw_aff_has_tuple_id k isl_dim_out); simpl; split;
        first [done|by intros [? ?]|by eexists].
    + split; [by intros [? ?]|done].
  - intros k -> Hk. by destruct (isl_multi_pw_aff_has_tuple_id k isl_dim_out).
  - destruct (skip scop type) as [k|]; simpl; split; intros Hs; try done;
      first [by eexists|by destruct Hs].
  - intros test. rewrite !skip_set_skip, !decide_True by done. simpl.
    destruct (isl_multi_pw_aff_has_tuple_id test isl_dim_out); repeat split; done.
Qed.

End DataDependentProofs.

(** ** Comparing scops *)

Section ComparisonProofs.
Context {isl : IslOps} {pet : PetOps} {isl_more : IslMoreOps} {pet_more : PetMoreOps}.

Lemma all_equal_spec {A} (equal : option A → option A → bool) (l1 l2 : list A) :
  length l1 = length l2 →
  all_equal equal l1 l2 = true ↔ Forall2 (λ a b, equal (Some a) (Some b) = true) l1 l2.
Proof.
  revert l2. induction l1 as [|x l1 IH]; intros [|y l2] Hlen; simplify_eq/=.
  - split; [constructor|done].
  - rewrite Forall2_cons. destruct (equal (Some x) (Some y)); simpl.
    + rewrite IH by done. intuition.
    + intuition congruence.
Qed.

Lemma pet_type_is_equal_spec (type1 type2 : pet_type) :
  pet_type_is_equal (Some type1) (Some type2) = true ↔ type_name type1 = type_name type2.
Proof. simpl. case_bool_decide; simpl; intuition congruence. Qed.

Lemma pet_implication_is_equal_spec (pi1 pi2 : pet_implication) :
  pet_implication_is_equal (Some pi1) (Some pi2) = true
  ↔ satisfied pi1 = satisfied pi2
    ∧ isl_map_is_equal (extension pi1) (extension pi2) = true.
Proof.
  simpl. case_bool_decide; simpl; [|intuition congruence].
  destruct (isl_map_is_equal _ _); simpl; intuition congruence.
Qed.

Lemma pet_stmt_is_equal_spec (stmt1 stmt2 : pet_stmt) :
  pet_stmt_is_equal (Some stmt1) (Some stmt2) = true
  ↔ pet_loc_get_line (stmt_loc stmt1) = pet_loc_get_line (stmt_loc stmt2)
    ∧ isl_set_is_equal (domain stmt1) (domain stmt2) = true
    ∧ isl_map_is_equal (schedule stmt1) (schedule stmt2) = true
    ∧ pet_expr_is_equal (body stmt1) (body stmt2) = true
    ∧ Forall2 (λ a b, pet_expr_is_equal a b = true) (args stmt1) (args stmt2).
Proof.
  simpl.
  case_bool_decide as Hline; simpl; [|intuition congruence].
  destruct (isl_set_is_equal _ _); simpl; [|intuition congruence].
  destruct (isl_map_is_equal _ _); simpl; [|intuition congruence].
  destruct (pet_expr_is_equal (body stmt1) _); simpl; [|intuition congruence].
  case_bool_decide as Hn; simpl.
  - rewrite all_equal_spec by done. intuition.
  - split; [done|]. intros (_ & _ & _ & _ & Hargs).
    apply Forall2_length in Hargs. done.
Qed.

Lemma pet_array_is_equal_spec (array1 array2 : pet_array) :
  pet_array_is_equal (Some array1) (Some array2) = true
  ↔ isl_set_is_equal (array_context array1) (array_context array2) = true
    ∧ isl_set_is_equal (extent array1) (extent array2) = true
    ∧ match value_bounds array1, value_bounds array2 with
      | Some b1, Some b2 => isl_set_is_equal b1 b2 = true
      | None, None => True
      | _, _ => False
      end
    ∧ element_type array1 = element_type array2
    ∧ element_is_record array1 = element_is_record array2
    ∧ live_out array1 = live_out array2
    ∧ uniquely_defined array1 = uniquely_defined array2
    ∧ declared array1 = declared array2
    ∧ exposed array1 = exposed array2.
Proof.
  assert ((if negb (bool_decide (element_type array1 = element_type array2)) then false
           else if negb (eqb (element_is_record array1) (element_is_record array2))
           then false
           else if negb (eqb (live_out array1) (live_out array2)) then false
           else if negb (eqb (uniquely_defined array1) (uniquely_defined array2))
           then false
           else if negb (eqb (declared array1) (declared array2)) then false
           else if negb (eqb (exposed array1) (exposed array2)) then false
           else true) = true
          ↔ element_type array1 = element_type array2
            ∧ element_is_record array1 = element_is_record array2
            ∧ live_out array1 = live_out array2
            ∧ uniquely_defined array1 = uniquely_defined array2
            ∧ declared array1 = declared array2
            ∧ exposed array1 = exposed array2) as Hrest.
  { case_bool_decide as Ht; simpl; [|intuition congruence].
    repeat match goal with
           | |- context [eqb ?a ?b] => destruct (eqb a b) eqn:?; simpl
           end;
      rewrite ?eqb_true_iff, ?eqb_false_iff in *; intuition congruence. }
  simpl.
  destruct (isl_set_is_equal (array_context array1) _); simpl; [|intuition congruence].
  destruct (isl_set_is_equal (extent array1) _); simpl; [|intuition congruence].
  destruct (value_bounds array1) as [b1|], (value_bounds array2) as [b2|]; simpl;
    try destruct (isl_set_is_equal b1 b2); simpl; rewrite ?Hrest; intuition congruence.
Qed.

Lemma pet_scop_is_equal_spec (scop1 scop2 : pet_scop_ext) :
  pet_scop_is_equal (Some scop1) (Some scop2) = true
  ↔ isl_set_is_equal (context scop1) (context scop2) = true
    ∧ isl_set_is_equal (context_value scop1) (context_value scop2) = true
    ∧ Forall2 (λ a b, pet_type_is_equal (Some a) (Some b) = true)
        (types scop1) (types scop2)
    ∧ Forall2 (λ a b, pet_array_is_equal (Some a) (Some b) = true)
        (arrays scop1) (arrays scop2)
    ∧ Forall2 (λ a b, pet_stmt_is_equal (Some a) (Some b) = true)
        (stmts scop1) (stmts scop2)
    ∧ Forall2 (λ a b, pet_implication_is_equal (Some a) (Some b) = true)
        (implications scop1) (implications scop2).
Proof.
  unfold pet_scop_is_equal.
  destruct (isl_set_is_equal (context scop1) _); simpl; [|intuition congruence].
  destruct (isl_set_is_equal (context_value scop1) _); simpl; [|intuition congruence].
  case_bool_decide as Ht; simpl.
  2:{ split; [done|]. intros (_ & _ & H%Forall2_length & _). done. }
  pose proof (all_equal_spec pet_type_is_equal _ _ Ht) as Hts.
  destruct (all_equal pet_type_is_equal _ _); simpl.
  2:{ split; [done|]. intros (_ & _ & H & _). apply Hts in H. done. }
  case_bool_decide as Ha; simpl.
  2:{ split; [done|]. intros (_ & _ & _ & H%Forall2_length & _). done. }
  pose proof (all_equal_spec pet_array_is_equal _ _ Ha) as Has.
  destruct (all_equal pet_array_is_equal _ _); simpl.
  2:{ split; [done|]. intros (_ & _ & _ & H & _). apply Has in H. done. }
  case_bool_decide as Hs; simpl.
  2:{ split; [done|]. intros (_ & _ & _ & _ & H%Forall2_length & _). done. }
  pose proof (all_equal_spec pet_stmt_is_equal _ _ Hs) as Hss.
  destruct (all_equal pet_stmt_is_equal _ _); simpl.
  2:{ split; [done|]. intros (_ & _ & _ & _ & H & _). apply Hss in H. done. }
  case_bool_decide as Hi; simpl.
  2:{ split; [done|]. intros (_ & _ & _ & _ & _ & H%Forall2_length). done. }
  pose proof (all_equal_spec pet_implication_is_equal _ _ Hi) as His.
  destruct (all_equal pet_implication_is_equal _ _); simpl.
  2:{ split; [done|]. intros (_ & _ & _ & _ & _ & H). apply His in H. done. }
  split; [|done]. intros _.
  split; [done|]. split; [done|]. split; [by apply Hts|]. split; [by apply Has|].
  split; [by apply Hss|by apply His].
Qed.

(** X12.  [pet_scop_is_equal] answers yes exactly when both scops are not
    NULL, their contexts and context values are equal sets, they have as
    many types, arrays, statements and implications as each other, and the
    entries at the same position compare equal: types by their names,
    arrays by [pet_array_is_equal], statements by line number, domain,
    schedule, body and arguments (as many, equal at each position), and
    implications by value and extension.  NULL is equal to nothing, not
    even to NULL. *)
Theorem scop_is_equal_decides (scop1 scop2 : option pet_scop_ext) :
  (pet_scop_is_equal scop1 scop2 = true
   ↔ ∃ a b,
       scop1 = Some a ∧ scop2 = Some b
       ∧ isl_set_is_equal (context a) (context b) = true
       ∧ isl_set_is_equal (context_value a) (context_value b) = true
       ∧ Forall2 (λ t u, type_name t = type_name u) (types a) (types b)
       ∧ Forall2 (λ x y, pet_array_is_equal (Some x) (Some y) = true) (arrays a) (arrays b)
       ∧ Forall2
           (λ x y,
              pet_loc_get_line (stmt_loc x) = pet_loc_get_line (stmt_loc y)
              ∧ isl_set_is_equal (domain x) (domain y) = true
              ∧ isl_map_is_equal (schedule x) (schedule y) = true
              ∧ pet_expr_is_equal (body x) (body y) = true
              ∧ Forall2 (λ e f, pet_expr_is_equal e f = true) (args x) (args y))
           (stmts a) (stmts b)
       ∧ Forall2
           (λ x y,
              satisfied x = satisfied y
              ∧ isl_map_is_equal (extension x) (extension y) = true)
           (implications a) (implications b))
  ∧ (pet_scop_is_equal scop1 scop2 = true →
     ∃ a b,
       scop1 = Some a ∧ scop2 = Some b
       ∧ n_type a = n_type b ∧ n_array a = n_array b
       ∧ n_stmt a = n_stmt b ∧ n_implication a = n_implication b)
  ∧ pet_scop_is_equal None scop2 = false
  ∧ pet_scop_is_equal scop1 None = false
  ∧ pet_array_is_equal None None = false ∧ pet_stmt_is_equal None None = false
  ∧ pet_type_is_equal None None = false ∧ pet_implication_is_equal None None = false.
Proof.
  split; [|split; [|split; [done|split; [by destruct scop1|done]]]].
  - destruct scop1 as [a|], scop2 as [b|]; try (split; [done|by intros (? & ? & ? & ? & _)]).
    rewrite pet_scop_is_equal_spec. split.
    + intros (Hc & Hv & Ht & Ha & Hs & Hi). exists a, b.
      do 4 (split; [done|]). split; [|split; [done|split]].
      * eapply Forall2_impl; [exact Ht|]. intros t u. by rewrite pet_type_is_equal_spec.
      * eapply Forall2_impl; [exact Hs|]. intros x y. by rewrite pet_stmt_is_equal_spec.
      * eapply Forall2_impl; [exact Hi|]. intros x y.
        by rewrite pet_implication_is_equal_spec.
    + intros (a' & b' & [= <-] & [= <-] & Hc & Hv & Ht & Ha & Hs & Hi).
      do 2 (split; [done|]). split; [|split; [done|split]].
      * eapply Forall2_impl; [exact Ht|]. intros t u. by rewrite pet_type_is_equal_spec.
      * eapply Forall2_impl; [exact Hs|]. intros x y. by rewrite pet_stmt_is_equal_spec.
      * eapply Forall2_impl; [exact Hi|]. intros x y.
        by rewrite pet_implication_is_equal_spec.
  - destruct scop1 as [a|], scop2 as [b|]; try done.
    rewrite pet_scop_is_equal_spec. intros (_ & _ & Ht & Ha & Hs & Hi).
    exists a, b. unfold n_type, n_array, n_stmt, n_implication.
    by rewrite (Forall2_length _ _ _ Ht), (Forall2_length _ _ _ Ha),
      (Forall2_length _ _ _ Hs), (Forall2_length _ _ _ Hi).
Qed.

End ComparisonProofs.

Section ComparisonBlindSpots.
Context {isl : IslOps} {pet : PetOps} {isl_more : IslMoreOps} {pet_more : PetMoreOps}.

(** X13.  What [pet_scop_is_equal] does not look at: the skip conditions of
    the two scops, their locations and their input files; the size of the
    elements of an array; the definition of a type; and of the location of
    a statement anything but its line number.  Replacing any of these in
    either scop does not change the answer. *)
Theorem scop_is_equal_ignores (scop1 scop2 : pet_scop_ext) :
  (∀ type v, pet_scop_is_equal (Some (set_skip type v scop1)) (Some scop2)
             = pet_scop_is_equal (Some scop1) (Some scop2))
  ∧ (∀ type v, pet_scop_is_equal (Some scop1) (Some (set_skip type v scop2))
               = pet_scop_is_equal (Some scop1) (Some scop2))
  ∧ (∀ l, pet_scop_is_equal (Some (set_loc l scop1)) (Some scop2)
          = pet_scop_is_equal (Some scop1) (Some scop2))
  ∧ (∀ l, pet_scop_is_equal (Some scop1) (Some (set_loc l scop2))
          = pet_scop_is_equal (Some scop1) (Some scop2))
  ∧ (∀ input', pet_scop_is_equal (Some (pet_scop_set_input_file scop1 input')) (Some scop2)
               = pet_scop_is_equal (Some scop1) (Some scop2))
  ∧ (∀ input', pet_scop_is_equal (Some scop1) (Some (pet_scop_set_input_file scop2 input'))
               = pet_scop_is_equal (Some scop1) (Some scop2))
  ∧ (∀ array1 array2 size,
       pet_array_is_equal
         (Some (PetArray (array_context array1) (extent array1) (value_bounds array1)
                  (element_type array1) (element_is_record array1) size
                  (live_out array1) (uniquely_defined array1) (declared array1)
                  (exposed array1)))
         (Some array2)
       = pet_array_is_equal (Some array1) (Some array2))
  ∧ (∀ type1 type2 definition,
       pet_type_is_equal (Some (PetType (type_name type1) definition)) (Some type2)
       = pet_type_is_equal (Some type1) (Some type2))
  ∧ (∀ stmt1 stmt2 l,
       pet_loc_get_line l = pet_loc_get_line (stmt_loc stmt1) →
       pet_stmt_is_equal
         (Some (PetStmt l (domain stmt1) (schedule stmt1) (body stmt1) (args stmt1)))
         (Some stmt2)
       = pet_stmt_is_equal (Some stmt1) (Some stmt2)).
Proof.
  repeat split; try by (intros []).
  intros stmt1 stmt2 l Hl. simpl. by rewrite Hl.
Qed.

End ComparisonBlindSpots.

Section ComparisonEquivalence.
Context {isl : IslOps} {pet : PetOps} {isl_more : IslMoreOps} {pet_more : PetMoreOps}
  {laws : EqualityLaws}.

Local Instance set_equal_equivalence : Equivalence (λ a b, isl_set_is_equal a b = true).
Proof.
  split.
  - intros a. apply set_is_equal_refl.
  - intros a b. by rewrite set_is_equal_sym.
  - intros a b c. apply set_is_equal_trans.
Qed.

Local Instance map_equal_equivalence : Equivalence (λ a b, isl_map_is_equal a b = true).
Proof.
  split.
  - intros a. apply map_is_equal_refl.
  - intros a b. by rewrite map_is_equal_sym.
  - intros a b c. apply map_is_equal_trans.
Qed.

Local Instance expr_equal_equivalence : Equivalence (λ a b, pet_expr_is_equal a b = true).
Proof.
  split.
  - intros a. apply expr_is_equal_refl.
  - intros a b. by rewrite expr_is_equal_sym.
  - intros a b c. apply expr_is_equal_trans.
Qed.

Local Instance type_equal_equivalence :
  Equivalence (λ a b, pet_type_is_equal (Some a) (Some b) = true).
Proof.
  split.
  - intros a. by apply pet_type_is_equal_spec.
  - intros a b. rewrite !pet_type_is_equal_spec. done.
  - intros a b c. rewrite !pet_type_is_equal_spec. congruence.
Qed.

Local Instance implication_equal_equivalence :
  Equivalence (λ a b, pet_implication_is_equal (Some a) (Some b) = true).
Proof.
  split.
  - intros a. apply pet_implication_is_equal_spec. split; [done|]. apply map_is_equal_refl.
  - intros a b. rewrite !pet_implication_is_equal_spec. intros [-> ?].
    split; [done|]. by rewrite map_is_equal_sym.
  - intros a b c. rewrite !pet_implication_is_equal_spec. intros [-> ?] [-> ?].
    split; [done|]. by eapply map_is_equal_trans.
Qed.

Local Instance stmt_equal_equivalence :
  Equivalence (λ a b, pet_stmt_is_equal (Some a) (Some b) = true).
Proof.
  split.
  - intros a. apply pet_stmt_is_equal_spec.
    split; [done|]. split; [apply set_is_equal_refl|]. split; [apply map_is_equal_refl|].
    split; [apply expr_is_equal_refl|]. reflexivity.
  - intros a b. rewrite !pet_stmt_is_equal_spec. intros (? & ? & ? & ? & ?).
    split; [done|]. split; [by rewrite set_is_equal_sym|].
    split; [by rewrite map_is_equal_sym|]. split; [by rewrite expr_is_equal_sym|].
    by symmetry.
  - intros a b c. rewrite !pet_stmt_is_equal_spec.
    intros (? & ? & ? & ? & ?) (? & ? & ? & ? & ?).
    split; [congruence|]. split; [by eapply set_is_equal_trans|].
    split; [by eapply map_is_equal_trans|]. split; [by eapply expr_is_equal_trans|].
    by etrans.
Qed.

Local Instance array_equal_equivalence :
  Equivalence (λ a b, pet_array_is_equal (Some a) (Some b) = true).
Proof.
  split.
  - intros a. apply pet_array_is_equal_spec.
    split; [apply set_is_equal_refl|]. split; [apply set_is_equal_refl|].
    split; [|done]. destruct (value_bounds a); [apply set_is_equal_refl|done].
  - intros a b. rewrite !pet_array_is_equal_spec.
    intros (? & ? & Hb & ? & ? & ? & ? & ? & ?).
    split; [by rewrite set_is_equal_sym|]. split; [by rewrite set_is_equal_sym|].
    split; [|done].
    destruct (value_bounds a), (value_bounds b); try done. by rewrite set_is_equal_sym.
  - intros a b c. rewrite !pet_array_is_equal_spec.
    intros (? & ? & Hb & ? & ? & ? & ? & ? & ?) (? & ? & Hb' & ? & ? & ? & ? & ? & ?).
    split; [by eapply set_is_equal_trans|]. split; [by eapply set_is_equal_trans|].
    split; [|repeat split; congruence].
    destruct (value_bounds a), (value_bounds b), (value_bounds c); try done.
    by eapply set_is_equal_trans.
Qed.

Lemma scop_equal_equivalence :
  Equivalence (λ a b, pet_scop_is_equal (Some a) (Some b) = true).
Proof.
  split.
  - intros a. apply pet_scop_is_equal_spec.
    split; [apply set_is_equal_refl|]. split; [apply set_is_equal_refl|].
    repeat split; reflexivity.
  - intros a b. rewrite !pet_scop_is_equal_spec. intros (? & ? & ? & ? & ? & ?).
    split; [by rewrite set_is_equal_sym|]. split; [by rewrite set_is_equal_sym|].
    repeat split; by symmetry.
  - intros a b c. rewrite !pet_scop_is_equal_spec.
    intros (? & ? & ? & ? & ? & ?) (? & ? & ? & ? & ? & ?).
    split; [by eapply set_is_equal_trans|]. split; [by eapply set_is_equal_trans|].
    repeat split; by etrans.
Qed.

(** X14.  When the comparisons of isl ([isl_set_is_equal],
    [isl_map_is_equal]) and of expressions ([pet_expr_is_equal]) are
    equivalence relations, [pet_scop_is_equal] is one on the scops that are
    not NULL: a scop is equal to itself, the order of the two arguments
    does not matter, and two scops equal to a third are equal. *)
Theorem scop_is_equal_equivalence :
  (∀ scop, pet_scop_is_equal (Some scop) (Some scop) = true)
  ∧ (∀ scop1 scop2, pet_scop_is_equal scop1 scop2 = pet_scop_is_equal scop2 scop1)
  ∧ (∀ scop1 scop2 scop3,
       pet_scop_is_equal scop1 scop2 = true → pet_scop_is_equal scop2 scop3 = true →
       pet_scop_is_equal scop1 scop3 = true).
Proof.
  destruct scop_equal_equivalence as [Hrefl Hsym Htrans]. split; [|split].
  - intros scop. apply Hrefl.
  - intros [a|] [b|]; try done. apply eq_true_iff_eq. split; apply Hsym.
  - intros [a|] [b|] [c|]; try done. apply Htrans.
Qed.

End ComparisonEquivalence.

(** ** The context *)

Section ContextProofs.
Context {isl : IslOps} {pet : PetOps} {sem : IslSem} {petsem : PetSem}
  {isl_more : IslMoreOps} {more_sem : IslMoreSem}.

(** X15.  [pet_scop_restrict_context] only removes parameter values from
    the context: a point is in the context of the result iff it was in the
    context and it is, up to the parameters of nested accesses, in the given
    set.  Restricting by two sets gives the same points in either order,
    and restricting twice by the same set gives the same points as
    restricting once.  [pet_scop_reset_context] makes every parameter value
    valid again.  Neither function changes anything but the context. *)
Theorem restrict_context_shrinks (scop : pet_scop_ext) (context1 : isl_set) :
  (∀ p, set_mem (context (pet_scop_restrict_context scop context1)) p = true
        ↔ set_mem (context scop) p = true
          ∧ ∃ q, nested_eq p q ∧ set_mem context1 q = true)
  ∧ (∀ context2 p,
       set_mem (context (pet_scop_restrict_context
                           (pet_scop_restrict_context scop context1) context2)) p
       = set_mem (context (pet_scop_restrict_context
                             (pet_scop_restrict_context scop context2) context1)) p)
  ∧ (∀ p,
       set_mem (context (pet_scop_restrict_context
                           (pet_scop_restrict_context scop context1) context1)) p
       = set_mem (context (pet_scop_restrict_context scop context1)) p)
  ∧ (∀ p, set_mem (context (pet_scop_reset_context
                              (pet_scop_restrict_context scop context1))) p = true)
  ∧ set_context (context scop) (pet_scop_restrict_context scop context1) = scop
  ∧ set_context (context scop) (pet_scop_reset_context scop) = scop.
Proof.
  unfold pet_scop_restrict_context, pet_scop_reset_context. simpl.
  split; [|split; [|split; [|split; [|split]]]].
  - intros p. rewrite mem_intersect, andb_true_iff, mem_nested_remove. done.
  - intros context2 p. rewrite !mem_intersect.
    by destruct (set_mem (context scop) p), (set_mem _ p), (set_mem _ p).
  - intros p. rewrite !mem_intersect.
    by destruct (set_mem (context scop) p), (set_mem _ p).
  - intros p. apply mem_universe.
  - by destruct scop.
  - by destruct scop.
Qed.

End ContextProofs.

(** ** Adding an array or an implication *)

Section ExtensionProofs.
Context {isl : IslOps} {pet : PetOps} {isl_more : IslMoreOps} {pet_more : PetMoreOps}.

Lemma run_pet_scop_add_array (l : positive) (scop : pet_scop_ext) (array : pet_array)
    h r d :
  h !! l = Some scop →
  pet_scop_add_array (Some l) (Some array) (World h r d)
  = Some (Some l, World (<[l := set_arrays (arrays scop ++ [array]) scop]> h) r d).
Proof. intros Hl. unfold pet_scop_add_array. by do 2 run_step. Qed.

(** X16.  [pet_scop_add_array] appends the array to the arrays of the
    scop, after those it has, and changes nothing else of the scop.  When
    the array is NULL the scop is released with everything it owns, when
    the scop is NULL the array is released; NULL is returned then, and
    nothing is reported.  [pet_scop_add_boolean_array] appends one array in
    the same way: its extent is the range of the index expression, its
    elements are of type int with the given size, it has value bounds and
    is marked as uniquely defined; without an index expression the scop is
    released. *)
Theorem add_array_appends (l : positive) (scop : pet_scop_ext) (w : world) :
  heap w !! l = Some scop →
  (∀ array,
     pet_scop_add_array (Some l) (Some array) w
     = Some (Some l,
             World (<[l := set_arrays (arrays scop ++ [array]) scop]> (heap w))
               (released w) (diagnostics w))
     ∧ n_array (set_arrays (arrays scop ++ [array]) scop) = S (n_array scop)
     ∧ pet_scop_add_array None (Some array) w
       = Some (None, World (heap w) (released w ++ [ObjArray array]) (diagnostics w)))
  ∧ pet_scop_add_array (Some l) None w
    = Some (None,
            World (delete l (heap w)) (released w ++ scop_objects scop) (diagnostics w))
  ∧ (∀ index int_size,
       ∃ array,
         pet_scop_add_boolean_array (Some l) (Some index) int_size w
         = Some (Some l,
                 World (<[l := set_arrays (arrays scop ++ [array]) scop]> (heap w))
                   (released w) (diagnostics w))
         ∧ extent array = isl_map_range (isl_map_from_multi_pw_aff index)
         ∧ element_type array = "int"%string ∧ element_size array = int_size
         ∧ is_Some (value_bounds array) ∧ uniquely_defined array = true
         ∧ element_is_record array = false ∧ live_out array = false
         ∧ declared array = false ∧ exposed array = false)
  ∧ (∀ int_size,
       pet_scop_add_boolean_array (Some l) None int_size w
       = Some (None,
               World (delete l (heap w)) (released w ++ scop_objects scop)
                 (diagnostics w))).
Proof.
  intros Hl. destruct w as [h r d]. simpl in Hl. cbn [heap released diagnostics].
  split; [|split; [|split]].
  - intros array. split; [by apply run_pet_scop_add_array|]. split.
    + unfold n_array. simpl. rewrite length_app. simpl. lia.
    + unfold pet_scop_add_array, pet_array_free. by run_step.
  - unfold pet_scop_add_array, pet_array_free. run_step.
    by apply run_pet_scop_free.
  - intros index int_size. eexists. split.
    + unfold pet_scop_add_boolean_array. by apply run_pet_scop_add_array.
    + simpl. repeat split; try done.
  - intros int_size. unfold pet_scop_add_boolean_array. by apply run_pet_scop_free.
Qed.

(** X17.  [pet_scop_add_implication] appends the implication to those of
    the scop, whether or not an equal implication is among them: unlike
    [pet_scop_add], it never removes a duplicate.  After the call, an
    implication is known to the scop iff it was known before or it has the
    value and an extension equal to that of the implication added.  Without
    a relation the scop is released, without a scop the implication is. *)
Theorem add_implication_appends (l : positive) (scop : pet_scop_ext) (w : world) :
  heap w !! l = Some scop →
  (∀ map satisfied',
     let scop' :=
       set_implications (implications scop ++ [PetImplication map satisfied']) scop in
     pet_scop_add_implication (Some l) (Some map) satisfied' w
     = Some (Some l, World (<[l := scop']> (heap w)) (released w) (diagnostics w))
     ∧ n_implication scop' = S (n_implication scop)
     ∧ (∀ pi, is_known_implication scop' pi
              = is_known_implication scop pi
                || (bool_decide (satisfied' = satisfied pi)
                    && isl_map_is_equal map (extension pi)))
     ∧ pet_scop_add_implication None (Some map) satisfied' w
       = Some (None,
               World (heap w) (released w ++ [ObjImplication (PetImplication map satisfied')])
                 (diagnostics w)))
  ∧ (∀ satisfied',
       pet_scop_add_implication (Some l) None satisfied' w
       = Some (None,
               World (delete l (heap w)) (released w ++ scop_objects scop)
                 (diagnostics w))).
Proof.
  intros Hl. destruct w as [h r d]. simpl in Hl. cbn [heap released diagnostics].
  split.
  - intros map satisfied'. cbv zeta. split; [|split; [|split]].
    + unfold pet_scop_add_implication, new_implication. by do 2 run_step.
    + unfold n_implication. simpl. rewrite length_app. simpl. lia.
    + intros pi. unfold is_known_implication. simpl.
      rewrite existsb_app. simpl. rewrite orb_false_r. f_equal.
      case_bool_decide; [by rewrite decide_True|by rewrite decide_False].
    + unfold pet_scop_add_implication, new_implication, pet_implication_free.
      by run_step.
  - intros satisfied'. unfold pet_scop_add_implication, new_implication,
      pet_implication_free. run_step. by apply run_pet_scop_free.
Qed.

End ExtensionProofs.

(** ** Intersecting the domains with a prefix *)

Section PrefixProofs.
Context {isl : IslOps} {pet : PetOps} {sem : IslSem}
  {isl_more : IslMoreOps} {pet_more : PetMoreOps}.

(** X18.  [pet_scop_intersect_domain_prefix] never adds a point to an
    iteration domain or to an array extent: a point of a domain or extent
    of the result was a point of it before.  Only the extents of virtual
    arrays change; every other array is left as it is.  The numbers of
    arrays, statements and implications, the arguments, body, schedule and
    location of every statement and the value of every implication are
    kept, and so are the context and the skip conditions of the scop, none
    of which is intersected with the set. *)
Theorem intersect_domain_prefix_shrinks (scop : pet_scop_ext) (domain' : isl_set) :
  let scop' := pet_scop_intersect_domain_prefix scop domain' in
  Forall2
    (λ stmt stmt',
       (∀ p, set_mem (domain stmt') p = true → set_mem (domain stmt) p = true)
       ∧ set_domain (domain stmt) stmt' = stmt)
    (stmts scop) (stmts scop')
  ∧ Forall2
      (λ array array',
         (∀ p, set_mem (extent array') p = true → set_mem (extent array) p = true)
         ∧ set_extent (extent array) array' = array
         ∧ (extent_is_virtual_array (extent array) = false → array' = array))
      (arrays scop) (arrays scop')
  ∧ satisfied <$> implications scop' = satisfied <$> implications scop
  ∧ n_implication scop' = n_implication scop
  ∧ context scop' = context scop ∧ context_value scop' = context_value scop
  ∧ skip scop' pet_skip_now = skip scop pet_skip_now
  ∧ skip scop' pet_skip_later = skip scop pet_skip_later
  ∧ types scop' = types scop ∧ loc scop' = loc scop.
Proof.
  cbv zeta. unfold pet_scop_intersect_domain_prefix, n_implication. simpl.
  rewrite length_fmap. repeat split; try done.
  - apply Forall2_fmap_r, Forall_Forall2_diag, Forall_forall. intros stmt _.
    unfold stmt_intersect_domain_prefix. simpl. split; [|by destruct stmt].
    intros p. rewrite mem_intersect. by intros [? _]%andb_true_iff.
  - apply Forall2_fmap_r, Forall_Forall2_diag, Forall_forall. intros array _.
    unfold virtual_array_intersect_domain_prefix, compose.
    destruct (extent_is_virtual_array (extent array)) eqn:Hv; simpl.
    + split; [|split; [by destruct array|done]].
      intros p. rewrite mem_intersect. by intros [? _]%andb_true_iff.
    + split; [done|]. split; [by destruct array|done].
  - rewrite <- list_fmap_compose. by apply list_fmap_ext.
Qed.

End PrefixProofs.

(** ** Schedules *)

Section ScheduleProofs.
Context {isl : IslOps} {pet : PetOps} {isl_more : IslMoreOps} {pet_more : PetMoreOps}
  {dims : DimLaws}.

Lemma max_depth_from_bounds (start : Z) (l : list pet_stmt) :
  start ≤ max_depth_from start l
  ∧ Forall (λ stmt, isl_map_dim (schedule stmt) isl_dim_out ≤ max_depth_from start l) l
  ∧ (max_depth_from start l = start
     ∨ ∃ stmt, stmt ∈ l ∧ isl_map_dim (schedule stmt) isl_dim_out = max_depth_from start l).
Proof.
  revert start. induction l as [|stmt l IH]; intros start; simpl.
  { split; [done|]. split; [constructor|by left]. }
  destruct (decide (start < isl_map_dim (schedule stmt) isl_dim_out)) as [Hlt|Hge].
  - destruct (IH (isl_map_dim (schedule stmt) isl_dim_out)) as (Hle & Hall & Hmax).
    split; [unfold max_depth_from in *; lia|]. split; [by constructor|].
    right. destruct Hmax as [Heq|(stmt' & Hin & Heq)].
    + exists stmt. split; [by left|]. by rewrite Heq.
    + exists stmt'. split; [by right|done].
  - destruct (IH start) as (Hle & Hall & Hmax).
    split; [done|]. split; [constructor; [unfold max_depth_from in *; lia|done]|].
    destruct Hmax as [Heq|(stmt' & Hin & Heq)]; [by left|].
    right. exists stmt'. split; [by right|done].
Qed.

Lemma max_depth_from_shift (start : Z) (l : list pet_stmt) (pos : Z) :
  max_depth_from (start + 1) ((λ stmt, pet_stmt_prefix stmt pos) <$> l)
  = max_depth_from start l + 1.
Proof.
  revert start. induction l as [|stmt l IH]; intros start; simpl; [done|].
  rewrite map_dim_fix_si, map_dim_insert_dims by lia.
  destruct (decide (start < isl_map_dim (schedule stmt) isl_dim_out)) as [Hlt|Hge].
  - rewrite decide_True by lia. apply IH.
  - rewrite decide_False by lia. apply IH.
Qed.

Lemma fix_dims_dim (m : isl_map) (l : list Z) (type : isl_dim_type) :
  isl_map_dim (foldl (λ schedule_i j, isl_map_fix_si schedule_i isl_dim_out j 0) m l) type
  = isl_map_dim m type.
Proof.
  revert m. induction l as [|j l IH]; intros m; simpl; [done|].
  by rewrite IH, map_dim_fix_si.
Qed.


End ScheduleProofs.

(** ** The small provider satisfies the further laws *)

Module SymMoreLaws.
Import Sym SymLaws SymMore.

#[global] Instance more_sem : IslMoreSem.
Proof. by split. Qed.

#[global] Instance equality_laws : EqualityLaws.
Proof.
  split; simpl; intros.
  - by apply bool_decide_eq_true.
  - apply bool_decide_ext. intuition.
  - apply bool_decide_eq_true. rewrite bool_decide_eq_true in *. congruence.
  - by apply bool_decide_eq_true.
  - apply bool_decide_ext. intuition.
  - apply bool_decide_eq_true. rewrite bool_decide_eq_true in *. congruence.
  - by apply bool_decide_eq_true.
  - apply bool_decide_ext. intuition.
  - apply bool_decide_eq_true. rewrite bool_decide_eq_true in *. congruence.
Qed.

#[global] Instance dim_laws : DimLaws.
Proof.
  split; simpl; intros.
  - rewrite decide_True by done. lia.
  - rewrite decide_True by done. lia.
  - done.
  - lia.
Qed.

End SymMoreLaws.

(** ** The rest of scop.c on sample scops *)

Section MoreSamples.
Import Sym SymLaws Examples SymMore SymMoreLaws.

(** X1 on [scop_S] and [scop_T]. *)
Lemma add_conserves_objects_sample :
  ∃ l w' scop freed,
    pet_scop_add (Some 1%positive) (Some 2%positive) (world_of scop_S scop_T)
    = Some (Some l, w')
    ∧ heap w' !! l = Some scop
    ∧ released w' = released (world_of scop_S scop_T) ++ freed
    ∧ scop_objects scop ++ freed ≡ₚ scop_objects scop_S ++ scop_objects scop_T.
Proof.
  destruct (pet_scop_add_succeeds 1 2 scop_S scop_T (world_of scop_S scop_T))
    as (l & w' & Hrun); [done|reflexivity..|].
  destruct (add_conserves_objects 1 2 l scop_S scop_T (world_of scop_S scop_T) w')
    as (scop & freed & Hl & Hr & Hp & _); [done|reflexivity|reflexivity|exact Hrun|].
  exists l, w', scop, freed. repeat split; assumption.
Defined.

(** X2 on [scop_S]. *)
Lemma add_null_argument_sample :
  pet_scop_add (Some 1%positive) None (world_of scop_S scop_T)
  = Some (None,
          World (delete 1%positive (heap (world_of scop_S scop_T)))
            (released (world_of scop_S scop_T) ++ scop_objects scop_S)
            (diagnostics (world_of scop_S scop_T))).
Proof.
  apply (add_null_argument 1 scop_S (world_of scop_S scop_T)). reflexivity.
Defined.

(** X3: the first scop skips on a condition on the parameters, the second
    on a test. *)
Lemma add_seq_cannot_restrict_var_skip_sample :
  pet_scop_add_seq (Some 1%positive) (Some 2%positive)
    (world_of (scop_S_skipping (affine_skip 5)) (scop_T_skipping (test_on "__pet_test_1")))
  = Some (None,
          World (delete 1%positive (delete 2%positive
                   (heap (world_of (scop_S_skipping (affine_skip 5))
                            (scop_T_skipping (test_on "__pet_test_1"))))))
            (released (world_of (scop_S_skipping (affine_skip 5))
                         (scop_T_skipping (test_on "__pet_test_1")))
             ++ scop_objects (scop_T_skipping (test_on "__pet_test_1"))
             ++ scop_objects (scop_S_skipping (affine_skip 5)))
            (diagnostics (world_of (scop_S_skipping (affine_skip 5))
                            (scop_T_skipping (test_on "__pet_test_1")))
             ++ [(isl_error_internal, "can only restrict affine skips"%string)])).
Proof.
  by apply (add_seq_cannot_restrict_var_skip 1 2 (scop_S_skipping (affine_skip 5))
              (scop_T_skipping (test_on "__pet_test_1"))
              (world_of (scop_S_skipping (affine_skip 5))
                 (scop_T_skipping (test_on "__pet_test_1")))
              (affine_skip 5) (test_on "__pet_test_1") pet_skip_now).
Defined.

(** X4: the first scop skips on a test, the second on a condition on the
    parameters. *)
Lemma add_seq_cannot_filter_skip_sample :
  pet_scop_add_seq (Some 1%positive) (Some 2%positive)
    (world_of (scop_S_skipping (test_on "__pet_test_0")) (scop_T_skipping (affine_skip 3)))
  = Some (None,
          World (delete 1%positive (delete 2%positive
                   (heap (world_of (scop_S_skipping (test_on "__pet_test_0"))
                            (scop_T_skipping (affine_skip 3))))))
            (released (world_of (scop_S_skipping (test_on "__pet_test_0"))
                         (scop_T_skipping (affine_skip 3)))
             ++ scop_objects (scop_T_skipping (affine_skip 3))
             ++ scop_objects (scop_S_skipping (test_on "__pet_test_0")))
            (diagnostics (world_of (scop_S_skipping (test_on "__pet_test_0"))
                            (scop_T_skipping (affine_skip 3)))
             ++ [(isl_error_internal, "skip expression cannot be filtered"%string)])).
Proof.
  by apply (add_seq_cannot_filter_skip 1 2 (scop_S_skipping (test_on "__pet_test_0"))
              (scop_T_skipping (affine_skip 3))
              (world_of (scop_S_skipping (test_on "__pet_test_0"))
                 (scop_T_skipping (affine_skip 3)))
              (test_on "__pet_test_0") (affine_skip 3) pet_skip_now).
Defined.

(** X6 on [scop_S] with an affine skip condition and with a test. *)
Lemma restrict_needs_affine_skips_sample :
  (∃ scop1, pet_scop_restrict (scop_S_skipping (affine_skip 5)) param_positive = Ok scop1)
  ∧ pet_scop_restrict (scop_S_skipping (test_on "__pet_test_0")) param_positive
    = Die isl_error_internal "can only restrict affine skips".
Proof.
  split.
  - destruct (restrict_needs_affine_skips (scop_S_skipping (affine_skip 5)) param_positive)
      as [H _]. eexists. rewrite H. reflexivity.
  - destruct (restrict_needs_affine_skips (scop_S_skipping (test_on "__pet_test_0"))
                param_positive) as [H _]. rewrite H. reflexivity.
Defined.

(** X7 on [scop_S] with an affine skip condition. *)
Lemma affine_skip_domain_after_restrict_sample :
  ∃ scop1 before after,
    pet_scop_restrict (scop_S_skipping (affine_skip 5)) param_positive = Ok scop1
    ∧ pet_scop_get_affine_skip_domain (scop_S_skipping (affine_skip 5)) pet_skip_now
      = Some before
    ∧ pet_scop_get_affine_skip_domain scop1 pet_skip_now = Some after
    ∧ (skip_zero_dimensional (affine_skip 5) →
       ∀ q, set_mem after q = set_mem before q && set_mem param_positive q).
Proof.
  eexists. 
  pose proof (affine_skip_domain_after_restrict (scop_S_skipping (affine_skip 5)) _
                param_positive pet_skip_now eq_refl) as (before & after & Hb & Ha & Hmem).
  exists before, after. split; [reflexivity|]. split; [exact Hb|]. split; [exact Ha|].
  exact Hmem.
Defined.

(** X9: the second scop repeats an implication of the first. *)
Lemma add_merges_implications_sample :
  ∃ l w' scop kept dropped,
    pet_scop_add (Some 1%positive) (Some 2%positive)
      (world_of scop_S_implying scop_T_implying)
    = Some (Some l, w')
    ∧ heap w' !! l = Some scop
    ∧ implications scop = implications scop_S_implying ++ kept
    ∧ kept ++ dropped ≡ₚ implications scop_T_implying.
Proof.
  destruct (pet_scop_add_succeeds 1 2 scop_S_implying scop_T_implying
              (world_of scop_S_implying scop_T_implying))
    as (l & w' & Hrun); [done|reflexivity..|].
  destruct (add_merges_implications 1 2 l scop_S_implying scop_T_implying
              (world_of scop_S_implying scop_T_implying) w')
    as (scop & kept & dropped & Hl & Hi & _ & _ & Hp & _);
    [done|reflexivity|reflexivity|done|done|exact Hrun|].
  exists l, w', scop, kept, dropped. repeat split; assumption.
Defined.

(** X14 on [scop_S]. *)
Lemma scop_is_equal_equivalence_sample :
  pet_scop_is_equal (Some scop_S) (Some scop_S) = true
  ∧ pet_scop_is_equal (Some scop_S) (Some scop_T)
    = pet_scop_is_equal (Some scop_T) (Some scop_S).
Proof.
  destruct (scop_is_equal_equivalence (laws := equality_laws)) as (Hrefl & Hsym & _).
  split; [apply Hrefl|apply Hsym].
Defined.

(** X15 on [scop_S]. *)
Lemma restrict_context_shrinks_sample :
  set_context (context scop_S) (pet_scop_restrict_context scop_S param_positive) = scop_S
  ∧ ∀ p, set_mem (context (pet_scop_restrict_context scop_S param_positive)) p = true
         ↔ set_mem (context scop_S) p = true
           ∧ ∃ q, nested_eq p q ∧ set_mem param_positive q = true.
Proof.
  destruct (restrict_context_shrinks (more_sem := more_sem) scop_S param_positive)
    as (Hmem & _ & _ & _ & Hframe & _).
  split; [exact Hframe|exact Hmem].
Defined.

(** X16 on [scop_S]. *)
Lemma add_array_appends_sample :
  pet_scop_add_array (Some 1%positive) None (world_of scop_S scop_T)
  = Some (None,
          World (delete 1%positive (heap (world_of scop_S scop_T)))
            (released (world_of scop_S scop_T) ++ scop_objects scop_S)
            (diagnostics (world_of scop_S scop_T)))
  ∧ pet_scop_add_array (Some 1%positive) (Some (array_of extent_virtual))
      (world_of scop_S scop_T)
    = Some (Some 1%positive,
            World (<[1%positive := set_arrays (arrays scop_S ++ [array_of extent_virtual])
                                     scop_S]> (heap (world_of scop_S scop_T)))
              (released (world_of scop_S scop_T)) (diagnostics (world_of scop_S scop_T))).
Proof.
  destruct (add_array_appends 1 scop_S (world_of scop_S scop_T)) as (Hadd & Hnull & _);
    [reflexivity|].
  split; [exact Hnull|]. apply Hadd.
Defined.

(** X17 on [scop_S_implying]: the implication it has is added again. *)
Lemma add_implication_appends_sample :
  pet_scop_add_implication (Some 1%positive) (Some (TLexLe (Tid "__pet_test_0" None))) 1
    (world_of scop_S_implying scop_T)
  = Some (Some 1%positive,
          World (<[1%positive :=
                     set_implications
                       (implications scop_S_implying ++ [implication_on "__pet_test_0" 1])
                       scop_S_implying]> (heap (world_of scop_S_implying scop_T)))
            (released (world_of scop_S_implying scop_T))
            (diagnostics (world_of scop_S_implying scop_T))).
Proof.
  destruct (add_implication_appends 1 scop_S_implying (world_of scop_S_implying scop_T))
    as (Hadd & _); [reflexivity|].
  apply (Hadd (TLexLe (Tid "__pet_test_0" None)) 1).
Defined.


End MoreSamples.

(** ** The context of a composition *)

Section AddContextProofs.
Context {isl : IslOps} {pet : PetOps} {sem : IslSem} {petsem : PetSem}
  {isl_more : IslMoreOps} {more_sem : IslMoreSem}.

(** X20.  When [pet_scop_add] combines two scops with statements, the
    context of the result holds exactly the parameter values that are, up
    to the parameters of nested accesses, in the contexts of both scops.
    The context value of the result is the universe, whatever the context
    values of the two scops were, and the result has no input file. *)
Theorem add_intersects_contexts (l1 l2 l : positive) (scop1 scop2 : pet_scop_ext)
    (w w' : world) :
  l1 ≠ l2 → heap w !! l1 = Some scop1 → heap w !! l2 = Some scop2 →
  stmts scop1 ≠ [] → stmts scop2 ≠ [] →
  pet_scop_add (Some l1) (Some l2) w = Some (Some l, w') →
  ∃ scop,
    heap w' !! l = Some scop
    ∧ (∀ p, set_mem (context scop) p = true
            ↔ (∃ q, nested_eq p q ∧ set_mem (context scop1) q = true)
              ∧ (∃ q, nested_eq p q ∧ set_mem (context scop2) q = true))
    ∧ (∀ p, set_mem (context_value scop) p = true)
    ∧ input scop = None.
Proof.
  intros Hne H1 H2 Hs1 Hs2 Hrun. destruct w as [h r d]. simpl in H1, H2.
  destruct (pet_scop_add_returns l1 l2 l scop1 scop2 _ _ _ w' Hne H1 H2 Hrun)
    as (_ & _ & [(? & _)|[(_ & ? & _)|(_ & _ & -> & ->)]]); [done..|].
  exists (added_scop scop1 scop2). split; [apply lookup_insert_eq|].
  unfold added_scop. simpl. split; [|split; [|done]].
  - intros p. rewrite !mem_intersect, mem_universe. simpl.
    rewrite andb_true_iff, !mem_nested_remove. done.
  - intros p. apply mem_universe.
Qed.

End AddContextProofs.

Section AddContextSample.
Import Sym SymLaws Examples SymMore SymMoreLaws.

(** X20 on [scop_S] and [scop_T]. *)
Lemma add_intersects_contexts_sample :
  ∃ l w' scop,
    pet_scop_add (Some 1%positive) (Some 2%positive) (world_of scop_S scop_T)
    = Some (Some l, w')
    ∧ heap w' !! l = Some scop
    ∧ (∀ p, set_mem (context scop) p = true
            ↔ (∃ q, nested_eq p q ∧ set_mem (context scop_S) q = true)
              ∧ (∃ q, nested_eq p q ∧ set_mem (context scop_T) q = true)).
Proof.
  destruct (pet_scop_add_succeeds 1 2 scop_S scop_T (world_of scop_S scop_T))
    as (l & w' & Hrun); [done|reflexivity..|].
  destruct (add_intersects_contexts (more_sem := more_sem) 1 2 l scop_S scop_T
              (world_of scop_S scop_T) w')
    as (scop & Hl & Hc & _); [done|reflexivity|reflexivity|done|done|exact Hrun|].
  exists l, w', scop. split; [exact Hrun|]. split; [exact Hl|]. exact Hc.
Defined.

End AddContextSample.
(** ** A scop from a statement *)

Section ExtractContextProofs.
Context {isl : IslOps} {pet : PetOps} {sem : IslSem}
  {isl_more : IslMoreOps} {pet_more : PetMoreOps} {more_sem : IslMoreSem}.

Lemma pet_expr_nested_ind (P : pet_expr → Prop) :
  (∀ acc args, Forall P args → P (pet_expr_access acc args)) →
  (∀ op args, Forall P args → P (pet_expr_op op args)) →
  ∀ expr, P expr.
Proof.
  intros Hacc Hop. fix IH 1. intros [acc args|op args].
  - apply Hacc. induction args as [|arg args IHargs]; constructor; [apply IH|apply IHargs].
  - apply Hop. induction args as [|arg args IHargs]; constructor; [apply IH|apply IHargs].
Qed.

(** [f] is undefined on every set, or it intersects every set with the
    same set of points. *)
Definition intersects (f : isl_set → option isl_set) : Prop :=
  (∀ c, f c = None)
  ∨ ∃ valid : point → bool,
      ∀ c, ∃ c', f c = Some c' ∧ ∀ p, set_mem c' p = set_mem c p && valid p.

Lemma intersects_bind (f g : isl_set → option isl_set) :
  intersects f → intersects g → intersects (λ c, f c ≫= g).
Proof.
  intros [Hf|(vf & Hf)] Hg.
  { left. intros c. by rewrite Hf. }
  destruct Hg as [Hg|(vg & Hg)].
  { left. intros c. destruct (Hf c) as (c' & -> & _). apply Hg. }
  right. exists (λ p, vf p && vg p). intros c.
  destruct (Hf c) as (c1 & -> & H1). destruct (Hg c1) as (c2 & Hc2 & H2).
  exists c2. split; [done|]. intros p. rewrite H2, H1. by rewrite andb_assoc.
Qed.

Lemma intersects_ext (f g : isl_set → option isl_set) :
  (∀ c, f c = g c) → intersects f → intersects g.
Proof.
  intros Hfg [Hf|(v & Hf)]; [left|right].
  - intros c. by rewrite <- Hfg.
  - exists v. intros c. rewrite <- Hfg. apply Hf.
Qed.

Lemma args_extract_context_intersects (args : list pet_expr) :
  Forall (λ arg, intersects (expr_extract_context arg)) args →
  intersects (args_extract_context args).
Proof.
  induction 1 as [|arg args Harg _ IH].
  - right. exists (λ _, true). intros c. exists c. split; [done|].
    intros p. by rewrite andb_true_r.
  - apply (intersects_ext _ _ (λ c, eq_refl) (intersects_bind _ _ Harg IH)).
Qed.

Lemma expr_extract_context_args (expr : pet_expr) (context' : isl_set) :
  (∀ args, expr ≠ pet_expr_op pet_op_cond args) →
  expr_extract_context expr context'
  = context' ← args_extract_context (pet_expr_args expr) context';
    match expr with
    | pet_expr_access acc _ => Some (access_extract_context (acc_access acc) context')
    | pet_expr_op _ _ => Some context'
    end.
Proof.
  intros Hcond. destruct expr as [acc args|op args]; [reflexivity|].
  transitivity (args_extract_context args context');
    [|simpl; by destruct (args_extract_context args context')].
  destruct op; try reflexivity. by destruct (Hcond args).
Qed.

Lemma expr_extract_context_intersects (expr : pet_expr) :
  intersects (expr_extract_context expr).
Proof.
  induction expr as [acc args IH|op args IH] using pet_expr_nested_ind.
  - apply (intersects_ext
             (λ c, args_extract_context args c
                   ≫= λ c, Some (access_extract_context (acc_access acc) c)));
      [done|].
    apply intersects_bind; [by apply args_extract_context_intersects|].
    right. exists (set_mem (isl_map_params (acc_access acc))). intros c.
    eexists. split; [done|]. intros p. apply mem_intersect.
  - destruct (decide (op = pet_op_cond)) as [->|Hop].
    + destruct args as [|arg0 [|arg1 [|arg2 args]]]; try by left.
      apply Forall_cons in IH as [IH0 IH]. apply Forall_cons in IH as [IH1 IH].
      apply Forall_cons in IH as [IH2 _].
      destruct IH0 as [IH0|(v0 & IH0)].
      { left. intros c. simpl. by rewrite IH0. }
      destruct IH1 as [IH1|(v1 & IH1)].
      { left. intros c. simpl. destruct (IH0 c) as (c0 & -> & _). simpl. by rewrite IH1. }
      destruct IH2 as [IH2|(v2 & IH2)].
      { left. intros c. simpl. destruct (IH0 c) as (c0 & -> & _). simpl.
        destruct (IH1 c0) as (c1 & -> & _). simpl. by rewrite IH2. }
      destruct (pet_expr_is_affine arg0) eqn:Haff.
      * destruct arg0 as [acc args0|op0 args0].
        -- right.
           set (zero_set := isl_map_params (isl_map_fix_si (acc_access acc) isl_dim_out 0 0)).
           exists (λ p, v0 p && (v1 p && negb (set_mem zero_set p)
                                 || v2 p && set_mem zero_set p)).
           intros c. destruct (IH0 c) as (c0 & Hc0 & H0).
           destruct (IH1 c0) as (c1 & Hc1 & H1). destruct (IH2 c0) as (c2 & Hc2 & H2).
           eexists. split.
           { change (expr_extract_context
                       (pet_expr_op pet_op_cond (pet_expr_access acc args0 :: arg1 :: arg2 :: args)) c)
               with (c0 ← expr_extract_context (pet_expr_access acc args0) c;
                     c1 ← expr_extract_context arg1 c0;
                     c2 ← expr_extract_context arg2 c0;
                     if pet_expr_is_affine (pet_expr_access acc args0) then
                       Some (isl_set_coalesce
                               (isl_set_union (isl_set_subtract c1 zero_set)
                                  (isl_set_intersect c2 zero_set)))
                     else Some (isl_set_coalesce (isl_set_union c1 c2))).
             rewrite Hc0. simpl. rewrite Hc1. simpl. rewrite Hc2. simpl.
             rewrite Haff. reflexivity. }
           intros p. rewrite mem_coalesce, mem_union, mem_subtract, mem_intersect, H1, H2, H0.
           destruct (set_mem c p), (v0 p), (v1 p), (v2 p), (set_mem zero_set p); done.
        -- left. intros c.
           change (expr_extract_context
                     (pet_expr_op pet_op_cond (pet_expr_op op0 args0 :: arg1 :: arg2 :: args)) c)
             with (c0 ← expr_extract_context (pet_expr_op op0 args0) c;
                   c1 ← expr_extract_context arg1 c0;
                   c2 ← expr_extract_context arg2 c0;
                   if pet_expr_is_affine (pet_expr_op op0 args0) then None
                   else Some (isl_set_coalesce (isl_set_union c1 c2))).
           destruct (IH0 c) as (c0 & -> & _). simpl.
           destruct (IH1 c0) as (c1 & -> & _). simpl.
           destruct (IH2 c0) as (c2 & -> & _). simpl. by rewrite Haff.
      * right. exists (λ p, v0 p && (v1 p || v2 p)).
        intros c. destruct (IH0 c) as (c0 & Hc0 & H0).
        destruct (IH1 c0) as (c1 & Hc1 & H1). destruct (IH2 c0) as (c2 & Hc2 & H2).
        exists (isl_set_coalesce (isl_set_union c1 c2)). split.
        { change (expr_extract_context
                    (pet_expr_op pet_op_cond (arg0 :: arg1 :: arg2 :: args)) c)
            with (c0 ← expr_extract_context arg0 c;
                  c1 ← expr_extract_context arg1 c0;
                  c2 ← expr_extract_context arg2 c0;
                  if pet_expr_is_affine arg0 then
                    match arg0 with
                    | pet_expr_access acc _ =>
                        Some (isl_set_coalesce
                                (isl_set_union
                                   (isl_set_subtract c1
                                      (isl_map_params
                                         (isl_map_fix_si (acc_access acc) isl_dim_out 0 0)))
                                   (isl_set_intersect c2
                                      (isl_map_params
                                         (isl_map_fix_si (acc_access acc) isl_dim_out 0 0)))))
                    | pet_expr_op _ _ => None
                    end
                  else Some (isl_set_coalesce (isl_set_union c1 c2))).
          rewrite Hc0. simpl. rewrite Hc1. simpl. rewrite Hc2. simpl.
          by rewrite Haff. }
        intros p. rewrite mem_coalesce, mem_union, H1, H2, H0.
        destruct (set_mem c p), (v0 p), (v1 p), (v2 p); done.
    + apply (intersects_ext (args_extract_context args)).
      { intros c. rewrite expr_extract_context_args by congruence. simpl.
        by destruct (args_extract_context args c). }
      by apply args_extract_context_intersects.
Qed.

Lemma stmt_extract_context_intersects (stmt : pet_stmt) :
  intersects (stmt_extract_context stmt).
Proof.
  assert (intersects (λ c, args_extract_context (args stmt) c
                           ≫= expr_extract_context (body stmt))) as Hrest.
  { apply intersects_bind; [|apply expr_extract_context_intersects].
    apply args_extract_context_intersects, Forall_forall.
    intros arg _. apply expr_extract_context_intersects. }
  unfold stmt_extract_context.
  destruct (pet_stmt_is_assume stmt); [|done].
  destruct (pet_expr_args (body stmt)) as [|arg0 rest]; [by left|].
  destruct (pet_expr_is_affine arg0); [|done].
  destruct arg0 as [acc args0|op0 args0]; [|by left].
  right. eexists. intros c. eexists. split; [done|]. intros p. apply mem_intersect.
Qed.

(** X21.  The parameter values that [stmt_extract_context] keeps do not
    depend on the context it is given other than by intersection: the
    result holds exactly the points of the given context that are in the
    result for the universe.  In particular the context never grows. *)
Theorem extract_context_intersects (stmt : pet_stmt) (space : isl_space)
    (context1 context2 : isl_set) :
  stmt_extract_context stmt context1 = Some context2 →
  ∃ valid,
    stmt_extract_context stmt (isl_set_universe space) = Some valid
    ∧ (∀ p, set_mem context2 p = set_mem context1 p && set_mem valid p)
    ∧ (∀ p, set_mem context2 p = true → set_mem context1 p = true).
Proof.
  intros Hc. destruct (stmt_extract_context_intersects stmt) as [Hnone|(v & Hv)].
  { by rewrite Hnone in Hc. }
  destruct (Hv (isl_set_universe space)) as (u & Hu & Hmem).
  destruct (Hv context1) as (c' & Hc' & Hmem'). simplify_eq.
  exists u. split; [done|].
  assert (∀ p, set_mem context2 p = set_mem context1 p && set_mem u p) as Heq.
  { intros p. by rewrite Hmem', Hmem, mem_universe. }
  split; [done|]. intros p. rewrite Heq. by intros [? _]%andb_true_iff.
Qed.

End ExtractContextProofs.

Section FromStmtProofs.
Context {isl : IslOps} {pet : PetOps} {sem : IslSem} {petsem : PetSem}
  {isl_more : IslMoreOps} {pet_more : PetMoreOps} {more_sem : IslMoreSem}.

(** [pet_scop_from_pet_stmt] on a statement that [stmt_extract_context] is
    defined on. *)
Lemma run_pet_scop_from_pet_stmt (stmt : pet_stmt) (context' : isl_set) h r d :
  stmt_extract_context stmt (isl_set_universe (isl_space_params_alloc 0)) = Some context' →
  pet_scop_from_pet_stmt (Some stmt) (World h r d)
  = Some (Some (fresh (dom h)),
          World (<[fresh (dom h) :=
                     {| loc := stmt_loc stmt;
                        context := context';
                        context_value := isl_set_universe (isl_space_params_alloc 0);
                        types := []; arrays := []; stmts := [stmt]; implications := [];
                        skip_now := None; skip_later := None; input := None |}]> h) r d).
Proof.
  intros Hc. unfold pet_scop_from_pet_stmt, scop_alloc.
  erewrite run_bind; [|apply run_alloc]. run_step. simpl. rewrite Hc.
  do 3 run_step. unfold mret, M_ret. do 3 f_equal.
  rewrite !insert_insert_eq. reflexivity.
Qed.

(** X22.  The scop that [pet_scop_from_pet_stmt] returns is a new object
    that holds the statement and nothing else: no array, type, implication
    or skip condition.  Its location is that of the statement and its
    context is what [stmt_extract_context] makes of the universe; the rest
    of the heap is as before and nothing is released or reported. *)
Theorem from_pet_stmt_holds_statement (stmt : pet_stmt) (l : positive) (w w' : world) :
  pet_scop_from_pet_stmt (Some stmt) w = Some (Some l, w') →
  ∃ scop,
    heap w !! l = None
    ∧ heap w' = <[l := scop]> (heap w)
    ∧ released w' = released w ∧ diagnostics w' = diagnostics w
    ∧ stmts scop = [stmt] ∧ loc scop = stmt_loc stmt
    ∧ arrays scop = [] ∧ types scop = [] ∧ implications scop = []
    ∧ pet_scop_has_skip scop pet_skip_now = false
    ∧ pet_scop_has_skip scop pet_skip_later = false
    ∧ stmt_extract_context stmt (isl_set_universe (isl_space_params_alloc 0))
      = Some (context scop).
Proof.
  destruct w as [h r d]. intros Hrun.
  destruct (stmt_extract_context stmt (isl_set_universe (isl_space_params_alloc 0)))
    as [context'|] eqn:Hc.
  - rewrite (run_pet_scop_from_pet_stmt _ _ _ _ _ Hc) in Hrun. simplify_eq.
    eexists. split; [apply fresh_not_allocated|]. split; [reflexivity|]. by simpl.
  - exfalso. revert Hrun. unfold pet_scop_from_pet_stmt, scop_alloc.
    erewrite run_bind; [|apply run_alloc]. run_step. simpl. by rewrite Hc.
Qed.

(** X23.  Two statements made into scops and put in sequence: the result
    is one new scop with the two statements in order, the intermediate
    scops are gone from the heap and nothing is released.  The context
    holds the parameter values that are, up to the parameters of nested
    accesses, valid for both statements. *)
Theorem statements_in_sequence (stmt1 stmt2 : pet_stmt) (context1 context2 : isl_set)
    (w : world) :
  stmt_extract_context stmt1 (isl_set_universe (isl_space_params_alloc 0)) = Some context1 →
  stmt_extract_context stmt2 (isl_set_universe (isl_space_params_alloc 0)) = Some context2 →
  ∃ l scop,
    (scop1 ← pet_scop_from_pet_stmt (Some stmt1);
     scop2 ← pet_scop_from_pet_stmt (Some stmt2);
     pet_scop_add_seq scop1 scop2) w
    = Some (Some l, World (<[l := scop]> (heap w)) (released w) (diagnostics w))
    ∧ heap w !! l = None
    ∧ stmts scop = [stmt1; stmt2]
    ∧ arrays scop = [] ∧ types scop = [] ∧ implications scop = []
    ∧ pet_scop_has_skip scop pet_skip_now = false
    ∧ pet_scop_has_skip scop pet_skip_later = false
    ∧ (∀ p, set_mem (context scop) p = true
            ↔ (∃ q, nested_eq p q ∧ set_mem context1 q = true)
              ∧ (∃ q, nested_eq p q ∧ set_mem context2 q = true)).
Proof.
  destruct w as [h r d]. intros Hc1 Hc2. simpl.
  set (l1 := fresh (dom h)).
  set (scop1 := PetScop (stmt_loc stmt1) context1
                  (isl_set_universe (isl_space_params_alloc 0)) [] [] [stmt1] []
                  None None None).
  set (h1 := <[l1 := scop1]> h).
  set (l2 := fresh (dom h1)).
  set (scop2 := PetScop (stmt_loc stmt2) context2
                  (isl_set_universe (isl_space_params_alloc 0)) [] [] [stmt2] []
                  None None None).
  set (h2 := <[l2 := scop2]> h1).
  assert (h !! l1 = None) as Hl1 by apply fresh_not_allocated.
  assert (h1 !! l2 = None) as Hl2 by apply fresh_not_allocated.
  assert (h2 !! l1 = Some scop1) as H1.
  { unfold h2. rewrite lookup_insert_ne; [apply lookup_insert_eq|].
    intros ->. unfold h1 in Hl2. by rewrite lookup_insert_eq in Hl2. }
  assert (h2 !! l2 = Some scop2) as H2 by apply lookup_insert_eq.
  assert (l1 ≠ l2) as Hne.
  { intros Heq. rewrite <- Heq in Hl2. unfold h1 in Hl2. by rewrite lookup_insert_eq in Hl2. }
  exists (fresh (dom h2)), (added_scop scop1 scop2).
  split; [|split; [|do 6 (split; [done|])]].
  - erewrite run_bind; [|apply (run_pet_scop_from_pet_stmt _ _ _ _ _ Hc1)].
    erewrite run_bind; [|apply (run_pet_scop_from_pet_stmt _ _ _ _ _ Hc2)].
    fold l1 scop1 h1 l2 scop2 h2.
    unfold pet_scop_add_seq.
    erewrite run_bind; [|apply run_load; exact H1].
    change (pet_scop_has_skip scop1 pet_skip_now) with false. cbv beta iota.
    rewrite (run_pet_scop_add l1 l2 scop1 scop2 h2 r d) by done.
    simpl. rewrite !app_nil_r. do 3 f_equal.
    apply map_eq. intros k.
    destruct (decide (k = fresh (dom h2))) as [->|Hk];
      [by rewrite !lookup_insert_eq|].
    rewrite !lookup_insert_ne by done.
    destruct (decide (k = l2)) as [->|Hk2].
    { rewrite lookup_delete_eq. symmetry.
      unfold h1 in Hl2. by rewrite lookup_insert_ne in Hl2. }
    rewrite lookup_delete_ne by done.
    destruct (decide (k = l1)) as [->|Hk1]; [by rewrite lookup_delete_eq|].
    rewrite lookup_delete_ne by done.
    unfold h2, h1. by rewrite !lookup_insert_ne.
  - pose proof (fresh_not_allocated h2) as Hf. unfold h2, h1 in Hf.
    destruct (decide (fresh (dom h2) = l2)) as [Heq|Hn2].
    { exfalso. pose proof (fresh_ne h2 l2 _ H2). done. }
    destruct (decide (fresh (dom h2) = l1)) as [Heq|Hn1].
    { exfalso. pose proof (fresh_ne h2 l1 _ H1). done. }
    unfold h2, h1. fold h1 h2 in Hf. unfold h2, h1 in Hf.
    by rewrite !lookup_insert_ne in Hf.
  - intros p. unfold added_scop. simpl.
    rewrite !mem_intersect, mem_universe. simpl.
    by rewrite andb_true_iff, !mem_nested_remove.
Qed.

End FromStmtProofs.

Section FromStmtSamples.
Import Sym SymLaws Examples SymMore SymMoreLaws.

(** X21 on "assume(n >= 1)" and the context "n >= 1". *)
Lemma extract_context_intersects_sample :
  ∃ context2 valid,
    stmt_extract_context (stmt_assume 1) param_positive = Some context2
    ∧ stmt_extract_context (stmt_assume 1) (isl_set_universe params0) = Some valid
    ∧ ∀ p, set_mem context2 p = set_mem param_positive p && set_mem valid p.
Proof.
  assert (∃ context2, stmt_extract_context (stmt_assume 1) param_positive = Some context2)
    as (context2 & Hc) by (eexists; reflexivity).
  destruct (extract_context_intersects (more_sem := more_sem)
              (stmt_assume 1) params0 param_positive context2 Hc)
    as (valid & Hu & Hm & _).
  exists context2, valid. split; [exact Hc|]. split; [exact Hu|exact Hm].
Defined.

(** X22 on "assume(n >= 1)". *)
Lemma from_pet_stmt_holds_statement_sample :
  ∃ l w' scop,
    pet_scop_from_pet_stmt (Some (stmt_assume 1)) (world_of scop_S scop_T) = Some (Some l, w')
    ∧ heap w' = <[l := scop]> (heap (world_of scop_S scop_T))
    ∧ stmts scop = [stmt_assume 1].
Proof.
  assert (∃ context', stmt_extract_context (stmt_assume 1)
                        (isl_set_universe (isl_space_params_alloc 0)) = Some context')
    as (context' & Hc) by (eexists; reflexivity).
  pose proof (run_pet_scop_from_pet_stmt (stmt_assume 1) context'
                (heap (world_of scop_S scop_T)) [] [] Hc) as Hrun.
  destruct (from_pet_stmt_holds_statement _ _ (world_of scop_S scop_T) _ Hrun)
    as (scop & _ & Hh & _ & _ & Hs & _).
  eexists _, _, scop. split; [exact Hrun|]. split; [exact Hh|exact Hs].
Defined.

(** X23 on "assume(n >= 1)" followed by "assume(n >= 2)". *)
Lemma statements_in_sequence_sample :
  ∃ l scop,
    (scop1 ← pet_scop_from_pet_stmt (Some (stmt_assume 1));
     scop2 ← pet_scop_from_pet_stmt (Some (stmt_assume 2));
     pet_scop_add_seq scop1 scop2) (world_of scop_S scop_T)
    = Some (Some l,
            World (<[l := scop]> (heap (world_of scop_S scop_T)))
              (released (world_of scop_S scop_T)) (diagnostics (world_of scop_S scop_T)))
    ∧ stmts scop = [stmt_assume 1; stmt_assume 2].
Proof.
  assert (∀ c, ∃ context', stmt_extract_context (stmt_assume c)
                             (isl_set_universe (isl_space_params_alloc 0)) = Some context')
    as Hc by (intros c; eexists; reflexivity).
  destruct (Hc 1%Z) as (context1 & Hc1). destruct (Hc 2%Z) as (context2 & Hc2).
  destruct (statements_in_sequence (more_sem := more_sem) (stmt_assume 1) (stmt_assume 2)
              context1 context2 (world_of scop_S scop_T) Hc1 Hc2)
    as (l & scop & Hrun & _ & Hs & _).
  exists l, scop. split; [exact Hrun|exact Hs].
Defined.

End FromStmtSamples.
